(** * losgodis: UTF-8 validation and decoding, and the string pool

    A shallow embedding of [src/losgodis/utf8.cpp], [losgodis/utf8.hpp],
    [src/losgodis/string_pool.cpp] and [losgodis/string_pool.hpp], with the
    properties of the specification proved about it. *)

From Stdlib Require Import ZArith Lia List Bool.
From Stdlib Require Import Init.Byte Strings.Byte.
From stdpp Require Import base tactics option list numbers.

Local Open Scope Z_scope.

(** ** Machine integers *)

(** [uint8_t]: the value of a byte. *)
Definition u8 (b : byte) : Z := Z.of_N (Byte.to_N b).

(** The byte with a given value (used to build inputs; 0 outside [0,256)). *)
Definition byte_of (z : Z) : byte :=
  match Byte.of_N (Z.to_N z) with
  | Some b => b
  | None => x00
  end.

(** [size_t] on the 64-bit targets the hash constants select
    ([sizeof(size_t) == 8]): arithmetic wraps modulo 2^64. *)
Definition size_t_modulus : Z := 2 ^ 64.
Definition wrap (z : Z) : Z := z mod size_t_modulus.

Notation "a +' b" := (wrap (a + b)) (at level 50, left associativity).
Notation "a -' b" := (wrap (a - b)) (at level 50, left associativity).

(** [x << n] on [unsigned] and [uint32_t], which are 32 bits wide. *)
Definition shl32 (x n : Z) : Z := Z.shiftl x n mod 2 ^ 32.

(** A C++ integer used as a condition: true when not zero. *)
Definition truthy (z : Z) : bool := negb (z =? 0).

#[global] Instance byte_eq_dec : EqDecision byte := Byte.byte_eq_dec.

Module Utf8.

(** ** Data of [losgodis/utf8.hpp] *)

(** [codepoint_t = uint32_t]. *)
Abbreviation codepoint_t := Z.

(** A [byte_range] is [(start_, byte_count_)]; it is modelled by the bytes it
    spans, and every pointer into it by its offset from [start_]. *)
Abbreviation byte_range := (list Byte.byte).

Definition size (range : byte_range) : Z := Z.of_nat (length range).

(** [operator[]]: reading outside the range has no defined result. *)
Definition at_ (range : byte_range) (index : Z) : option Z :=
  if decide (0 <= index) then u8 <$> range !! Z.to_nat index else None.

Record utf8_range := mk_utf8_range { start_ : Z; byte_count_ : Z }.

Definition to_utf8 (range : byte_range) (size : Z) : utf8_range :=
  {| start_ := 0; byte_count_ := size |}.

Inductive validation_error :=
| success
| invalid_byte
| invalid_codepoint
| overlong_enocoding
| unexpected_continuation_byte
| unexpected_non_continuation_byte
| unexpected_end.

#[global] Instance validation_error_eq_dec : EqDecision validation_error.
Proof. solve_decision. Defined.

Record validation_result := mk_result {
  error : validation_error;
  range : utf8_range;
  codepoint_count : Z
}.

(** ** [validate] (utf8.cpp, lines 7-73) *)

(** What one pass through the body of the [while] does: go round again with
    new [i] and [codepoint_count], or [return]. *)
Inductive flow :=
| Next (i codepoint_count : Z)
| Return (r : validation_result).

Definition validate_body (range : byte_range) (i codepoint_count : Z) : option flow :=
  b1 ← at_ range i;
  if b1 <? 0x80 then
    Some (Next (i +' 1) (codepoint_count +' 1))
  else if b1 <? 0xC0 then
    Some (Return (mk_result unexpected_continuation_byte (to_utf8 range i) codepoint_count))
  else if b1 <? 0xE0 then
    if size range <=? i +' 1 then
      Some (Return (mk_result unexpected_end (to_utf8 range i) codepoint_count))
    else
      b2 ← at_ range (i +' 1);
      if truthy (Z.land (Z.lxor b2 0x80) 0xC0) then
        Some (Return (mk_result unexpected_non_continuation_byte (to_utf8 range i) codepoint_count))
      else
        let codepoint := Z.lor (shl32 (Z.land b1 0x1F) 6) (Z.land b2 0x3F) in
        if codepoint <? 0x7F then
          Some (Return (mk_result overlong_enocoding (to_utf8 range i) codepoint_count))
        else Some (Next (i +' 2) (codepoint_count +' 1))
  else if b1 <? 0xF0 then
    if size range <=? i +' 2 then
      Some (Return (mk_result unexpected_end (to_utf8 range i) codepoint_count))
    else
      b2 ← at_ range (i +' 1);
      b3 ← at_ range (i +' 2);
      if truthy (Z.land (Z.lor (Z.lxor b2 0x80) (Z.lxor b3 0x80)) 0xC0) then
        Some (Return (mk_result unexpected_non_continuation_byte (to_utf8 range i) codepoint_count))
      else
        let codepoint :=
          Z.lor (Z.lor (shl32 (Z.land b1 0xF) 12) (shl32 (Z.land b2 0x3F) 6))
                (Z.land b3 0x3F) in
        if codepoint <=? 0x7FF then
          Some (Return (mk_result overlong_enocoding (to_utf8 range i) codepoint_count))
        else Some (Next (i +' 3) (codepoint_count +' 1))
  else if b1 <? 0xF8 then
    if size range <=? i +' 3 then
      Some (Return (mk_result unexpected_end (to_utf8 range i) codepoint_count))
    else
      b2 ← at_ range (i +' 1);
      b3 ← at_ range (i +' 2);
      b4 ← at_ range (i +' 3);
      if truthy (Z.land (Z.lor (Z.lor (Z.lxor b2 0x80) (Z.lxor b3 0x80)) (Z.lxor b4 0x80)) 0xC0) then
        Some (Return (mk_result unexpected_non_continuation_byte (to_utf8 range i) codepoint_count))
      else
        let codepoint :=
          Z.lor (Z.lor (Z.lor (shl32 (Z.land b1 0x7) 18) (shl32 (Z.land b2 0x3F) 12))
                       (shl32 (Z.land b3 0x3F) 6))
                (Z.land b4 0x3F) in
        if 0x10FFFF <? codepoint then
          Some (Return (mk_result invalid_codepoint (to_utf8 range i) codepoint_count))
        else if codepoint <=? 0xFFFF then
          Some (Return (mk_result overlong_enocoding (to_utf8 range i) codepoint_count))
        else Some (Next (i +' 4) (codepoint_count +' 1))
  else
    Some (Return (mk_result invalid_byte (to_utf8 range i) codepoint_count)).

(** The [while (i < range.size())] loop; [fuel] bounds the number of passes,
    and [None] is running out of it or reading outside the range. *)
Fixpoint validate_loop (fuel : nat) (range : byte_range) (i codepoint_count : Z)
  : option validation_result :=
  if decide (i < size range) then
    match fuel with
    | O => None
    | S fuel =>
        fl ← validate_body range i codepoint_count;
        match fl with
        | Next i' codepoint_count' => validate_loop fuel range i' codepoint_count'
        | Return r => Some r
        end
    end
  else Some (mk_result success (to_utf8 range i) codepoint_count).

Definition validate (range : byte_range) : option validation_result :=
  validate_loop (length range) range 0 0.

(** ** [validate_quick] (utf8.cpp, lines 76-132)

    "do not check invalid_codepoint and overlong_enocoding": the source
    repeats the loop of [validate] without the code point tests. *)

Definition validate_quick_body (range : byte_range) (i codepoint_count : Z) : option flow :=
  b1 ← at_ range i;
  if b1 <? 0x80 then
    Some (Next (i +' 1) (codepoint_count +' 1))
  else if b1 <? 0xC0 then
    Some (Return (mk_result unexpected_continuation_byte (to_utf8 range i) codepoint_count))
  else if b1 <? 0xE0 then
    if size range <=? i +' 1 then
      Some (Return (mk_result unexpected_end (to_utf8 range i) codepoint_count))
    else
      b2 ← at_ range (i +' 1);
      if truthy (Z.land (Z.lxor b2 0x80) 0xC0) then
        Some (Return (mk_result unexpected_non_continuation_byte (to_utf8 range i) codepoint_count))
      else Some (Next (i +' 2) (codepoint_count +' 1))
  else if b1 <? 0xF0 then
    if size range <=? i +' 2 then
      Some (Return (mk_result unexpected_end (to_utf8 range i) codepoint_count))
    else
      b2 ← at_ range (i +' 1);
      b3 ← at_ range (i +' 2);
      if truthy (Z.land (Z.lor (Z.lxor b2 0x80) (Z.lxor b3 0x80)) 0xC0) then
        Some (Return (mk_result unexpected_non_continuation_byte (to_utf8 range i) codepoint_count))
      else Some (Next (i +' 3) (codepoint_count +' 1))
  else if b1 <? 0xF8 then
    if size range <=? i +' 3 then
      Some (Return (mk_result unexpected_end (to_utf8 range i) codepoint_count))
    else
      b2 ← at_ range (i +' 1);
      b3 ← at_ range (i +' 2);
      b4 ← at_ range (i +' 3);
      if truthy (Z.land (Z.lor (Z.lor (Z.lxor b2 0x80) (Z.lxor b3 0x80)) (Z.lxor b4 0x80)) 0xC0) then
        Some (Return (mk_result unexpected_non_continuation_byte (to_utf8 range i) codepoint_count))
      else Some (Next (i +' 4) (codepoint_count +' 1))
  else
    Some (Return (mk_result invalid_byte (to_utf8 range i) codepoint_count)).

Fixpoint validate_quick_loop (fuel : nat) (range : byte_range) (i codepoint_count : Z)
  : option validation_result :=
  if decide (i < size range) then
    match fuel with
    | O => None
    | S fuel =>
        fl ← validate_quick_body range i codepoint_count;
        match fl with
        | Next i' codepoint_count' => validate_quick_loop fuel range i' codepoint_count'
        | Return r => Some r
        end
    end
  else Some (mk_result success (to_utf8 range i) codepoint_count).

Definition validate_quick (range : byte_range) : option validation_result :=
  validate_quick_loop (length range) range 0 0.

(** ** [iterator] (utf8.hpp, lines 43-111)

    An iterator is a [const char*]: here the offset of the byte it points at.
    It reads the memory of the range it was made from; a read outside that
    memory is the undefined behaviour the header warns about ([None]). *)

Record iterator := mk_iterator { str_ : Z }.

#[global] Instance iterator_eq_dec : EqDecision iterator.
Proof. solve_decision. Defined.

Section Iterator.
(** Whether [assert] is compiled out. *)
Variable NDEBUG : bool.
Variable mem : byte_range.

Definition byte (it : iterator) (offset : Z) : option Z :=
  at_ mem (str_ it + offset).

(** [operator*] *)
Definition deref (it : iterator) : option codepoint_t :=
  byte0 ← byte it 0;
  if byte0 <? 0x80 then Some byte0
  else if byte0 <? 0xE0 then
    b1 ← byte it 1;
    Some (Z.lor (shl32 (Z.land byte0 0x1F) 6) (Z.land b1 0x3F))
  else if byte0 <? 0xF0 then
    b1 ← byte it 1;
    b2 ← byte it 2;
    Some (Z.lor (Z.lor (shl32 (Z.land byte0 0xF) 12) (shl32 (Z.land b1 0x3F) 6))
                (Z.land b2 0x3F))
  else
    b1 ← byte it 1;
    b2 ← byte it 2;
    b3 ← byte it 3;
    Some (Z.lor (Z.lor (Z.lor (shl32 (Z.land byte0 0x7) 18) (shl32 (Z.land b1 0x3F) 12))
                       (shl32 (Z.land b2 0x3F) 6))
                (Z.land b3 0x3F)).

(** [assert(false); str_ += 1;] *)
Definition assert_false_then (it : iterator) : option iterator :=
  if NDEBUG then Some it else None.

(** [operator++] *)
Definition incr (it : iterator) : option iterator :=
  byte0 ← byte it 0;
  if byte0 <=? 0x7F then Some (mk_iterator (str_ it + 1))
  else if byte0 <=? 0xBF then assert_false_then (mk_iterator (str_ it + 1))
  else if byte0 <=? 0xDF then Some (mk_iterator (str_ it + 2))
  else if byte0 <=? 0xEF then Some (mk_iterator (str_ it + 3))
  else if byte0 <=? 0xF7 then Some (mk_iterator (str_ it + 4))
  else assert_false_then (mk_iterator (str_ it + 1)).

(** [n] times [++it]. *)
Fixpoint advance (n : nat) (it : iterator) : option iterator :=
  match n with
  | O => Some it
  | S n => it' ← incr it; advance n it'
  end.

(** [for (it = first; it != last; ++it) yield *it]. *)
Fixpoint codepoints_from (fuel : nat) (it last : iterator) : option (list codepoint_t) :=
  if decide (it = last) then Some []
  else
    match fuel with
    | O => None
    | S fuel =>
        c ← deref it;
        it' ← incr it;
        cs ← codepoints_from fuel it' last;
        Some (c :: cs)
    end.
End Iterator.

Definition begin (r : utf8_range) : iterator := mk_iterator (start_ r).
Definition end_ (r : utf8_range) : iterator := mk_iterator (start_ r + byte_count_ r).

(** The code points a range-[for] over [r] produces. *)
Definition codepoints (NDEBUG : bool) (mem : byte_range) (r : utf8_range)
  : option (list codepoint_t) :=
  codepoints_from NDEBUG mem (Z.to_nat (byte_count_ r)) (begin r) (end_ r).

End Utf8.

(** * The string pool ([losgodis/string_pool.hpp], [src/losgodis/string_pool.cpp]) *)
Module StringPool.

(** "Change if needed, needs to be atleast large enough to hold biggest string" *)
Definition page_size : Z := 4096.

(** ** Memory

    An address is either in storage the caller owns (the string literals
    behind a [string_literal], the characters a [std::string_view] or
    [std::string] of the caller refers to), or in the [buffer_] of a page of
    the pool. Pages are numbered in the order [std::make_unique] allocates
    them; distinct pages are distinct objects, apart from each other and
    from the caller's storage. *)
Inductive ptr :=
| caller_ptr (address : Z)
| page_ptr (page : nat) (offset : Z).

#[global] Instance ptr_eq_dec : EqDecision ptr.
Proof. solve_decision. Defined.

Definition ptr_add (p : ptr) (n : Z) : ptr :=
  match p with
  | caller_ptr a => caller_ptr (a + n)
  | page_ptr page offset => page_ptr page (offset + n)
  end.

(** [std::string_view] *)
Record string_view := mk_view { data : ptr; size : Z }.

Record string_key := mk_key { view_ : string_view; hash_ : Z }.

Record string_literal := mk_literal { key_ : string_key }.

Record fixed_string := mk_fixed_string { data_ : ptr; size_ : Z }.

#[global] Instance string_view_eq_dec : EqDecision string_view.
Proof. solve_decision. Defined.
#[global] Instance string_key_eq_dec : EqDecision string_key.
Proof. solve_decision. Defined.
#[global] Instance fixed_string_eq_dec : EqDecision fixed_string.
Proof. solve_decision. Defined.

(** [operator==(fixed_string, fixed_string)] compares the data pointers. *)
Definition fixed_string_eqb (a b : fixed_string) : bool := bool_decide (data_ a = data_ b).

(** A byte of a page buffer; [None] is a byte nothing was written to yet
    ([buffer_] is not initialised by the constructor). *)
Abbreviation cell := (option Byte.byte).

(** [detail::fixed_page]. [previousPage_] is the rest of the chain: the pool
    holds the chain as the list of its pages, newest first. *)
Record fixed_page := mk_page { buffer_ : list cell; remaining_ : Z }.

Abbreviation chain := (list fixed_page).

(** [string_pool]: [map_] is the [std::unordered_set] of entries, [page_]
    the chain of pages ([nullptr] is the empty chain). *)
Record string_pool := mk_pool { map_ : list string_key; page_ : chain }.

(** [detail::hash]: FNV-1a on [size_t], over the characters read. *)
Definition prime : Z := 1099511628211.
Definition offset : Z := 14695981039346656037.

Definition hash (bytes : list Byte.byte) : Z :=
  fold_left (fun hash b => wrap (wrap (Z.lxor hash (u8 b)) * prime)) bytes offset.

Section Memory.
(** The storage of the caller. It does not change while the pool lives:
    for the literals this is the precondition of the overload that does
    not copy, and a transient buffer the caller reuses can be taken at a
    fresh address each time, as its address is never kept. *)
Variable caller_memory : Z -> Byte.byte.

(** The page with number [n] of a chain. *)
Definition page_at (pages : chain) (n : nat) : option fixed_page := reverse pages !! n.

(** Reading a byte; [None] is a read of no defined value. *)
Definition load (pages : chain) (p : ptr) : option Byte.byte :=
  match p with
  | caller_ptr a => Some (caller_memory a)
  | page_ptr n off =>
      page ← page_at pages n;
      if decide (0 <= off) then c ← buffer_ page !! Z.to_nat off; c else None
  end.

Fixpoint load_bytes (pages : chain) (p : ptr) (n : nat) : option (list Byte.byte) :=
  match n with
  | O => Some []
  | S n =>
      b ← load pages p;
      bs ← load_bytes pages (ptr_add p 1) n;
      Some (b :: bs)
  end.

(** The characters a view refers to. *)
Definition view_bytes (pages : chain) (v : string_view) : option (list Byte.byte) :=
  load_bytes pages (data v) (Z.to_nat (size v)).

(** Writing [bytes] at offset [off] of a buffer; a write outside the
    buffer has no defined result. *)
Definition store (buffer : list cell) (off : Z) (bytes : list Byte.byte)
  : option (list cell) :=
  if decide (0 <= off /\ off + Z.of_nat (length bytes) <= Z.of_nat (length buffer))
  then Some (list_inserts (Z.to_nat off) (Some <$> bytes) buffer)
  else None.

(** ** Keys *)

(** [string_key(std::string_view)] *)
Definition string_key_of_view (pages : chain) (string : string_view) : option string_key :=
  bytes ← view_bytes pages string;
  Some {| view_ := string; hash_ := hash bytes |}.

(** The literal operator [_key], on a literal of [size] characters at address
    [str]. *)
Definition literal (str : Z) (size : Z) : option string_literal :=
  key ← string_key_of_view [] (mk_view (caller_ptr str) size);
  Some {| key_ := key |}.

(** [operator==(string_key, string_key)]: the views compare equal. *)
Definition key_eqb (pages : chain) (a b : string_key) : bool :=
  match view_bytes pages (view_ a), view_bytes pages (view_ b) with
  | Some x, Some y => bool_decide (x = y)
  | _, _ => false
  end.

(** ** [std::unordered_set<entry>]

    The entries, in no order that matters. [find] compares with the
    entries whose hash is the hash of the key. *)
Definition find (pages : chain) (map : list string_key) (key : string_key)
  : option string_key :=
  List.find (fun entry => bool_decide (hash_ entry = hash_ key) && key_eqb pages entry key) map.

Definition insert (pages : chain) (map : list string_key) (entry : string_key)
  : list string_key :=
  match find pages map entry with
  | Some _ => map
  | None => entry :: map
  end.

(** ** [detail::fixed_page] *)

(** [fixed_page(std::move(page_))] *)
Definition new_page : fixed_page :=
  {| buffer_ := replicate (Z.to_nat page_size) None; remaining_ := page_size |}.

Definition can_hold (page : fixed_page) (size : Z) : bool :=
  size +' 1 <? remaining_ page.

(** Returns the page after the call and [start], as an offset into
    [buffer_]. *)
Definition push_back (pages : chain) (page : fixed_page) (key : string_key)
  : option (fixed_page * Z) :=
  let size := size (view_ key) in
  let start := (page_size - 1) - remaining_ page + 1 in
  bytes ← view_bytes pages (view_ key);
  buffer ← store (buffer_ page) start bytes;
  buffer ← store buffer (start + size) [x00];
  Some ({| buffer_ := buffer; remaining_ := remaining_ page -' (size +' 1) |}, start).

(** ** [string_pool] *)

(** [string_pool() = default] *)
Definition empty_pool : string_pool := {| map_ := []; page_ := [] |}.

(** [string_pool(std::initializer_list<string_literal>)] *)
Definition string_pool_of (list : list string_literal) : string_pool :=
  {| map_ := fold_left (fun map l => insert [] map (key_ l)) list []; page_ := [] |}.

(** [get_string(string_literal)], "special one that does not copy" *)
Definition get_string_literal (pool : string_pool) (string : string_literal)
  : option (string_pool * fixed_string) :=
  let key := key_ string in
  let size := size (view_ key) in
  match find (page_ pool) (map_ pool) key with
  | Some it => Some (pool, {| data_ := data (view_ it); size_ := size |})
  | None =>
      Some ({| map_ := insert (page_ pool) (map_ pool)
                         {| view_ := view_ key; hash_ := hash_ key |};
               page_ := page_ pool |},
            {| data_ := data (view_ key); size_ := size |})
  end.

(** The chain after [if (page_ == nullptr || !page_->can_hold(size))
    page_ = std::make_unique<detail::fixed_page>(std::move(page_));] *)
Definition page_for (pages : chain) (size : Z) : chain :=
  match pages with
  | [] => new_page :: pages
  | page :: _ => if can_hold page size then pages else new_page :: pages
  end.

(** [get_string(string_key)] *)
Definition get_string_key (pool : string_pool) (key : string_key)
  : option (string_pool * fixed_string) :=
  let size := size (view_ key) in
  match find (page_ pool) (map_ pool) key with
  | Some it => Some (pool, {| data_ := data (view_ it); size_ := size |})
  | None =>
      match page_for (page_ pool) size with
      | [] => None
      | page :: previousPage =>
          '(page, start) ← push_back (page :: previousPage) page key;
          let str := page_ptr (length previousPage) start in
          let pages := page :: previousPage in
          Some ({| map_ := insert pages (map_ pool)
                             {| view_ := mk_view str size; hash_ := hash_ key |};
                   page_ := pages |},
                {| data_ := str; size_ := size |})
      end
  end.

(** [get_string(std::string_view)] and [get_string(const std::string&)]:
    [return get_string(string_key{ string })]. *)
Definition get_string_view (pool : string_pool) (string : string_view)
  : option (string_pool * fixed_string) :=
  key ← string_key_of_view (page_ pool) string;
  get_string_key pool key.

(** [fixed_string::view()] *)
Definition view (s : fixed_string) : string_view := mk_view (data_ s) (size_ s).
End Memory.

End StringPool.

(** ** UTF-8 as the Unicode Standard defines it

    The reference the validator and the decoder are compared with: code
    points, scalar values (code points that are not surrogates) and the
    shortest-form encoding of Table 3-6. *)
Module Unicode.

Definition code_point (cp : Z) : Prop := 0 <= cp <= 0x10FFFF.

Definition surrogate (cp : Z) : Prop := 0xD800 <= cp <= 0xDFFF.

Definition scalar_value (cp : Z) : Prop := code_point cp /\ ~ surrogate cp.

Definition encode (cp : Z) : list byte :=
  if cp <? 0x80 then [byte_of cp]
  else if cp <? 0x800 then
    [byte_of (0xC0 + cp / 64); byte_of (0x80 + cp mod 64)]
  else if cp <? 0x10000 then
    [byte_of (0xE0 + cp / 4096); byte_of (0x80 + (cp / 64) mod 64); byte_of (0x80 + cp mod 64)]
  else
    [byte_of (0xF0 + cp / 262144); byte_of (0x80 + (cp / 4096) mod 64);
     byte_of (0x80 + (cp / 64) mod 64); byte_of (0x80 + cp mod 64)].

(** The encodings of code points, one after the other; a well-formed UTF-8
    byte sequence is [encode_all cps] for scalar values [cps]. *)
Definition encode_all (cps : list Z) : list byte := concat (map encode cps).

End Unicode.

(** ** Vocabulary of the properties *)
Module Utf8Spec.
Import Utf8.

(** No offset into the range, and none up to three bytes past a lead byte,
    overflows [size_t]; every range that fits in an address space does. *)
Definition addressable (range : byte_range) : Prop := size range + 3 <= size_t_modulus.

(** [10xxxxxx] *)
Definition continuation (b : Z) : bool := (0x80 <=? b) && (b <? 0xC0).

(** The length a multi-byte lead byte announces. *)
Definition lead_length (b1 : Z) : Z :=
  if b1 <? 0xE0 then 2 else if b1 <? 0xF0 then 3 else 4.

(** [sequence_at range i len cp]: at offset [i] the range holds a lead byte of
    the length class [len] followed by [len - 1] continuation bytes, all inside
    the range, and their payload bits are the number [cp]. *)
Inductive sequence_at (range : byte_range) (i : Z) : Z -> Z -> Prop :=
| sequence1 b1 :
    at_ range i = Some b1 -> b1 < 0x80 ->
    sequence_at range i 1 b1
| sequence2 b1 b2 :
    at_ range i = Some b1 -> at_ range (i + 1) = Some b2 ->
    0xC0 <= b1 < 0xE0 -> continuation b2 = true ->
    sequence_at range i 2 ((b1 - 0xC0) * 64 + (b2 - 0x80))
| sequence3 b1 b2 b3 :
    at_ range i = Some b1 -> at_ range (i + 1) = Some b2 -> at_ range (i + 2) = Some b3 ->
    0xE0 <= b1 < 0xF0 -> continuation b2 = true -> continuation b3 = true ->
    sequence_at range i 3 ((b1 - 0xE0) * 4096 + (b2 - 0x80) * 64 + (b3 - 0x80))
| sequence4 b1 b2 b3 b4 :
    at_ range i = Some b1 -> at_ range (i + 1) = Some b2 -> at_ range (i + 2) = Some b3 ->
    at_ range (i + 3) = Some b4 ->
    0xF0 <= b1 < 0xF8 -> continuation b2 = true -> continuation b3 = true ->
    continuation b4 = true ->
    sequence_at range i 4
      ((b1 - 0xF0) * 262144 + (b2 - 0x80) * 4096 + (b3 - 0x80) * 64 + (b4 - 0x80)).

(** The sequences [validate] lets through, by its three tests on the code
    point (lines 31, 45, 60 and 61). *)
Definition accepted (len cp : Z) : Prop :=
  (len = 2 -> 0x7F <= cp) /\ (len = 3 -> 0x7FF < cp) /\ (len = 4 -> 0xFFFF < cp <= 0x10FFFF).

(** What each error kind says about the bytes at the offset it is reported
    for. *)
Definition failure_at (range : byte_range) (i : Z) (e : validation_error) : Prop :=
  exists b1, at_ range i = Some b1 /\
  match e with
  | success => False
  | unexpected_continuation_byte => 0x80 <= b1 < 0xC0
  | invalid_byte => 0xF8 <= b1
  | unexpected_end => 0xC0 <= b1 < 0xF8 /\ size range < i + lead_length b1
  | unexpected_non_continuation_byte =>
      0xC0 <= b1 < 0xF8 /\ i + lead_length b1 <= size range /\
      exists k b, 1 <= k < lead_length b1 /\ at_ range (i + k) = Some b /\ continuation b = false
  | overlong_enocoding =>
      exists len cp, sequence_at range i len cp /\
        (len = 2 /\ cp < 0x7F \/ len = 3 /\ cp <= 0x7FF \/ len = 4 /\ cp <= 0xFFFF)
  | invalid_codepoint => exists cp, sequence_at range i 4 cp /\ 0x10FFFF < cp
  end.

(** [parses P range i j cps]: the bytes from offset [i] up to offset [j] are
    sequences, one after the other, that [P] lets through, and [cps] are
    their code points in order. *)
Inductive parses (P : Z -> Z -> Prop) (range : byte_range) : Z -> Z -> list Z -> Prop :=
| parses_nil i : parses P range i i []
| parses_cons i len cp j cps :
    sequence_at range i len cp -> P len cp ->
    parses P range (i + len) j cps ->
    parses P range i j (cp :: cps).

(** [validate_quick] tests no code point. *)
Definition any_sequence (len cp : Z) : Prop := True.

(** [validate] may report any kind. *)
Definition any_error (e : validation_error) : Prop := True.

(** The error kinds of the structure of the bytes, which both validators
    report. *)
Definition structural (e : validation_error) : Prop :=
  e <> overlong_enocoding /\ e <> invalid_codepoint.


(** The agreement of decoder and validator with "Unicode scalar values" read
    as the Standard defines them. *)
Definition decodes_scalar_values (range : byte_range) : Prop :=
  forall NDEBUG r,
    validate range = Some r -> error r = success ->
    exists cps,
      Forall Unicode.scalar_value cps /\
      range = Unicode.encode_all cps /\
      codepoints NDEBUG range (Utf8.range r) = Some cps /\
      Z.of_nat (length cps) = codepoint_count r /\
      advance NDEBUG range (length cps) (begin (Utf8.range r)) = Some (end_ (Utf8.range r)).

(** A loop of the shape both validators have, over any body. *)
Section Loop.
Variable body : byte_range -> Z -> Z -> option flow.

Fixpoint loop (fuel : nat) (range : byte_range) (i codepoint_count : Z)
  : option validation_result :=
  if decide (i < size range) then
    match fuel with
    | O => None
    | S fuel =>
        fl ← body range i codepoint_count;
        match fl with
        | Next i' codepoint_count' => loop fuel range i' codepoint_count'
        | Return r => Some r
        end
    end
  else Some (mk_result success (to_utf8 range i) codepoint_count).
End Loop.

End Utf8Spec.

Module PoolSpec.
Import StringPool.

Section Spec.
Variable caller_memory : Z -> Byte.byte.

(** A key as its constructors make it: a view of characters that can be
    read, with their hash. *)
Definition key_ok (pages : chain) (key : string_key) : Prop :=
  0 <= size (view_ key) /\
  exists bytes, view_bytes caller_memory pages (view_ key) = Some bytes /\
                hash_ key = hash bytes.

(** A [string_literal] is made by the literal operator [_key] only: its
    characters are in the storage of the caller. *)
Definition literal_ok (string : string_literal) : Prop :=
  (exists a, data (view_ (key_ string)) = caller_ptr a) /\ key_ok [] (key_ string).

(** A page: a buffer of [page_size] bytes of which the last [remaining_]
    were never written. *)
Definition page_ok (page : fixed_page) : Prop :=
  length (buffer_ page) = Z.to_nat page_size /\
  0 <= remaining_ page <= page_size /\
  forall k, page_size - remaining_ page <= k < page_size ->
            buffer_ page !! Z.to_nat k = Some None.

(** What the constructors establish and every call keeps: the pages are
    pages, and the entries of the index are keys that can be read. *)
Definition pool_inv (pool : string_pool) : Prop :=
  Forall page_ok (page_ pool) /\ Forall (key_ok (page_ pool)) (map_ pool).

(** The entry of the index that holds given content, if there is one. *)
Definition resolve (pages : chain) (map : list string_key) (bytes : list Byte.byte)
  : option string_key :=
  List.find (fun entry =>
               bool_decide (hash_ entry = hash bytes /\
                            view_bytes caller_memory pages (view_ entry) = Some bytes)) map.

(** The ways to call [get_string]. A [std::string] is the view of its
    characters, as the conversion in [string_key{ string }] takes it. *)
Inductive call :=
| by_key (key : string_key)
| by_view (string : string_view)
| by_string (string : string_view)
| by_literal (string : string_literal).

Definition get_string (pool : string_pool) (c : call)
  : option (string_pool * fixed_string) :=
  match c with
  | by_key key => get_string_key caller_memory pool key
  | by_view string | by_string string => get_string_view caller_memory pool string
  | by_literal string => get_string_literal caller_memory pool string
  end.

Definition call_view (c : call) : string_view :=
  match c with
  | by_key key => view_ key
  | by_view string | by_string string => string
  | by_literal string => view_ (key_ string)
  end.

(** The content a call asks for. *)
Definition call_bytes (pool : string_pool) (c : call) : option (list Byte.byte) :=
  view_bytes caller_memory (page_ pool) (call_view c).

(** The key a call looks up in the index. *)
Definition call_key (pool : string_pool) (c : call) : option string_key :=
  match c with
  | by_key key => Some key
  | by_view string | by_string string =>
      string_key_of_view caller_memory (page_ pool) string
  | by_literal string => Some (key_ string)
  end.

Definition call_ok (pool : string_pool) (c : call) : Prop :=
  match c with
  | by_key key => key_ok (page_ pool) key
  | by_view string | by_string string =>
      0 <= size string /\ is_Some (view_bytes caller_memory (page_ pool) string)
  | by_literal string => literal_ok string
  end.

(** The calls that copy into a page on a miss. *)
Definition copying (c : call) : Prop :=
  match c with by_literal _ => False | _ => True end.

(** What a copying call that misses the index returns: a handle into a
    page, that reads as the content followed by a 0 byte. *)
Definition copy_is_terminated (pool : string_pool) (c : call) : Prop :=
  forall bytes key,
    call_bytes pool c = Some bytes ->
    call_key pool c = Some key ->
    find caller_memory (page_ pool) (map_ pool) key = None ->
    exists pool' n start,
      get_string pool c
      = Some (pool', {| data_ := page_ptr n start; size_ := Z.of_nat (length bytes) |}) /\
      view_bytes caller_memory (page_ pool')
        (mk_view (page_ptr n start) (Z.of_nat (length bytes))) = Some bytes /\
      load caller_memory (page_ pool') (page_ptr n (start + Z.of_nat (length bytes)))
      = Some x00.

(** A sequence of calls, each of defined behaviour, with the handles they
    return. *)
Inductive runs : string_pool -> list (call * fixed_string) -> string_pool -> Prop :=
| runs_nil pool : runs pool [] pool
| runs_cons pool c pool1 h trace pool2 :
    call_ok pool c ->
    get_string pool c = Some (pool1, h) ->
    runs pool1 trace pool2 ->
    runs pool ((c, h) :: trace) pool2.

(** Every byte that can be read keeps its address and its value. *)
Definition preserved (pages pages' : chain) : Prop :=
  forall p b, load caller_memory pages p = Some b -> load caller_memory pages' p = Some b.
End Spec.

(** A caller storage for examples: the characters "abcabcabc...". *)
Definition abc_memory : Z -> Byte.byte := fun a => byte_of (97 + a mod 3).

End PoolSpec.

(** ** Where the pool keeps what it copied *)
Module PoolLayout.
Import StringPool PoolSpec.

(** [operator!=(fixed_string, fixed_string)] *)
Definition fixed_string_neqb (a b : fixed_string) : bool :=
  bool_decide (data_ a <> data_ b).

(** An entry that points into a page lies, with the 0 byte after it, in the
    part of the buffer that [push_back] has handed out. *)
Definition in_page (pages : chain) (entry : string_key) : Prop :=
  forall n off, data (view_ entry) = page_ptr n off ->
    exists page, page_at pages n = Some page /\
      0 <= off /\ off + size (view_ entry) + 1 <= page_size - remaining_ page.

(** Two entries share no byte of a page. *)
Definition apart (e1 e2 : string_key) : Prop :=
  forall n off1 off2,
    data (view_ e1) = page_ptr n off1 -> data (view_ e2) = page_ptr n off2 ->
    off1 + size (view_ e1) + 1 <= off2 \/ off2 + size (view_ e2) + 1 <= off1.

Definition pool_layout (pool : string_pool) : Prop :=
  Forall (in_page (page_ pool)) (map_ pool) /\
  forall i j e1 e2,
    map_ pool !! i = Some e1 -> map_ pool !! j = Some e2 -> i <> j -> apart e1 e2.

Section Contents.
Variable caller_memory : Z -> Byte.byte.

(** No two entries of an index hold the same characters. *)
Definition distinct (pages : chain) (map : list string_key) : Prop :=
  forall i j e1 e2 bytes,
    map !! i = Some e1 -> map !! j = Some e2 ->
    view_bytes caller_memory pages (view_ e1) = Some bytes ->
    view_bytes caller_memory pages (view_ e2) = Some bytes -> i = j.

Definition distinct_contents (pool : string_pool) : Prop :=
  distinct (page_ pool) (map_ pool).

(** An entry that points into a page is followed by a 0 byte. *)
Definition terminated (pages : chain) (entry : string_key) : Prop :=
  forall n off, data (view_ entry) = page_ptr n off ->
    load caller_memory pages (page_ptr n (off + size (view_ entry))) = Some x00.

End Contents.

End PoolLayout.

(** * Proofs *)

(** ** Bytes and machine arithmetic *)

Lemma u8_range (b : byte) : 0 <= u8 b < 256.
Proof.
  unfold u8. pose proof (Byte.to_N_bounded b). lia.
Qed.

Lemma u8_byte_of (z : Z) : 0 <= z < 256 -> u8 (byte_of z) = z.
Proof.
  intros Hz. unfold u8, byte_of.
  destruct (Byte.of_N (Z.to_N z)) as [b|] eqn:E.
  - apply Byte.to_of_N in E. lia.
  - apply Byte.of_N_None_iff in E. lia.
Qed.

Lemma wrap_small (z : Z) : 0 <= z < size_t_modulus -> wrap z = z.
Proof. intros. unfold wrap. now apply Z.mod_small. Qed.

Lemma wrap_range (z : Z) : 0 <= wrap z < size_t_modulus.
Proof. unfold wrap, size_t_modulus. apply Z.mod_pos_bound. lia. Qed.

Lemma truthy_false (z : Z) : truthy z = false <-> z = 0.
Proof. unfold truthy. destruct (Z.eqb_spec z 0); simpl; split; congruence. Qed.

Lemma lor_shiftl_add (a b n : Z) :
  0 <= n -> 0 <= b < 2 ^ n -> Z.lor (Z.shiftl a n) b = a * 2 ^ n + b.
Proof.
  intros Hn Hb. rewrite Z.shiftl_mul_pow2 by lia.
  assert (Hdisj : Z.land (a * 2 ^ n) b = 0).
  { apply Z.bits_inj'. intros m Hm. rewrite Z.land_spec, Z.bits_0.
    destruct (Z.lt_ge_cases m n).
    - now rewrite Z.mul_pow2_bits_low by lia.
    - rewrite <- (Z.mod_small b (2 ^ n)) by lia.
      rewrite Z.mod_pow2_bits_high by lia. apply andb_false_r. }
  rewrite <- Z.lxor_lor by exact Hdisj.
  symmetry. now apply Z.add_nocarry_lxor.
Qed.

Lemma land_low (a n : Z) : 0 <= n -> Z.land a (Z.ones n) = a mod 2 ^ n.
Proof. intros. now apply Z.land_ones. Qed.

Lemma land_lor_zero (x y m : Z) :
  Z.land (Z.lor x y) m = 0 <-> Z.land x m = 0 /\ Z.land y m = 0.
Proof. rewrite Z.land_lor_distr_l. apply Z.lor_eq_0_iff. Qed.

Lemma shl32_byte (x n : Z) :
  0 <= x < 256 -> 0 <= n <= 18 -> shl32 x n = Z.shiftl x n.
Proof.
  intros Hx Hn. unfold shl32. rewrite Z.shiftl_mul_pow2 by lia.
  apply Z.mod_small.
  assert (0 < 2 ^ n <= 2 ^ 18).
  { split; [apply Z.pow_pos_nonneg; lia|apply Z.pow_le_mono_r; lia]. }
  change (2 ^ 18) with 262144 in *. change (2 ^ 32) with 4294967296. nia.
Qed.

Ltac small_shifts := rewrite !shl32_byte by (try (Z.div_mod_to_equations; lia); lia).

Lemma payload2 (b1 b2 : Z) :
  0xC0 <= b1 < 0xE0 -> 0x80 <= b2 < 0xC0 ->
  Z.lor (shl32 (Z.land b1 0x1F) 6) (Z.land b2 0x3F) = (b1 - 0xC0) * 64 + (b2 - 0x80).
Proof.
  intros H1 H2.
  change 0x1F with (Z.ones 5). change 0x3F with (Z.ones 6).
  rewrite !land_low by lia. small_shifts.
  rewrite lor_shiftl_add by (try apply Z.mod_pos_bound; lia).
  change (2 ^ 5) with 32. change (2 ^ 6) with 64.
  Z.div_mod_to_equations. lia.
Qed.

Lemma payload3 (b1 b2 b3 : Z) :
  0xE0 <= b1 < 0xF0 -> 0x80 <= b2 < 0xC0 -> 0x80 <= b3 < 0xC0 ->
  Z.lor (Z.lor (shl32 (Z.land b1 0xF) 12) (shl32 (Z.land b2 0x3F) 6)) (Z.land b3 0x3F)
  = (b1 - 0xE0) * 4096 + (b2 - 0x80) * 64 + (b3 - 0x80).
Proof.
  intros H1 H2 H3.
  change 0xF with (Z.ones 4). change 0x3F with (Z.ones 6).
  rewrite !land_low by lia. small_shifts.
  change (2 ^ 4) with 16. change (2 ^ 6) with 64.
  replace (Z.shiftl (b1 mod 16) 12) with (Z.shiftl (Z.shiftl (b1 mod 16) 6) 6)
    by (rewrite Z.shiftl_shiftl by lia; reflexivity).
  rewrite <- Z.shiftl_lor.
  rewrite (lor_shiftl_add (b1 mod 16) (b2 mod 64) 6) by (try apply Z.mod_pos_bound; lia).
  rewrite lor_shiftl_add by (try apply Z.mod_pos_bound; lia).
  change (2 ^ 6) with 64.
  Z.div_mod_to_equations. lia.
Qed.

Lemma payload4 (b1 b2 b3 b4 : Z) :
  0xF0 <= b1 < 0xF8 -> 0x80 <= b2 < 0xC0 -> 0x80 <= b3 < 0xC0 -> 0x80 <= b4 < 0xC0 ->
  Z.lor (Z.lor (Z.lor (shl32 (Z.land b1 0x7) 18) (shl32 (Z.land b2 0x3F) 12))
               (shl32 (Z.land b3 0x3F) 6))
        (Z.land b4 0x3F)
  = (b1 - 0xF0) * 262144 + (b2 - 0x80) * 4096 + (b3 - 0x80) * 64 + (b4 - 0x80).
Proof.
  intros H1 H2 H3 H4.
  change 0x7 with (Z.ones 3). change 0x3F with (Z.ones 6).
  rewrite !land_low by lia. small_shifts.
  change (2 ^ 3) with 8. change (2 ^ 6) with 64.
  replace (Z.shiftl (b1 mod 8) 18) with (Z.shiftl (Z.shiftl (Z.shiftl (b1 mod 8) 6) 6) 6)
    by (rewrite !Z.shiftl_shiftl by lia; reflexivity).
  replace (Z.shiftl (b2 mod 64) 12) with (Z.shiftl (Z.shiftl (b2 mod 64) 6) 6)
    by (rewrite !Z.shiftl_shiftl by lia; reflexivity).
  rewrite <- !Z.shiftl_lor.
  rewrite (lor_shiftl_add (b1 mod 8) (b2 mod 64) 6) by (try apply Z.mod_pos_bound; lia).
  rewrite (lor_shiftl_add _ (b3 mod 64) 6) by (try apply Z.mod_pos_bound; lia).
  rewrite lor_shiftl_add by (try apply Z.mod_pos_bound; lia).
  change (2 ^ 6) with 64.
  Z.div_mod_to_equations. lia.
Qed.

Module Utf8Facts.
Import Utf8 Utf8Spec.

Lemma continuation_test (b : Byte.byte) :
  truthy (Z.land (Z.lxor (u8 b) 0x80) 0xC0) = negb (continuation (u8 b)).
Proof. destruct b; reflexivity. Qed.

Lemma truthy_land_lor (x y m : Z) :
  truthy (Z.land (Z.lor x y) m) = truthy (Z.land x m) || truthy (Z.land y m).
Proof.
  unfold truthy.
  destruct (Z.eqb_spec (Z.land (Z.lor x y) m) 0) as [E|E].
  - apply land_lor_zero in E as [-> ->]. reflexivity.
  - destruct (Z.eqb_spec (Z.land x m) 0) as [Ex|Ex];
      destruct (Z.eqb_spec (Z.land y m) 0) as [Ey|Ey]; try reflexivity.
    exfalso. apply E, land_lor_zero. now split.
Qed.

Lemma continuation_range (b : Z) : continuation b = true <-> 0x80 <= b < 0xC0.
Proof. unfold continuation. rewrite andb_true_iff, Z.leb_le, Z.ltb_lt. tauto. Qed.

Lemma at_Some (range : byte_range) (i : Z) :
  0 <= i < size range -> exists b, at_ range i = Some (u8 b).
Proof.
  intros [H0 H1]. unfold at_, size in *. rewrite decide_True by lia.
  destruct (lookup_lt_is_Some_2 range (Z.to_nat i)) as [b Hb]; [lia|].
  exists b. now rewrite Hb.
Qed.

Lemma at_Some_inv (range : byte_range) (i b : Z) :
  at_ range i = Some b -> 0 <= i < size range /\ 0 <= b < 256.
Proof.
  unfold at_, size. case_decide; [|done].
  destruct (range !! Z.to_nat i) as [x|] eqn:E; [|done].
  intros [= <-]. apply lookup_lt_Some in E. pose proof (u8_range x). lia.
Qed.

(** *** One pass of the loop bodies *)

Ltac read_byte range i b H :=
  let Hr := fresh "Hr" in
  destruct (at_Some range i) as [b H]; [lia|];
  pose proof (u8_range b) as Hr.

Ltac stop_with e b :=
  right; exists e; split; [split; discriminate|]; split;
  [exists (u8 b); split; [assumption|]|reflexivity].

Lemma validate_quick_body_spec (range : byte_range) (i cc : Z) :
  addressable range -> 0 <= i < size range -> 0 <= cc <= i ->
  (exists len cp, sequence_at range i len cp /\
     validate_quick_body range i cc = Some (Next (i + len) (cc + 1)))
  \/ (exists e, structural e /\ failure_at range i e /\
        validate_quick_body range i cc = Some (Return (mk_result e (to_utf8 range i) cc))).
Proof.
  intros Ha Hi Hcc. unfold addressable in Ha.
  read_byte range i b1 Hb1.
  unfold validate_quick_body. rewrite Hb1. simpl.
  rewrite !wrap_small by lia.
  destruct (Z.ltb_spec (u8 b1) 0x80).
  { left. exists 1, (u8 b1). split; [now constructor|reflexivity]. }
  destruct (Z.ltb_spec (u8 b1) 0xC0).
  { stop_with unexpected_continuation_byte b1. lia. }
  destruct (Z.ltb_spec (u8 b1) 0xE0).
  { destruct (Z.leb_spec (size range) (i + 1)).
    { stop_with unexpected_end b1. unfold lead_length.
      destruct (Z.ltb_spec (u8 b1) 0xE0); lia. }
    read_byte range (i + 1) b2 Hb2. rewrite Hb2. simpl.
    rewrite continuation_test.
    destruct (continuation (u8 b2)) eqn:C2; simpl.
    - left. eexists 2, _. split; [|reflexivity].
      eapply sequence2; eauto; lia.
    - stop_with unexpected_non_continuation_byte b1.
      unfold lead_length. destruct (Z.ltb_spec (u8 b1) 0xE0); [|lia].
      repeat split; try lia. exists 1, (u8 b2). repeat split; try lia; assumption. }
  destruct (Z.ltb_spec (u8 b1) 0xF0).
  { destruct (Z.leb_spec (size range) (i + 2)).
    { stop_with unexpected_end b1. unfold lead_length.
      destruct (Z.ltb_spec (u8 b1) 0xE0); [lia|].
      destruct (Z.ltb_spec (u8 b1) 0xF0); lia. }
    read_byte range (i + 1) b2 Hb2. read_byte range (i + 2) b3 Hb3.
    rewrite Hb2. simpl. rewrite Hb3. simpl.
    rewrite truthy_land_lor, !continuation_test.
    destruct (continuation (u8 b2)) eqn:C2; simpl;
      [destruct (continuation (u8 b3)) eqn:C3; simpl|].
    - left. eexists 3, _. split; [|reflexivity].
      eapply sequence3; eauto; lia.
    - stop_with unexpected_non_continuation_byte b1.
      unfold lead_length. destruct (Z.ltb_spec (u8 b1) 0xE0); [lia|].
      destruct (Z.ltb_spec (u8 b1) 0xF0); [|lia].
      repeat split; try lia. exists 2, (u8 b3). repeat split; try lia; assumption.
    - stop_with unexpected_non_continuation_byte b1.
      unfold lead_length. destruct (Z.ltb_spec (u8 b1) 0xE0); [lia|].
      destruct (Z.ltb_spec (u8 b1) 0xF0); [|lia].
      repeat split; try lia. exists 1, (u8 b2). repeat split; try lia; assumption. }
  destruct (Z.ltb_spec (u8 b1) 0xF8).
  { destruct (Z.leb_spec (size range) (i + 3)).
    { stop_with unexpected_end b1. unfold lead_length.
      destruct (Z.ltb_spec (u8 b1) 0xE0); [lia|].
      destruct (Z.ltb_spec (u8 b1) 0xF0); lia. }
    read_byte range (i + 1) b2 Hb2. read_byte range (i + 2) b3 Hb3.
    read_byte range (i + 3) b4 Hb4.
    rewrite Hb2. simpl. rewrite Hb3. simpl. rewrite Hb4. simpl.
    rewrite !truthy_land_lor, !continuation_test, ?wrap_small by lia.
    assert (Hlen : lead_length (u8 b1) = 4).
    { unfold lead_length. destruct (Z.ltb_spec (u8 b1) 0xE0); [lia|].
      destruct (Z.ltb_spec (u8 b1) 0xF0); lia. }
    destruct (continuation (u8 b2)) eqn:C2; simpl;
      [destruct (continuation (u8 b3)) eqn:C3; simpl;
        [destruct (continuation (u8 b4)) eqn:C4; simpl|]|].
    - left. eexists 4, _. split; [|reflexivity].
      eapply sequence4; eauto; lia.
    - stop_with unexpected_non_continuation_byte b1. rewrite Hlen.
      repeat split; try lia. exists 3, (u8 b4). repeat split; try lia; assumption.
    - stop_with unexpected_non_continuation_byte b1. rewrite Hlen.
      repeat split; try lia. exists 2, (u8 b3). repeat split; try lia; assumption.
    - stop_with unexpected_non_continuation_byte b1. rewrite Hlen.
      repeat split; try lia. exists 1, (u8 b2). repeat split; try lia; assumption. }
  stop_with invalid_byte b1. lia.
Qed.

Ltac fail_with e b :=
  right; exists e; split; [exists (u8 b); split; [assumption|]|reflexivity].

Lemma lead_length_2 (b1 : Z) : b1 < 0xE0 -> lead_length b1 = 2.
Proof. unfold lead_length. destruct (Z.ltb_spec b1 0xE0); [reflexivity|lia]. Qed.

Lemma lead_length_3 (b1 : Z) : 0xE0 <= b1 < 0xF0 -> lead_length b1 = 3.
Proof.
  unfold lead_length. destruct (Z.ltb_spec b1 0xE0); [lia|].
  destruct (Z.ltb_spec b1 0xF0); [reflexivity|lia].
Qed.

Lemma lead_length_4 (b1 : Z) : 0xF0 <= b1 -> lead_length b1 = 4.
Proof.
  unfold lead_length. destruct (Z.ltb_spec b1 0xE0); [lia|].
  destruct (Z.ltb_spec b1 0xF0); [lia|reflexivity].
Qed.

Lemma validate_body_spec (range : byte_range) (i cc : Z) :
  addressable range -> 0 <= i < size range -> 0 <= cc <= i ->
  (exists len cp, sequence_at range i len cp /\ accepted len cp /\
     validate_body range i cc = Some (Next (i + len) (cc + 1)))
  \/ (exists e, failure_at range i e /\
        validate_body range i cc = Some (Return (mk_result e (to_utf8 range i) cc))).
Proof.
  intros Ha Hi Hcc. unfold addressable in Ha.
  read_byte range i b1 Hb1.
  unfold validate_body. rewrite Hb1. simpl.
  rewrite !wrap_small by lia.
  destruct (Z.ltb_spec (u8 b1) 0x80).
  { left. exists 1, (u8 b1). split; [now constructor|]. split; [|reflexivity].
    unfold accepted. lia. }
  destruct (Z.ltb_spec (u8 b1) 0xC0).
  { fail_with unexpected_continuation_byte b1. lia. }
  destruct (Z.ltb_spec (u8 b1) 0xE0).
  { destruct (Z.leb_spec (size range) (i + 1)).
    { fail_with unexpected_end b1. rewrite lead_length_2 by lia. lia. }
    read_byte range (i + 1) b2 Hb2. rewrite Hb2. simpl.
    rewrite continuation_test.
    destruct (continuation (u8 b2)) eqn:C2; simpl.
    - pose proof (proj1 (continuation_range _) C2).
      assert (Hseq : sequence_at range i 2 ((u8 b1 - 0xC0) * 64 + (u8 b2 - 0x80)))
        by (eapply sequence2; eauto; lia).
      rewrite payload2 by lia.
      destruct (Z.ltb_spec ((u8 b1 - 0xC0) * 64 + (u8 b2 - 0x80)) 0x7F).
      + fail_with overlong_enocoding b1. eexists 2, _. split; [exact Hseq|]. lia.
      + left. eexists 2, _. split; [exact Hseq|]. split; [|reflexivity].
        unfold accepted. lia.
    - fail_with unexpected_non_continuation_byte b1. rewrite lead_length_2 by lia.
      repeat split; try lia. exists 1, (u8 b2). repeat split; try lia; assumption. }
  destruct (Z.ltb_spec (u8 b1) 0xF0).
  { destruct (Z.leb_spec (size range) (i + 2)).
    { fail_with unexpected_end b1. rewrite lead_length_3 by lia. lia. }
    read_byte range (i + 1) b2 Hb2. read_byte range (i + 2) b3 Hb3.
    rewrite Hb2. simpl. rewrite Hb3. simpl.
    rewrite truthy_land_lor, !continuation_test.
    destruct (continuation (u8 b2)) eqn:C2; simpl;
      [destruct (continuation (u8 b3)) eqn:C3; simpl|].
    - pose proof (proj1 (continuation_range _) C2).
      pose proof (proj1 (continuation_range _) C3).
      assert (Hseq : sequence_at range i 3
                ((u8 b1 - 0xE0) * 4096 + (u8 b2 - 0x80) * 64 + (u8 b3 - 0x80)))
        by (eapply sequence3; eauto; lia).
      rewrite payload3 by lia.
      destruct (Z.leb_spec ((u8 b1 - 0xE0) * 4096 + (u8 b2 - 0x80) * 64 + (u8 b3 - 0x80)) 0x7FF).
      + fail_with overlong_enocoding b1. eexists 3, _. split; [exact Hseq|]. lia.
      + left. eexists 3, _. split; [exact Hseq|]. split; [|reflexivity].
        unfold accepted. lia.
    - fail_with unexpected_non_continuation_byte b1. rewrite lead_length_3 by lia.
      repeat split; try lia. exists 2, (u8 b3). repeat split; try lia; assumption.
    - fail_with unexpected_non_continuation_byte b1. rewrite lead_length_3 by lia.
      repeat split; try lia. exists 1, (u8 b2). repeat split; try lia; assumption. }
  destruct (Z.ltb_spec (u8 b1) 0xF8).
  { destruct (Z.leb_spec (size range) (i + 3)).
    { fail_with unexpected_end b1. rewrite lead_length_4 by lia. lia. }
    read_byte range (i + 1) b2 Hb2. read_byte range (i + 2) b3 Hb3.
    read_byte range (i + 3) b4 Hb4.
    rewrite Hb2. simpl. rewrite Hb3. simpl. rewrite Hb4. simpl.
    rewrite !truthy_land_lor, !continuation_test, ?wrap_small by lia.
    destruct (continuation (u8 b2)) eqn:C2; simpl;
      [destruct (continuation (u8 b3)) eqn:C3; simpl;
        [destruct (continuation (u8 b4)) eqn:C4; simpl|]|].
    - pose proof (proj1 (continuation_range _) C2).
      pose proof (proj1 (continuation_range _) C3).
      pose proof (proj1 (continuation_range _) C4).
      assert (Hseq : sequence_at range i 4
                ((u8 b1 - 0xF0) * 262144 + (u8 b2 - 0x80) * 4096 + (u8 b3 - 0x80) * 64
                 + (u8 b4 - 0x80)))
        by (eapply sequence4; eauto; lia).
      rewrite payload4 by lia.
      destruct (Z.ltb_spec 0x10FFFF
                  ((u8 b1 - 0xF0) * 262144 + (u8 b2 - 0x80) * 4096 + (u8 b3 - 0x80) * 64
                   + (u8 b4 - 0x80))).
      + fail_with invalid_codepoint b1. eexists. split; [exact Hseq|]. lia.
      + destruct (Z.leb_spec
                    ((u8 b1 - 0xF0) * 262144 + (u8 b2 - 0x80) * 4096 + (u8 b3 - 0x80) * 64
                     + (u8 b4 - 0x80)) 0xFFFF).
        * fail_with overlong_enocoding b1. eexists 4, _. split; [exact Hseq|]. lia.
        * left. eexists 4, _. split; [exact Hseq|]. split; [|reflexivity].
          unfold accepted. lia.
    - fail_with unexpected_non_continuation_byte b1. rewrite lead_length_4 by lia.
      repeat split; try lia. exists 3, (u8 b4). repeat split; try lia; assumption.
    - fail_with unexpected_non_continuation_byte b1. rewrite lead_length_4 by lia.
      repeat split; try lia. exists 2, (u8 b3). repeat split; try lia; assumption.
    - fail_with unexpected_non_continuation_byte b1. rewrite lead_length_4 by lia.
      repeat split; try lia. exists 1, (u8 b2). repeat split; try lia; assumption. }
  fail_with invalid_byte b1. lia.
Qed.

(** *** Sequences *)

Lemma sequence_at_bounds (range : byte_range) (i len cp : Z) :
  sequence_at range i len cp ->
  0 <= i /\ i + len <= size range /\ 1 <= len <= 4 /\ 0 <= cp.
Proof.
  destruct 1;
    repeat match goal with
    | H : at_ _ _ = Some _ |- _ => apply at_Some_inv in H
    | H : continuation _ = true |- _ => apply continuation_range in H
    end; lia.
Qed.

Lemma sequence_at_det (range : byte_range) (i len cp len' cp' : Z) :
  sequence_at range i len cp -> sequence_at range i len' cp' -> len = len' /\ cp = cp'.
Proof.
  destruct 1; destruct 1; simplify_eq; try lia; split; reflexivity.
Qed.




Lemma parses_length (P : Z -> Z -> Prop) (range : byte_range) (i j : Z) (cps : list Z) :
  parses P range i j cps -> i + Z.of_nat (length cps) <= j /\ j <= i + 4 * Z.of_nat (length cps).
Proof.
  induction 1 as [|i len cp j cps Hs _ _ IH]; simpl; [lia|].
  apply sequence_at_bounds in Hs. lia.
Qed.

Lemma parses_det (P : Z -> Z -> Prop) (range : byte_range) (i j : Z) (cps cps' : list Z) :
  parses P range i j cps -> parses P range i j cps' -> cps = cps'.
Proof.
  intros Hp. revert cps'.
  induction Hp as [i|i len cp j cps Hs HP Hp IH]; intros cps' Hp'.
  - inversion Hp' as [|? len' ? ? ? Hs' _ Hq]; subst; [reflexivity|].
    apply parses_length in Hq. apply sequence_at_bounds in Hs'. lia.
  - inversion Hp' as [|? len' cp' ? cps'' Hs' _ Hq]; subst.
    + apply parses_length in Hp. apply sequence_at_bounds in Hs. lia.
    + destruct (sequence_at_det _ _ _ _ _ _ Hs Hs') as [-> ->].
      f_equal. now apply IH.
Qed.

Lemma parses_weaken (P Q : Z -> Z -> Prop) (range : byte_range) (i j : Z) (cps : list Z) :
  (forall len cp, P len cp -> Q len cp) ->
  parses P range i j cps -> parses Q range i j cps.
Proof. intros HPQ. induction 1; econstructor; eauto. Qed.

Lemma parses_app (P : Z -> Z -> Prop) (range : byte_range) (i j k : Z) (cps cps' : list Z) :
  parses P range i j cps -> parses P range j k cps' -> parses P range i k (cps ++ cps').
Proof. induction 1; simpl; intros; [assumption|]. econstructor; eauto. Qed.

(** *** What the error kinds exclude *)

Lemma failure_excludes_sequence (range : byte_range) (i : Z) (e : validation_error)
    (len cp : Z) :
  structural e -> failure_at range i e -> sequence_at range i len cp -> False.
Proof.
  intros [He1 He2] (b1 & Hb1 & Hf) Hs.
  pose proof (sequence_at_bounds _ _ _ _ Hs) as Hb.
  destruct e; try done.
  - destruct Hs; simplify_eq; lia.
  - destruct Hs; simplify_eq; lia.
  - destruct Hf as (Hlead & _ & k & b & Hk & Hbk & Hc).
    destruct Hs; simplify_eq; try lia.
    + rewrite lead_length_2 in Hk by lia.
      assert (k = 1) as -> by lia. congruence.
    + rewrite lead_length_3 in Hk by lia.
      assert (k = 1 \/ k = 2) as [-> | ->] by lia; congruence.
    + rewrite lead_length_4 in Hk by lia.
      assert (k = 1 \/ k = 2 \/ k = 3) as [-> | [-> | ->]] by lia; congruence.
  - destruct Hf as [Hlead Hend].
    destruct Hs; simplify_eq; try lia.
    + rewrite lead_length_2 in Hend by lia. lia.
    + rewrite lead_length_3 in Hend by lia. lia.
    + rewrite lead_length_4 in Hend by lia. lia.
Qed.

Lemma failure_excludes_accepted (range : byte_range) (i : Z) (e : validation_error)
    (len cp : Z) :
  failure_at range i e -> sequence_at range i len cp -> accepted len cp -> False.
Proof.
  intros Hf Hs Hacc.
  destruct (decide (e = overlong_enocoding)) as [->|He1].
  { destruct Hf as (b1 & _ & len' & cp' & Hs' & Hover).
    destruct (sequence_at_det _ _ _ _ _ _ Hs Hs') as [<- <-].
    unfold accepted in Hacc. lia. }
  destruct (decide (e = invalid_codepoint)) as [->|He2].
  { destruct Hf as (b1 & _ & cp' & Hs' & Hbig).
    destruct (sequence_at_det _ _ _ _ _ _ Hs Hs') as [-> ->].
    unfold accepted in Hacc. lia. }
  eapply failure_excludes_sequence; eauto. now split.
Qed.

Lemma failure_at_det (range : byte_range) (i : Z) (e e' : validation_error) :
  failure_at range i e -> failure_at range i e' -> e = e'.
Proof.
  intros Hf Hf'.
  assert (Hsem : forall e1 e2,
             failure_at range i e1 -> failure_at range i e2 ->
             e1 = overlong_enocoding \/ e1 = invalid_codepoint -> e1 = e2).
  { intros e1 e2 H1 H2 Hsem1.
    assert (Hs : exists len cp, sequence_at range i len cp /\
                   (e1 = overlong_enocoding /\ cp <= 0xFFFF /\
                      (len = 4 \/ cp <= 0x7FF)
                    \/ e1 = invalid_codepoint /\ len = 4 /\ 0x10FFFF < cp)).
    { destruct Hsem1 as [-> | ->]; destruct H1 as (b1 & _ & H1).
      - destruct H1 as (len & cp & Hs & Hc). exists len, cp. split; [exact Hs|].
        left. split; [reflexivity|]. lia.
      - destruct H1 as (cp & Hs & Hc). exists 4, cp. split; [exact Hs|].
        right. split; [reflexivity|]. lia. }
    destruct Hs as (len & cp & Hs & Hc).
    destruct (decide (e2 = overlong_enocoding)) as [->|Hn1].
    { destruct H2 as (b1 & _ & len' & cp' & Hs' & Hc').
      destruct (sequence_at_det _ _ _ _ _ _ Hs Hs') as [<- <-].
      destruct Hc as [(-> & _)|(-> & Hlen & Hbig)]; [reflexivity|lia]. }
    destruct (decide (e2 = invalid_codepoint)) as [->|Hn2].
    { destruct H2 as (b1 & _ & cp' & Hs' & Hc').
      destruct (sequence_at_det _ _ _ _ _ _ Hs Hs') as [-> <-].
      destruct Hc as [(-> & Hsmall & _)|(-> & _)]; [lia|reflexivity]. }
    exfalso. eapply (failure_excludes_sequence range i e2); eauto. now split. }
  destruct (decide (e = overlong_enocoding \/ e = invalid_codepoint)) as [He|He];
    [now apply Hsem|].
  destruct (decide (e' = overlong_enocoding \/ e' = invalid_codepoint)) as [He'|He'];
    [symmetry; now apply Hsem|].
  destruct Hf as (b1 & Hb1 & Hf), Hf' as (b1' & Hb1' & Hf').
  assert (b1' = b1) as -> by congruence.
  destruct e, e'; try reflexivity; try tauto; exfalso;
    repeat match goal with
    | H : _ /\ _ |- _ => destruct H
    | H : exists _, _ |- _ => destruct H
    end; lia.
Qed.

(** *** The loop, for any body that meets the description of the passes *)

Section LoopFacts.
Variable body : byte_range -> Z -> Z -> option flow.
Variable P : Z -> Z -> Prop.
Variable Q : validation_error -> Prop.

Hypothesis body_spec : forall range i cc,
  addressable range -> 0 <= i < size range -> 0 <= cc <= i ->
  (exists len cp, sequence_at range i len cp /\ P len cp /\
     body range i cc = Some (Next (i + len) (cc + 1)))
  \/ (exists e, Q e /\ failure_at range i e /\
        body range i cc = Some (Return (mk_result e (to_utf8 range i) cc))).

Hypothesis exclusive : forall range i e len cp,
  Q e -> failure_at range i e -> sequence_at range i len cp -> P len cp -> False.

(** The loop returns, and what it returns describes the range. *)
Lemma loop_returns (fuel : nat) (range : byte_range) (i cc : Z) :
  addressable range -> 0 <= i <= size range -> 0 <= cc <= i ->
  size range - i <= Z.of_nat fuel ->
  exists r j cps,
    loop body fuel range i cc = Some r /\
    parses P range i j cps /\
    Utf8.range r = to_utf8 range j /\
    codepoint_count r = cc + Z.of_nat (length cps) /\
    (error r = success /\ j = size range
     \/ error r <> success /\ j < size range /\ Q (error r) /\ failure_at range j (error r)).
Proof.
  intros Ha. revert i cc.
  induction fuel as [|fuel IH]; intros i cc Hi Hcc Hfuel.
  - exists (mk_result success (to_utf8 range i) cc), i, [].
    simpl. rewrite decide_False by lia.
    split; [reflexivity|]. split; [constructor|]. split; [reflexivity|].
    split; [simpl; lia|]. left. split; [reflexivity|lia].
  - simpl. case_decide as Hlt.
    + destruct (body_spec range i cc Ha) as
        [(len & cp & Hs & HP & ->)|(e & HQ & Hf & ->)]; [lia|lia| |]; simpl.
      * pose proof (sequence_at_bounds _ _ _ _ Hs) as Hb.
        destruct (IH (i + len) (cc + 1)) as (r & j & cps & Hr & Hp & H1 & H2 & H3);
          [lia|lia|lia|].
        exists r, j, (cp :: cps). split; [exact Hr|].
        split; [econstructor; eauto|]. split; [exact H1|].
        split; [simpl length; lia|exact H3].
      * exists (mk_result e (to_utf8 range i) cc), i, [].
        split; [reflexivity|]. split; [constructor|]. split; [reflexivity|].
        split; [simpl; lia|]. right. simpl.
        split; [|split; [lia|split; assumption]].
        intros ->. destruct Hf as (? & _ & []).
    + exists (mk_result success (to_utf8 range i) cc), i, [].
      split; [reflexivity|]. split; [constructor|]. split; [reflexivity|].
      split; [simpl; lia|]. left. split; [reflexivity|lia].
Qed.

(** A range that parses to its end is a success. *)
Lemma loop_parses (fuel : nat) (range : byte_range) (i cc : Z) (cps : list Z) :
  addressable range -> 0 <= cc <= i ->
  size range - i <= Z.of_nat fuel ->
  parses P range i (size range) cps ->
  loop body fuel range i cc
  = Some (mk_result success (to_utf8 range (size range)) (cc + Z.of_nat (length cps))).
Proof.
  intros Ha. revert i cc cps.
  induction fuel as [|fuel IH]; intros i cc cps Hcc Hfuel Hp.
  - pose proof (parses_length _ _ _ _ _ Hp) as Hl.
    assert (i = size range) as -> by lia.
    destruct cps; [|simpl length in Hl; lia].
    simpl. rewrite decide_False by lia. do 2 f_equal. lia.
  - simpl. inversion Hp as [|? len cp ? cps' Hs HP Hq]; subst.
    + rewrite decide_False by lia. simpl. do 2 f_equal. lia.
    + pose proof (sequence_at_bounds _ _ _ _ Hs) as Hb.
      rewrite decide_True by lia.
      destruct (body_spec range i cc Ha) as
        [(len' & cp' & Hs' & HP' & ->)|(e & HQ & Hf & ->)]; [lia|lia| |]; simpl.
      * destruct (sequence_at_det _ _ _ _ _ _ Hs Hs') as [<- <-].
        rewrite (IH _ _ cps') by (try assumption; lia).
        do 2 f_equal. simpl length. lia.
      * exfalso. eauto using exclusive.
Qed.

(** A range that parses up to a failure stops there with its kind. *)
Lemma loop_stops (fuel : nat) (range : byte_range) (i cc j : Z) (cps : list Z)
    (e : validation_error) :
  addressable range -> 0 <= cc <= i ->
  size range - i <= Z.of_nat fuel ->
  parses P range i j cps -> Q e -> failure_at range j e ->
  loop body fuel range i cc
  = Some (mk_result e (to_utf8 range j) (cc + Z.of_nat (length cps))).
Proof.
  intros Ha. revert i cc cps.
  induction fuel as [|fuel IH]; intros i cc cps Hcc Hfuel Hp HQ Hf.
  - pose proof (parses_length _ _ _ _ _ Hp) as Hl.
    destruct Hf as (b1 & Hb1 & _). apply at_Some_inv in Hb1. lia.
  - pose proof (parses_length _ _ _ _ _ Hp) as Hl.
    assert (Hj : j < size range).
    { destruct Hf as (b1 & Hb1 & _). apply at_Some_inv in Hb1. lia. }
    simpl. rewrite decide_True by lia.
    destruct (body_spec range i cc Ha) as
      [(len' & cp' & Hs' & HP' & ->)|(e' & HQ' & Hf' & ->)]; [lia|lia| |]; simpl.
    + inversion Hp as [|? len cp ? cps' Hs HP0 Hq]; subst.
      * exfalso. eauto using exclusive.
      * destruct (sequence_at_det _ _ _ _ _ _ Hs Hs') as [<- <-].
        pose proof (sequence_at_bounds _ _ _ _ Hs) as Hb.
        rewrite (IH _ _ cps') by (try assumption; lia).
        do 2 f_equal. simpl length. lia.
    + inversion Hp as [|? len cp ? cps' Hs HP0 Hq]; subst.
      * rewrite (failure_at_det _ _ _ _ Hf Hf'). do 2 f_equal. simpl. lia.
      * exfalso. eauto using exclusive.
Qed.

End LoopFacts.

(** *** The two validators as instances *)

Lemma validate_loop_is_loop (fuel : nat) (range : byte_range) (i cc : Z) :
  validate_loop fuel range i cc = loop validate_body fuel range i cc.
Proof.
  revert i cc. induction fuel as [|fuel IH]; intros i cc; simpl; [reflexivity|].
  case_decide; [|reflexivity].
  destruct (validate_body range i cc) as [[i' cc'|r]|]; simpl; auto.
Qed.

Lemma validate_quick_loop_is_loop (fuel : nat) (range : byte_range) (i cc : Z) :
  validate_quick_loop fuel range i cc = loop validate_quick_body fuel range i cc.
Proof.
  revert i cc. induction fuel as [|fuel IH]; intros i cc; simpl; [reflexivity|].
  case_decide; [|reflexivity].
  destruct (validate_quick_body range i cc) as [[i' cc'|r]|]; simpl; auto.
Qed.

Lemma validate_body_meets (range : byte_range) (i cc : Z) :
  addressable range -> 0 <= i < size range -> 0 <= cc <= i ->
  (exists len cp, sequence_at range i len cp /\ accepted len cp /\
     validate_body range i cc = Some (Next (i + len) (cc + 1)))
  \/ (exists e, any_error e /\ failure_at range i e /\
        validate_body range i cc = Some (Return (mk_result e (to_utf8 range i) cc))).
Proof.
  intros Ha Hi Hcc.
  destruct (validate_body_spec range i cc Ha Hi Hcc) as [H|(e & Hf & Hr)];
    [left; exact H|right; exists e; repeat split; assumption].
Qed.

Lemma validate_quick_body_meets (range : byte_range) (i cc : Z) :
  addressable range -> 0 <= i < size range -> 0 <= cc <= i ->
  (exists len cp, sequence_at range i len cp /\ any_sequence len cp /\
     validate_quick_body range i cc = Some (Next (i + len) (cc + 1)))
  \/ (exists e, structural e /\ failure_at range i e /\
        validate_quick_body range i cc = Some (Return (mk_result e (to_utf8 range i) cc))).
Proof.
  intros Ha Hi Hcc.
  destruct (validate_quick_body_spec range i cc Ha Hi Hcc)
    as [(len & cp & Hs & Hr)|H]; [left; exists len, cp; repeat split; auto|right; exact H].
Qed.

Lemma accepted_exclusive (range : byte_range) (i : Z) (e : validation_error) (len cp : Z) :
  any_error e -> failure_at range i e -> sequence_at range i len cp -> accepted len cp ->
  False.
Proof. intros _. apply failure_excludes_accepted. Qed.

Lemma structural_exclusive (range : byte_range) (i : Z) (e : validation_error)
    (len cp : Z) :
  structural e -> failure_at range i e -> sequence_at range i len cp ->
  any_sequence len cp -> False.
Proof. intros Hst Hf Hs _. eapply failure_excludes_sequence; eauto. Qed.

Lemma validate_returns (range : byte_range) :
  addressable range ->
  exists r j cps,
    validate range = Some r /\
    parses accepted range 0 j cps /\
    Utf8.range r = to_utf8 range j /\
    codepoint_count r = Z.of_nat (length cps) /\
    (error r = success /\ j = size range
     \/ error r <> success /\ j < size range /\ failure_at range j (error r)).
Proof.
  intros Ha.
  destruct (loop_returns validate_body accepted any_error validate_body_meets
              (length range) range 0 0 Ha) as (r & j & cps & Hr & Hp & H1 & H2 & H3).
  - unfold size. lia.
  - lia.
  - unfold size. lia.
  - exists r, j, cps. unfold validate. rewrite validate_loop_is_loop.
    split; [exact Hr|]. split; [exact Hp|]. split; [exact H1|].
    split; [lia|]. tauto.
Qed.

Lemma validate_quick_returns (range : byte_range) :
  addressable range ->
  exists r j cps,
    validate_quick range = Some r /\
    parses any_sequence range 0 j cps /\
    Utf8.range r = to_utf8 range j /\
    codepoint_count r = Z.of_nat (length cps) /\
    (error r = success /\ j = size range
     \/ error r <> success /\ j < size range /\ structural (error r)
        /\ failure_at range j (error r)).
Proof.
  intros Ha.
  destruct (loop_returns validate_quick_body any_sequence structural
              validate_quick_body_meets
              (length range) range 0 0 Ha) as (r & j & cps & Hr & Hp & H1 & H2 & H3).
  - unfold size. lia.
  - lia.
  - unfold size. lia.
  - exists r, j, cps. unfold validate_quick. rewrite validate_quick_loop_is_loop.
    split; [exact Hr|]. split; [exact Hp|]. split; [exact H1|].
    split; [lia|]. tauto.
Qed.

Lemma validate_parses (range : byte_range) (cps : list Z) :
  addressable range -> parses accepted range 0 (size range) cps ->
  validate range
  = Some (mk_result success (mk_utf8_range 0 (size range)) (Z.of_nat (length cps))).
Proof.
  intros Ha Hp. unfold validate. rewrite validate_loop_is_loop.
  rewrite (loop_parses validate_body accepted any_error validate_body_meets
             accepted_exclusive) with (cps := cps);
    [reflexivity|exact Ha|lia|unfold size; lia|exact Hp].
Qed.

Lemma validate_quick_parses (range : byte_range) (cps : list Z) :
  addressable range -> parses any_sequence range 0 (size range) cps ->
  validate_quick range
  = Some (mk_result success (mk_utf8_range 0 (size range)) (Z.of_nat (length cps))).
Proof.
  intros Ha Hp. unfold validate_quick. rewrite validate_quick_loop_is_loop.
  rewrite (loop_parses validate_quick_body any_sequence structural validate_quick_body_meets
             structural_exclusive) with (cps := cps);
    [reflexivity|exact Ha|lia|unfold size; lia|exact Hp].
Qed.

(** From a valid prefix, [validate] stops at the first failure with its
    kind. *)
Lemma validate_stops (range : byte_range) (j : Z) (cps : list Z) (e : validation_error) :
  addressable range -> parses accepted range 0 j cps -> failure_at range j e ->
  validate range = Some (mk_result e (mk_utf8_range 0 j) (Z.of_nat (length cps))).
Proof.
  intros Ha Hp Hf. unfold validate. rewrite validate_loop_is_loop.
  rewrite (loop_stops validate_body accepted any_error validate_body_meets
             accepted_exclusive) with (j := j) (cps := cps) (e := e);
    [reflexivity|exact Ha|lia|unfold size; lia|exact Hp|exact I|exact Hf].
Qed.

Lemma validate_quick_stops (range : byte_range) (j : Z) (cps : list Z)
    (e : validation_error) :
  addressable range -> parses any_sequence range 0 j cps ->
  structural e -> failure_at range j e ->
  validate_quick range = Some (mk_result e (mk_utf8_range 0 j) (Z.of_nat (length cps))).
Proof.
  intros Ha Hp Hst Hf. unfold validate_quick. rewrite validate_quick_loop_is_loop.
  rewrite (loop_stops validate_quick_body any_sequence structural validate_quick_body_meets
             structural_exclusive) with (j := j) (cps := cps) (e := e);
    [reflexivity|exact Ha|lia|unfold size; lia|exact Hp|exact Hst|exact Hf].
Qed.

(** Every overlong sequence but the two-byte form of 0x7F is reported. *)
Lemma validate_rejects_overlong (range : byte_range) (j len cp : Z) (cps : list Z) :
  addressable range -> parses accepted range 0 j cps ->
  sequence_at range j len cp ->
  (len = 2 /\ cp < 0x7F \/ len = 3 /\ cp <= 0x7FF \/ len = 4 /\ cp <= 0xFFFF) ->
  validate range
  = Some (mk_result overlong_enocoding (mk_utf8_range 0 j) (Z.of_nat (length cps))).
Proof.
  intros Ha Hp Hs Hover. apply validate_stops; [exact Ha|exact Hp|].
  pose proof Hs as Hs'. destruct Hs' as [b1 Hb1 ?|b1 ? Hb1 _ ? _|b1 ? ? Hb1 _ _ ? _ _|
                                         b1 ? ? ? Hb1 _ _ _ ? _ _ _];
    exists b1; (split; [exact Hb1|]); eauto.
Qed.

(** *** Encoded code points are accepted sequences *)

Lemma at_app (pre l : byte_range) (k : Z) :
  0 <= k -> at_ (pre ++ l) (size pre + k) = at_ l k.
Proof.
  intros Hk. unfold at_, size. rewrite !decide_True by lia.
  rewrite lookup_app_r by lia. do 2 f_equal. lia.
Qed.

Lemma at_app_0 (pre l : byte_range) : at_ (pre ++ l) (size pre) = at_ l 0.
Proof. rewrite <- (at_app pre l 0) by lia. f_equal. lia. Qed.

Lemma sequence_at_eq (range : byte_range) (i len cp cp' : Z) :
  sequence_at range i len cp -> cp = cp' -> sequence_at range i len cp'.
Proof. now intros ? <-. Qed.

Lemma encode_length (cp : Z) : 1 <= Z.of_nat (length (Unicode.encode cp)) <= 4.
Proof. unfold Unicode.encode. repeat case_match; simpl; lia. Qed.

Ltac divlia := Z.div_mod_to_equations; lia.

Lemma encode_sequence (pre rest : byte_range) (cp : Z) :
  Unicode.code_point cp ->
  sequence_at (pre ++ Unicode.encode cp ++ rest) (size pre)
    (Z.of_nat (length (Unicode.encode cp))) cp
  /\ accepted (Z.of_nat (length (Unicode.encode cp))) cp.
Proof.
  unfold Unicode.code_point, Unicode.encode, accepted. intros Hcp.
  destruct (Z.ltb_spec cp 0x80); [|destruct (Z.ltb_spec cp 0x800);
    [|destruct (Z.ltb_spec cp 0x10000)]]; simpl length.
  - split; [|lia].
    eapply sequence_at_eq; [eapply sequence1|].
    + rewrite at_app_0. reflexivity.
    + rewrite u8_byte_of; divlia.
    + rewrite u8_byte_of; divlia.
  - split; [|lia].
    eapply sequence_at_eq; [eapply sequence2|].
    + rewrite at_app_0. reflexivity.
    + rewrite at_app by lia. reflexivity.
    + rewrite u8_byte_of; divlia.
    + apply continuation_range. rewrite u8_byte_of; divlia.
    + rewrite !u8_byte_of; divlia.
  - split; [|lia].
    eapply sequence_at_eq; [eapply sequence3|].
    + rewrite at_app_0. reflexivity.
    + rewrite at_app by lia. reflexivity.
    + rewrite at_app by lia. reflexivity.
    + rewrite u8_byte_of; divlia.
    + apply continuation_range. rewrite u8_byte_of; divlia.
    + apply continuation_range. rewrite u8_byte_of; divlia.
    + rewrite !u8_byte_of; divlia.
  - split; [|lia].
    eapply sequence_at_eq; [eapply sequence4|].
    + rewrite at_app_0. reflexivity.
    + rewrite at_app by lia. reflexivity.
    + rewrite at_app by lia. reflexivity.
    + rewrite at_app by lia. reflexivity.
    + rewrite u8_byte_of; divlia.
    + apply continuation_range. rewrite u8_byte_of; divlia.
    + apply continuation_range. rewrite u8_byte_of; divlia.
    + apply continuation_range. rewrite u8_byte_of; divlia.
    + rewrite !u8_byte_of; divlia.
Qed.

Lemma encode_all_parses (pre : byte_range) (cps : list Z) :
  Forall Unicode.code_point cps ->
  parses accepted (pre ++ Unicode.encode_all cps) (size pre)
    (size (pre ++ Unicode.encode_all cps)) cps.
Proof.
  intros Hcps. revert pre.
  induction Hcps as [|cp cps Hcp _ IH]; intros pre.
  - unfold Unicode.encode_all. simpl. rewrite app_nil_r. constructor.
  - change (Unicode.encode_all (cp :: cps))
      with (Unicode.encode cp ++ Unicode.encode_all cps).
    destruct (encode_sequence pre (Unicode.encode_all cps) cp Hcp) as [Hs Hacc].
    econstructor; [exact Hs|exact Hacc|].
    specialize (IH (pre ++ Unicode.encode cp)).
    rewrite <- !app_assoc in IH.
    replace (size pre + Z.of_nat (length (Unicode.encode cp)))
      with (size (pre ++ Unicode.encode cp)); [exact IH|].
    unfold size. rewrite length_app. lia.
Qed.

(** *** [validate_quick] against [validate], pass by pass *)

Ltac split_body :=
  repeat match goal with
  | |- context [at_ ?r ?j ≫= _] => destruct (at_ r j); simpl
  | |- context [if ?b then _ else _] => destruct b eqn:?; simpl
  end.

Lemma validate_body_quick (range : byte_range) (i cc : Z) (fl : flow) :
  validate_body range i cc = Some fl ->
  match fl with
  | Next _ _ => validate_quick_body range i cc = Some fl
  | Return r => structural (error r) -> validate_quick_body range i cc = Some fl
  end.
Proof.
  unfold validate_body, validate_quick_body, structural.
  split_body; intros [= <-]; simpl; try reflexivity; intros [? ?]; congruence.
Qed.

Lemma validate_quick_body_structural (range : byte_range) (i cc : Z) (r : validation_result) :
  validate_quick_body range i cc = Some (Return r) -> structural (error r).
Proof.
  unfold validate_quick_body, structural.
  split_body; intros [= <-]; simpl; split; discriminate.
Qed.

Lemma validate_loop_quick (fuel : nat) (range : byte_range) (i cc : Z) (r : validation_result) :
  validate_loop fuel range i cc = Some r -> structural (error r) ->
  validate_quick_loop fuel range i cc = Some r.
Proof.
  revert i cc. induction fuel as [|fuel IH]; intros i cc; simpl.
  - case_decide; [discriminate|]. auto.
  - case_decide; [|auto].
    destruct (validate_body range i cc) as [fl|] eqn:Hb; simpl; [|discriminate].
    apply validate_body_quick in Hb.
    destruct fl as [i' cc'|r']; simpl.
    + rewrite Hb. simpl. apply IH.
    + intros [= ->] Hs. rewrite (Hb Hs). reflexivity.
Qed.

Lemma validate_quick_loop_structural (fuel : nat) (range : byte_range) (i cc : Z)
    (r : validation_result) :
  validate_quick_loop fuel range i cc = Some r -> structural (error r).
Proof.
  revert i cc. induction fuel as [|fuel IH]; intros i cc; simpl.
  - case_decide; [discriminate|]. intros [= <-]. split; discriminate.
  - case_decide; [|intros [= <-]; split; discriminate].
    destruct (validate_quick_body range i cc) as [[i' cc'|r']|] eqn:Hb; simpl;
      [apply IH| |discriminate].
    intros [= ->]. eapply validate_quick_body_structural; eauto.
Qed.

(** *** The decoder on sequences *)

Section Decoder.
Variable NDEBUG : bool.
Variable mem : byte_range.

Lemma sequence_deref (i len cp : Z) :
  sequence_at mem i len cp -> deref mem (mk_iterator i) = Some cp.
Proof.
  intros Hs. unfold deref, Utf8.byte. simpl. rewrite Z.add_0_r.
  destruct Hs;
    repeat match goal with
    | H : at_ _ _ = Some _ |- _ => rewrite H; simpl; pose proof (at_Some_inv _ _ _ H); clear H
    | H : continuation _ = true |- _ => apply continuation_range in H
    end.
  - destruct (Z.ltb_spec b1 0x80); [reflexivity|lia].
  - destruct (Z.ltb_spec b1 0x80); [lia|].
    destruct (Z.ltb_spec b1 0xE0); [|lia].
    rewrite payload2 by lia. reflexivity.
  - destruct (Z.ltb_spec b1 0x80); [lia|].
    destruct (Z.ltb_spec b1 0xE0); [lia|].
    destruct (Z.ltb_spec b1 0xF0); [|lia].
    rewrite payload3 by lia. reflexivity.
  - destruct (Z.ltb_spec b1 0x80); [lia|].
    destruct (Z.ltb_spec b1 0xE0); [lia|].
    destruct (Z.ltb_spec b1 0xF0); [lia|].
    rewrite payload4 by lia. reflexivity.
Qed.

Lemma sequence_incr (i len cp : Z) :
  sequence_at mem i len cp ->
  incr NDEBUG mem (mk_iterator i) = Some (mk_iterator (i + len)).
Proof.
  intros Hs. unfold incr, Utf8.byte. simpl. rewrite Z.add_0_r.
  destruct Hs as [b1 H1 ?|b1 ? H1 _ ? _|b1 ? ? H1 _ _ ? _ _|b1 ? ? ? H1 _ _ _ ? _ _ _];
    rewrite H1; simpl.
  - destruct (Z.leb_spec b1 0x7F); [reflexivity|lia].
  - destruct (Z.leb_spec b1 0x7F); [lia|].
    destruct (Z.leb_spec b1 0xBF); [lia|].
    destruct (Z.leb_spec b1 0xDF); [reflexivity|lia].
  - destruct (Z.leb_spec b1 0x7F); [lia|].
    destruct (Z.leb_spec b1 0xBF); [lia|].
    destruct (Z.leb_spec b1 0xDF); [lia|].
    destruct (Z.leb_spec b1 0xEF); [reflexivity|lia].
  - destruct (Z.leb_spec b1 0x7F); [lia|].
    destruct (Z.leb_spec b1 0xBF); [lia|].
    destruct (Z.leb_spec b1 0xDF); [lia|].
    destruct (Z.leb_spec b1 0xEF); [lia|].
    destruct (Z.leb_spec b1 0xF7); [reflexivity|lia].
Qed.

Lemma parses_codepoints (P : Z -> Z -> Prop) (i j : Z) (cps : list Z) (fuel : nat) :
  parses P mem i j cps -> (length cps <= fuel)%nat ->
  codepoints_from NDEBUG mem fuel (mk_iterator i) (mk_iterator j) = Some cps.
Proof.
  intros Hp. revert fuel.
  induction Hp as [i|i len cp j cps Hs HP Hp IH]; intros fuel Hfuel.
  - destruct fuel; simpl; now rewrite decide_True.
  - pose proof (parses_length _ _ _ _ _ Hp).
    pose proof (sequence_at_bounds _ _ _ _ Hs).
    destruct fuel as [|fuel]; [simpl in Hfuel; lia|].
    simpl. rewrite decide_False by (intros [=]; lia).
    rewrite (sequence_deref _ _ _ Hs), (sequence_incr _ _ _ Hs). simpl.
    rewrite IH by (simpl in Hfuel; lia). reflexivity.
Qed.

(** After [k] of the [length cps] steps the iterator is at the start of
    the rest, before the end as long as code points remain. *)
Lemma parses_advance (P : Z -> Z -> Prop) (i j : Z) (cps : list Z) (k : nat) :
  parses P mem i j cps -> (k <= length cps)%nat ->
  exists m, advance NDEBUG mem k (mk_iterator i) = Some (mk_iterator m) /\
            parses P mem m j (drop k cps).
Proof.
  intros Hp. revert k.
  induction Hp as [i|i len cp j cps Hs HP Hp IH]; intros k Hk.
  - destruct k; [|simpl in Hk; lia]. exists i. split; [reflexivity|constructor].
  - destruct k as [|k].
    + exists i. split; [reflexivity|]. econstructor; eauto.
    + simpl. rewrite (sequence_incr _ _ _ Hs). simpl.
      apply IH. simpl in Hk. lia.
Qed.

End Decoder.


Lemma accepted_code_point (range : byte_range) (i len cp : Z) :
  sequence_at range i len cp -> accepted len cp -> Unicode.code_point cp.
Proof.
  unfold accepted, Unicode.code_point. intros Hs Hacc.
  destruct Hs;
    repeat match goal with
    | H : at_ _ _ = Some _ |- _ => apply at_Some_inv in H
    | H : continuation _ = true |- _ => apply continuation_range in H
    end; lia.
Qed.

Lemma parses_code_points (range : byte_range) (i j : Z) (cps : list Z) :
  parses accepted range i j cps -> Forall Unicode.code_point cps.
Proof.
  induction 1; constructor; eauto using accepted_code_point.
Qed.

End Utf8Facts.

(** * The properties of the specification *)

Module Utf8Properties.
Import Utf8 Utf8Spec Utf8Facts.

(** C1. For every well-formed UTF-8 byte range, that is the concatenation of
    the shortest-form encodings of Unicode scalar values, [validate] returns
    [success], with [codepoint_count] the number of scalar values encoded and
    the prefix range spanning the whole input. *)
Theorem validate_well_formed (cps : list Z) :
  Forall Unicode.scalar_value cps ->
  addressable (Unicode.encode_all cps) ->
  validate (Unicode.encode_all cps)
  = Some {| error := success;
            range := {| start_ := 0; byte_count_ := size (Unicode.encode_all cps) |};
            codepoint_count := Z.of_nat (length cps) |}.
Proof.
  intros Hcps Ha.
  assert (Hcp : Forall Unicode.code_point cps).
  { eapply List.Forall_impl; [|exact Hcps]. now intros cp [? _]. }
  pose proof (encode_all_parses [] cps Hcp) as Hp. simpl in Hp.
  now apply validate_parses.
Qed.

Lemma validate_well_formed_witness :
  Forall Unicode.scalar_value [0x41; 0xE9; 0x20AC; 0x1F600]
  /\ addressable (Unicode.encode_all [0x41; 0xE9; 0x20AC; 0x1F600])
  /\ validate (Unicode.encode_all [0x41; 0xE9; 0x20AC; 0x1F600])
     = Some {| error := success;
               range := {| start_ := 0; byte_count_ := 10 |};
               codepoint_count := 4 |}.
Proof.
  assert (Hs : Forall Unicode.scalar_value [0x41; 0xE9; 0x20AC; 0x1F600]).
  { repeat constructor; unfold Unicode.code_point, Unicode.surrogate; lia. }
  assert (Ha : addressable (Unicode.encode_all [0x41; 0xE9; 0x20AC; 0x1F600])).
  { unfold addressable. vm_compute. discriminate. }
  split; [exact Hs|]. split; [exact Ha|].
  exact (validate_well_formed _ Hs Ha).
Defined.

(** C2. The specification asks that a structurally well-formed sequence that
    is overlong (two bytes for a value up to 0x7F, three for one up to 0x7FF,
    four for one up to 0xFFFF) make [validate] fail with [overlong_enocoding]
    at the offset of the sequence. The two-byte test of line 31 is
    [codepoint < 0x7F], so the two-byte form [C1 BF] of 0x7F is let through:
    on it [validate] returns [success]. *)
Theorem validate_accepts_two_byte_7F :
  sequence_at [xc1; xbf] 0 2 0x7F /\
  validate [xc1; xbf]
  = Some {| error := success;
            range := {| start_ := 0; byte_count_ := 2 |};
            codepoint_count := 1 |}.
Proof.
  split; [|reflexivity].
  eapply sequence_at_eq; [eapply (sequence2 _ _ 0xC1 0xBF)|]; try reflexivity. lia.
Qed.



(** C4. [validate_quick] never reports [overlong_enocoding] or
    [invalid_codepoint], and whenever the error kind of [validate] is neither
    of the two ([success] included) [validate_quick] returns the same result:
    same kind, same prefix range, same [codepoint_count]. On the bytes
    [C0 80], [validate] reports [overlong_enocoding] at offset 0 with count
    0 and [validate_quick] reports [success] with count 1. *)
Theorem validate_quick_agrees (range : byte_range) :
  addressable range ->
  (exists r rq,
     validate range = Some r /\ validate_quick range = Some rq /\
     error rq <> overlong_enocoding /\ error rq <> invalid_codepoint /\
     (error r <> overlong_enocoding -> error r <> invalid_codepoint -> rq = r))
  /\ validate [xc0; x80]
     = Some {| error := overlong_enocoding;
               range := {| start_ := 0; byte_count_ := 0 |};
               codepoint_count := 0 |}
  /\ validate_quick [xc0; x80]
     = Some {| error := success;
               range := {| start_ := 0; byte_count_ := 2 |};
               codepoint_count := 1 |}.
Proof.
  intros Ha. split; [|split; reflexivity].
  destruct (validate_returns range Ha) as (r & _ & _ & Hr & _).
  destruct (validate_quick_returns range Ha) as (rq & _ & _ & Hq & _).
  exists r, rq. split; [exact Hr|]. split; [exact Hq|].
  destruct (validate_quick_loop_structural _ _ _ _ _ Hq) as [Hq1 Hq2].
  split; [exact Hq1|]. split; [exact Hq2|].
  intros H1 H2.
  pose proof (validate_loop_quick _ _ _ _ _ Hr (conj H1 H2)) as Hq'.
  unfold validate_quick in Hq. congruence.
Qed.

Lemma validate_quick_agrees_witness :
  addressable [xe2; x82; xac; x41; xf4; x90] /\
  ((exists r rq,
     validate [xe2; x82; xac; x41; xf4; x90] = Some r /\
     validate_quick [xe2; x82; xac; x41; xf4; x90] = Some rq /\
     error rq <> overlong_enocoding /\ error rq <> invalid_codepoint /\
     (error r <> overlong_enocoding -> error r <> invalid_codepoint -> rq = r))
  /\ validate [xc0; x80]
     = Some {| error := overlong_enocoding;
               range := {| start_ := 0; byte_count_ := 0 |};
               codepoint_count := 0 |}
  /\ validate_quick [xc0; x80]
     = Some {| error := success;
               range := {| start_ := 0; byte_count_ := 2 |};
               codepoint_count := 1 |}).
Proof.
  assert (Ha : addressable [xe2; x82; xac; x41; xf4; x90]).
  { unfold addressable. vm_compute. discriminate. }
  split; [exact Ha|]. exact (validate_quick_agrees _ Ha).
Defined.

(** C5, as stated: on every range [validate] accepts, the decoder produces
    the Unicode scalar values the input encodes. It fails on [ED A0 80]:
    [validate] makes no surrogate test, accepts the three bytes with count 1,
    and the decoder produces the surrogate 0xD800, which is no scalar value. *)
Lemma surrogate_is_validated_and_decoded :
  validate [xed; xa0; x80] = Some (mk_result success (mk_utf8_range 0 3) 1) /\
  codepoints true [xed; xa0; x80] (mk_utf8_range 0 3) = Some [0xD800] /\
  ~ Unicode.scalar_value 0xD800 /\
  ~ decodes_scalar_values [xed; xa0; x80].
Proof.
  assert (Hns : ~ Unicode.scalar_value 0xD800).
  { intros [_ Hns]. apply Hns. unfold Unicode.surrogate. lia. }
  split; [reflexivity|]. split; [reflexivity|]. split; [exact Hns|].
  intros H.
  destruct (H true _ eq_refl eq_refl) as (cps & Hsv & _ & Hc & _).
  vm_compute in Hc. injection Hc as <-.
  inversion Hsv as [|? ? Hsv1 _]. exact (Hns Hsv1).
Qed.

(** C5, amended. On every range on which [validate] returns [success] with
    count [n], the range-[for] over the returned range reads and advances
    exactly [n] times: after [n] steps, and after no fewer, the iterator
    equals the end of the range, which is the end of the input. The [n] code
    points produced are the payload values of the sequences of the input, in
    order; they lie in [0, 0x10FFFF], surrogates not excluded, and whenever
    the input is the concatenation of the shortest-form encodings of code
    points, they are exactly those code points. *)
Theorem validated_decodes (NDEBUG : bool) (range : byte_range) (r : validation_result) :
  addressable range ->
  validate range = Some r -> error r = success ->
  exists cps,
    codepoints NDEBUG range (Utf8.range r) = Some cps /\
    Z.of_nat (length cps) = codepoint_count r /\
    end_ (Utf8.range r) = mk_iterator (size range) /\
    advance NDEBUG range (length cps) (begin (Utf8.range r)) = Some (end_ (Utf8.range r)) /\
    (forall k, (k < length cps)%nat ->
       exists m, advance NDEBUG range k (begin (Utf8.range r)) = Some (mk_iterator m) /\
                 m < size range) /\
    parses any_sequence range 0 (size range) cps /\
    Forall Unicode.code_point cps /\
    (forall cps', Forall Unicode.code_point cps' -> range = Unicode.encode_all cps' ->
       cps = cps').
Proof.
  intros Ha Hv Hok.
  destruct (validate_returns range Ha) as (r' & j & cps & Hr & Hp & H1 & H2 & H3).
  assert (r' = r) as -> by congruence.
  destruct H3 as [[_ ->]|[Hne _]]; [|contradiction].
  pose proof (parses_length _ _ _ _ _ Hp) as Hl.
  exists cps. rewrite H1, H2. unfold codepoints, begin, end_. simpl.
  split; [eapply parses_codepoints; [exact Hp|lia]|].
  split; [reflexivity|]. split; [reflexivity|]. split.
  { destruct (parses_advance NDEBUG range accepted 0 _ cps (length cps) Hp)
      as (m & Hm & Hrest); [lia|].
    rewrite drop_all in Hrest. inversion Hrest; subst. exact Hm. }
  split.
  { intros k Hk.
    destruct (parses_advance NDEBUG range accepted 0 _ cps k Hp) as (m & Hm & Hrest); [lia|].
    exists m. split; [exact Hm|].
    apply parses_length in Hrest. rewrite length_drop in Hrest. lia. }
  split; [eapply parses_weaken; [|exact Hp]; intros; exact I|].
  split; [eapply parses_code_points; exact Hp|].
  intros cps' Hcps' Henc.
  pose proof (encode_all_parses [] cps' Hcps') as Hp'. simpl in Hp'.
  rewrite <- Henc in Hp'. eapply parses_det; eauto.
Qed.

Lemma validated_decodes_witness :
  addressable [xed; xa0; x80; x24; xc2; xa2] /\
  validate [xed; xa0; x80; x24; xc2; xa2]
  = Some (mk_result success (mk_utf8_range 0 6) 3) /\
  exists cps,
    codepoints false [xed; xa0; x80; x24; xc2; xa2] (mk_utf8_range 0 6) = Some cps /\
    Z.of_nat (length cps) = 3.
Proof.
  assert (Ha : addressable [xed; xa0; x80; x24; xc2; xa2]).
  { unfold addressable. vm_compute. discriminate. }
  split; [exact Ha|]. split; [reflexivity|].
  destruct (validated_decodes false [xed; xa0; x80; x24; xc2; xa2]
              (mk_result success (mk_utf8_range 0 6) 3) Ha eq_refl eq_refl)
    as (cps & Hc & Hn & _).
  exists cps. split; [exact Hc|exact Hn].
Defined.

End Utf8Properties.

Module PoolFacts.
Import StringPool PoolSpec.

Lemma wrap_below (z : Z) : 0 <= z < 18446744073709551616 -> wrap z = z.
Proof. intros. now apply wrap_small. Qed.

Section Facts.
Variable caller_memory : Z -> Byte.byte.

Local Abbreviation load := (load caller_memory).
Local Abbreviation load_bytes := (load_bytes caller_memory).
Local Abbreviation view_bytes := (view_bytes caller_memory).
Local Abbreviation key_eqb := (key_eqb caller_memory).
Local Abbreviation find := (find caller_memory).
Local Abbreviation insert := (insert caller_memory).
Local Abbreviation push_back := (push_back caller_memory).
Local Abbreviation get_string_key := (get_string_key caller_memory).
Local Abbreviation get_string_view := (get_string_view caller_memory).
Local Abbreviation get_string_literal := (get_string_literal caller_memory).
Local Abbreviation get_string := (get_string caller_memory).
Local Abbreviation key_ok := (key_ok caller_memory).
Local Abbreviation literal_ok := (literal_ok caller_memory).
Local Abbreviation pool_inv := (pool_inv caller_memory).
Local Abbreviation call_ok := (call_ok caller_memory).
Local Abbreviation call_bytes := (call_bytes caller_memory).
Local Abbreviation call_key := (call_key caller_memory).
Local Abbreviation runs := (runs caller_memory).
Local Abbreviation preserved := (preserved caller_memory).
Local Abbreviation resolve := (resolve caller_memory).

(** *** Pages by number *)

Lemma page_at_old (page : fixed_page) (pages : chain) (n : nat) :
  (n < length pages)%nat -> page_at (page :: pages) n = page_at pages n.
Proof.
  intros. unfold page_at. rewrite reverse_cons.
  apply lookup_app_l. now rewrite length_reverse.
Qed.

Lemma page_at_new (page : fixed_page) (pages : chain) :
  page_at (page :: pages) (length pages) = Some page.
Proof.
  unfold page_at. rewrite reverse_cons.
  rewrite lookup_app_r by (rewrite length_reverse; lia).
  rewrite length_reverse, Nat.sub_diag. reflexivity.
Qed.

Lemma page_at_lt (pages : chain) (n : nat) (page : fixed_page) :
  page_at pages n = Some page -> (n < length pages)%nat.
Proof.
  unfold page_at. intros H. apply lookup_lt_Some in H.
  now rewrite length_reverse in H.
Qed.

Lemma page_at_elem (pages : chain) (n : nat) (page : fixed_page) :
  page_at pages n = Some page -> page ∈ pages.
Proof.
  unfold page_at. intros H. apply list_elem_of_lookup_2 in H.
  apply elem_of_reverse. exact H.
Qed.

(** *** Reading *)

Lemma load_bytes_length (pages : chain) (p : ptr) (n : nat) (bytes : list Byte.byte) :
  load_bytes pages p n = Some bytes -> length bytes = n.
Proof.
  revert p bytes. induction n as [|n IH]; intros p bytes; simpl.
  - now intros [= <-].
  - destruct (load pages p); simpl; [|discriminate].
    destruct (load_bytes pages (ptr_add p 1) n) eqn:E; simpl; [|discriminate].
    intros [= <-]. simpl. f_equal. eauto.
Qed.

Lemma load_bytes_preserved (pages pages' : chain) (p : ptr) (n : nat)
    (bytes : list Byte.byte) :
  preserved pages pages' ->
  load_bytes pages p n = Some bytes -> load_bytes pages' p n = Some bytes.
Proof.
  intros Hpres. revert p bytes. induction n as [|n IH]; intros p bytes; simpl; [done|].
  destruct (load pages p) as [b|] eqn:Eb; simpl; [|discriminate].
  destruct (load_bytes pages (ptr_add p 1) n) as [bs|] eqn:E; simpl; [|discriminate].
  intros [= <-]. rewrite (Hpres _ _ Eb). simpl. rewrite (IH _ _ E). reflexivity.
Qed.

Lemma ptr_add_add (p : ptr) (n m : Z) : ptr_add (ptr_add p n) m = ptr_add p (n + m).
Proof. destruct p; simpl; f_equal; lia. Qed.

Lemma ptr_add_0 (p : ptr) : ptr_add p 0 = p.
Proof. destruct p; simpl; f_equal; lia. Qed.

Lemma load_bytes_intro (pages : chain) (p : ptr) (bytes : list Byte.byte) :
  (forall i b, bytes !! i = Some b -> load pages (ptr_add p (Z.of_nat i)) = Some b) ->
  load_bytes pages p (length bytes) = Some bytes.
Proof.
  revert p. induction bytes as [|b bytes IH]; intros p H; simpl; [reflexivity|].
  assert (load pages p = Some b) as ->.
  { rewrite <- (ptr_add_0 p). apply (H 0%nat). reflexivity. }
  simpl. rewrite IH; [reflexivity|].
  intros i b' Hi. rewrite ptr_add_add.
  replace (1 + Z.of_nat i) with (Z.of_nat (S i)) by lia. now apply H.
Qed.

Lemma view_bytes_length (pages : chain) (v : string_view) (bytes : list Byte.byte) :
  0 <= size v -> view_bytes pages v = Some bytes -> Z.of_nat (length bytes) = size v.
Proof.
  unfold StringPool.view_bytes. intros Hs H. apply load_bytes_length in H. lia.
Qed.

Lemma view_bytes_preserved (pages pages' : chain) (v : string_view)
    (bytes : list Byte.byte) :
  preserved pages pages' ->
  view_bytes pages v = Some bytes -> view_bytes pages' v = Some bytes.
Proof. intros. eapply load_bytes_preserved; eauto. Qed.

Lemma key_ok_preserved (pages pages' : chain) (key : string_key) :
  preserved pages pages' -> key_ok pages key -> key_ok pages' key.
Proof.
  intros Hpres (Hs & bytes & Hb & Hh). split; [exact Hs|].
  exists bytes. split; [|exact Hh]. eapply view_bytes_preserved; eauto.
Qed.

Lemma preserved_refl (pages : chain) : preserved pages pages.
Proof. now intros p b. Qed.

Lemma preserved_trans (pages1 pages2 pages3 : chain) :
  preserved pages1 pages2 -> preserved pages2 pages3 -> preserved pages1 pages3.
Proof. intros H1 H2 p b H. eauto. Qed.

(** *** Pages *)

Lemma new_page_ok : page_ok new_page.
Proof.
  unfold page_ok, new_page. cbn [buffer_ remaining_].
  split; [apply length_replicate|]. unfold page_size. split; [lia|].
  intros k Hk. apply lookup_replicate_2. lia.
Qed.

Lemma preserved_new_page (page : fixed_page) (pages : chain) :
  preserved pages (page :: pages).
Proof.
  intros [a|n off] b; simpl; [done|].
  destruct (page_at pages n) as [pg|] eqn:E; simpl; [|discriminate].
  rewrite page_at_old by (eapply page_at_lt; eauto).
  rewrite E. done.
Qed.

(** Writing into the free part of the newest page changes no byte that
    could be read. *)
Lemma preserved_head (page page' : fixed_page) (previous : chain) :
  page_ok page ->
  (forall k, (k < Z.to_nat (page_size - remaining_ page))%nat ->
             buffer_ page' !! k = buffer_ page !! k) ->
  preserved (page :: previous) (page' :: previous).
Proof.
  intros (Hlen & Hrem & Hfree) Hsame [a|n off] b; simpl; [done|].
  destruct (decide (n = length previous)) as [->|Hn].
  - rewrite !page_at_new. simpl. case_decide; [|done].
    destruct (buffer_ page !! Z.to_nat off) as [c|] eqn:E; simpl; [|discriminate].
    intros ->.
    assert (Z.to_nat off < Z.to_nat (page_size - remaining_ page))%nat.
    { apply lookup_lt_Some in E as Hlt.
      destruct (decide (off < page_size - remaining_ page)); [lia|].
      rewrite Hfree in E by (unfold page_size in *; lia). discriminate. }
    rewrite Hsame by assumption. rewrite E. reflexivity.
  - destruct (page_at (page :: previous) n) as [pg|] eqn:E; simpl; [|discriminate].
    assert (n < length previous)%nat.
    { apply page_at_lt in E. simpl in E. lia. }
    rewrite page_at_old in E by assumption.
    rewrite page_at_old by assumption. rewrite E. done.
Qed.

Lemma page_for_spec (pages : chain) (size : Z) :
  Forall page_ok pages ->
  exists page previous,
    page_for pages size = page :: previous /\
    page_ok page /\ Forall page_ok previous /\
    preserved pages (page :: previous) /\
    (pages = page :: previous /\ can_hold page size = true
     \/ page = new_page /\ previous = pages).
Proof.
  intros Hok. unfold page_for.
  destruct pages as [|page previous].
  - exists new_page, []. split; [reflexivity|]. split; [apply new_page_ok|].
    split; [constructor|]. split; [apply preserved_new_page|]. right. done.
  - destruct (can_hold page size) eqn:Hc.
    + exists page, previous. inversion Hok; subst.
      split; [reflexivity|]. split; [assumption|]. split; [assumption|].
      split; [apply preserved_refl|]. left. done.
    + exists new_page, (page :: previous).
      split; [reflexivity|]. split; [apply new_page_ok|]. split; [assumption|].
      split; [apply preserved_new_page|]. right. done.
Qed.

Lemma can_hold_true (page : fixed_page) (size : Z) :
  0 <= size < page_size -> can_hold page size = true -> size + 1 < remaining_ page.
Proof.
  unfold can_hold, page_size. intros Hs H.
  rewrite wrap_below in H by lia. now apply Z.ltb_lt.
Qed.

(** *** [push_back] *)

Lemma store_Some (buffer : list cell) (off : Z) (bytes : list Byte.byte) :
  0 <= off -> off + Z.of_nat (length bytes) <= Z.of_nat (length buffer) ->
  store buffer off bytes = Some (list_inserts (Z.to_nat off) (Some <$> bytes) buffer).
Proof. intros. unfold store. now rewrite decide_True. Qed.

Lemma push_back_Some (pages : chain) (page : fixed_page) (key : string_key)
    (bytes : list Byte.byte) :
  page_ok page -> 0 <= size (view_ key) ->
  view_bytes pages (view_ key) = Some bytes ->
  size (view_ key) + 1 <= remaining_ page ->
  exists page',
    push_back pages page key = Some (page', page_size - remaining_ page) /\
    page_ok page' /\
    remaining_ page' = remaining_ page - (size (view_ key) + 1) /\
    (forall i b, bytes !! i = Some b ->
       buffer_ page' !! (Z.to_nat (page_size - remaining_ page) + i)%nat = Some (Some b)) /\
    buffer_ page' !! Z.to_nat (page_size - remaining_ page + size (view_ key))
    = Some (Some x00) /\
    (forall k, (k < Z.to_nat (page_size - remaining_ page))%nat ->
       buffer_ page' !! k = buffer_ page !! k).
Proof.
  intros (Hlen & Hrem & Hfree) Hs Hb Hfit.
  pose proof (view_bytes_length _ _ _ Hs Hb) as Hl.
  unfold StringPool.push_back. rewrite Hb. cbn [mbind option_bind].
  replace (page_size - 1 - remaining_ page + 1) with (page_size - remaining_ page) by lia.
  set (start := page_size - remaining_ page) in *.
  unfold page_size in *.
  rewrite store_Some by lia. cbn [mbind option_bind].
  rewrite store_Some by (rewrite ?length_inserts; cbn [length]; lia).
  cbn [mbind option_bind].
  rewrite (wrap_below (size (view_ key) + 1)) by lia.
  rewrite wrap_below by lia.
  set (buffer := list_inserts _ (Some <$> [x00]) _).
  exists (mk_page buffer (remaining_ page - (size (view_ key) + 1))).
  split; [reflexivity|]. cbn [buffer_ remaining_]. subst buffer.
  split; [|split; [reflexivity|split; [|split]]].
  - unfold page_ok, page_size. cbn [buffer_ remaining_].
    split; [now rewrite !length_inserts|]. split; [lia|].
    intros k Hk.
    rewrite list_lookup_inserts_ge by (cbn [length fmap list_fmap]; lia).
    rewrite list_lookup_inserts_ge by (rewrite length_fmap; lia).
    apply Hfree. lia.
  - intros i b Hi. apply lookup_lt_Some in Hi as Hlt.
    rewrite list_lookup_inserts_lt by lia.
    rewrite list_lookup_inserts by (rewrite ?length_fmap; lia).
    rewrite list_lookup_fmap.
    replace (Z.to_nat start + i - Z.to_nat start)%nat with i by lia.
    rewrite Hi. reflexivity.
  - rewrite list_lookup_inserts
      by (rewrite ?length_inserts; cbn [length fmap list_fmap]; lia).
    rewrite Nat.sub_diag. reflexivity.
  - intros k Hk. rewrite !list_lookup_inserts_lt by lia. reflexivity.
Qed.

Lemma push_back_fits (pages : chain) (page page' : fixed_page) (key : string_key)
    (start : Z) :
  page_ok page -> 0 <= size (view_ key) ->
  push_back pages page key = Some (page', start) ->
  size (view_ key) + 1 <= remaining_ page.
Proof.
  intros (Hlen & Hrem & Hfree) Hs. unfold StringPool.push_back.
  destruct (view_bytes pages (view_ key)) as [bytes|]; simpl; [|discriminate].
  unfold store. case_decide; simpl; [|discriminate].
  case_decide as Hd; simpl; [|discriminate]. intros _.
  rewrite length_inserts in Hd. simpl in Hd. unfold page_size in *. lia.
Qed.

(** *** The index *)

Lemma find_pointwise {A : Type} (f g : A -> bool) (l : list A) :
  (forall a, f a = g a) -> List.find f l = List.find g l.
Proof.
  intros H. induction l as [|a l IH]; simpl; [reflexivity|].
  now rewrite H, IH.
Qed.

Lemma find_resolve (pages : chain) (map : list string_key) (key : string_key)
    (bytes : list Byte.byte) :
  view_bytes pages (view_ key) = Some bytes -> hash_ key = hash bytes ->
  find pages map key = resolve pages map bytes.
Proof.
  intros Hb Hh. unfold StringPool.find, PoolSpec.resolve.
  apply find_pointwise. intros e.
  unfold StringPool.key_eqb. rewrite Hb, Hh.
  destruct (view_bytes pages (view_ e)) as [x|]; simpl.
  - destruct (decide (hash_ e = hash bytes)) as [He|He].
    + rewrite (bool_decide_eq_true_2 _ He). simpl.
      apply bool_decide_ext. split; [intros ->; done|intros [_ [= ->]]; done].
    + rewrite (bool_decide_eq_false_2 _ He). simpl.
      symmetry. apply bool_decide_eq_false_2. tauto.
  - rewrite andb_false_r. symmetry. apply bool_decide_eq_false_2. intros [_ ?]. done.
Qed.

Lemma resolve_Some (pages : chain) (map : list string_key) (bytes : list Byte.byte)
    (e : string_key) :
  resolve pages map bytes = Some e ->
  e ∈ map /\ hash_ e = hash bytes /\ view_bytes pages (view_ e) = Some bytes.
Proof.
  unfold PoolSpec.resolve. intros H. apply List.find_some in H as [Hin Hd].
  apply bool_decide_eq_true_1 in Hd. split; [now apply list_elem_of_In|exact Hd].
Qed.

Lemma resolve_preserved (pages pages' : chain) (map : list string_key)
    (bytes : list Byte.byte) :
  Forall (key_ok pages) map -> preserved pages pages' ->
  resolve pages' map bytes = resolve pages map bytes.
Proof.
  intros Hok Hpres. unfold PoolSpec.resolve.
  induction Hok as [|e map (_ & be & Hbe & _) _ IH]; [reflexivity|].
  simpl. rewrite IH.
  rewrite (view_bytes_preserved _ _ _ _ Hpres Hbe), Hbe. reflexivity.
Qed.

Lemma resolve_cons_other (pages : chain) (map : list string_key) (e : string_key)
    (bytes bytes' : list Byte.byte) :
  view_bytes pages (view_ e) = Some bytes' -> bytes' <> bytes ->
  resolve pages (e :: map) bytes = resolve pages map bytes.
Proof.
  intros He Hne. unfold PoolSpec.resolve. simpl.
  rewrite bool_decide_eq_false_2; [reflexivity|].
  rewrite He. intros [_ [= ?]]. contradiction.
Qed.

Lemma resolve_cons_same (pages : chain) (map : list string_key) (e : string_key)
    (bytes : list Byte.byte) :
  view_bytes pages (view_ e) = Some bytes -> hash_ e = hash bytes ->
  resolve pages (e :: map) bytes = Some e.
Proof.
  intros He Hh. unfold PoolSpec.resolve. simpl.
  rewrite bool_decide_eq_true_2; [reflexivity|]. now split.
Qed.

(** After a miss, [insert] adds the entry. *)
Lemma insert_fresh (pages : chain) (map : list string_key) (e : string_key)
    (bytes : list Byte.byte) :
  view_bytes pages (view_ e) = Some bytes -> hash_ e = hash bytes ->
  resolve pages map bytes = None ->
  insert pages map e = e :: map.
Proof.
  intros He Hh Hnone. unfold StringPool.insert.
  rewrite (find_resolve _ _ _ _ He Hh), Hnone. reflexivity.
Qed.

Lemma preserved_from_empty (pages : chain) : preserved [] pages.
Proof.
  intros [a|n off] b; [done|].
  unfold StringPool.load, page_at. rewrite reverse_nil, lookup_nil. discriminate.
Qed.

(** Every call looks up a well-made key of its content. *)
Lemma call_ok_key (pool : string_pool) (c : call) :
  call_ok pool c ->
  exists key bytes,
    call_key pool c = Some key /\
    view_ key = call_view c /\
    0 <= size (view_ key) /\
    view_bytes (page_ pool) (view_ key) = Some bytes /\
    hash_ key = hash bytes /\
    call_bytes pool c = Some bytes /\
    get_string pool c
    = match c with
      | by_literal string => get_string_literal pool string
      | _ => get_string_key pool key
      end.
Proof.
  destruct c as [key|v|v|l]; simpl.
  - intros (Hs & bytes & Hb & Hh). exists key, bytes. repeat split; auto.
  - intros (Hs & bytes & Hb).
    exists (mk_key v (hash bytes)), bytes.
    unfold StringPool.get_string_view, string_key_of_view, PoolSpec.call_bytes.
    simpl. rewrite Hb. repeat split; auto.
  - intros (Hs & bytes & Hb).
    exists (mk_key v (hash bytes)), bytes.
    unfold StringPool.get_string_view, string_key_of_view, PoolSpec.call_bytes.
    simpl. rewrite Hb. repeat split; auto.
  - intros (_ & Hk).
    apply (key_ok_preserved _ _ _ (preserved_from_empty (page_ pool))) in Hk.
    destruct Hk as (Hs & bytes & Hb & Hh).
    exists (key_ l), bytes. repeat split; auto.
Qed.

(** *** One call *)

Lemma get_string_key_hit (pool : string_pool) (key : string_key)
    (bytes : list Byte.byte) (e : string_key) :
  view_bytes (page_ pool) (view_ key) = Some bytes -> hash_ key = hash bytes ->
  resolve (page_ pool) (map_ pool) bytes = Some e ->
  get_string_key pool key
  = Some (pool, {| data_ := data (view_ e); size_ := size (view_ key) |}).
Proof.
  intros Hb Hh Hr. unfold StringPool.get_string_key.
  rewrite (find_resolve _ _ _ _ Hb Hh), Hr. reflexivity.
Qed.

Lemma get_string_literal_hit (pool : string_pool) (l : string_literal)
    (bytes : list Byte.byte) (e : string_key) :
  view_bytes (page_ pool) (view_ (key_ l)) = Some bytes -> hash_ (key_ l) = hash bytes ->
  resolve (page_ pool) (map_ pool) bytes = Some e ->
  get_string_literal pool l
  = Some (pool, {| data_ := data (view_ e); size_ := size (view_ (key_ l)) |}).
Proof.
  intros Hb Hh Hr. unfold StringPool.get_string_literal.
  rewrite (find_resolve _ _ _ _ Hb Hh), Hr. reflexivity.
Qed.

Lemma get_string_literal_miss (pool : string_pool) (l : string_literal)
    (bytes : list Byte.byte) :
  view_bytes (page_ pool) (view_ (key_ l)) = Some bytes -> hash_ (key_ l) = hash bytes ->
  resolve (page_ pool) (map_ pool) bytes = None ->
  get_string_literal pool l
  = Some ({| map_ := key_ l :: map_ pool; page_ := page_ pool |},
          {| data_ := data (view_ (key_ l)); size_ := size (view_ (key_ l)) |}).
Proof.
  intros Hb Hh Hr. unfold StringPool.get_string_literal.
  rewrite (find_resolve _ _ _ _ Hb Hh), Hr.
  rewrite (insert_fresh _ _ _ bytes); [|exact Hb|exact Hh|exact Hr].
  destruct l as [[v hs]]. reflexivity.
Qed.

(** The bytes [push_back] wrote, read through the handle. *)
Lemma pushed_bytes (page' : fixed_page) (previous : chain) (start size : Z)
    (bytes : list Byte.byte) :
  0 <= start -> Z.of_nat (length bytes) = size ->
  (forall i b, bytes !! i = Some b ->
     buffer_ page' !! (Z.to_nat start + i)%nat = Some (Some b)) ->
  view_bytes (page' :: previous) (mk_view (page_ptr (length previous) start) size)
  = Some bytes.
Proof.
  intros Hs Hl Hcells. unfold StringPool.view_bytes. simpl.
  replace (Z.to_nat size) with (length bytes) by lia.
  apply load_bytes_intro. intros i b Hi. simpl.
  rewrite page_at_new. simpl. rewrite decide_True by lia.
  replace (Z.to_nat (start + Z.of_nat i)) with (Z.to_nat start + i)%nat by lia.
  rewrite (Hcells _ _ Hi). reflexivity.
Qed.

Lemma get_string_key_miss (pool : string_pool) (key : string_key)
    (bytes : list Byte.byte) :
  pool_inv pool -> 0 <= size (view_ key) ->
  view_bytes (page_ pool) (view_ key) = Some bytes -> hash_ key = hash bytes ->
  resolve (page_ pool) (map_ pool) bytes = None ->
  exists page previous,
    page_for (page_ pool) (size (view_ key)) = page :: previous /\
    page_ok page /\ Forall page_ok previous /\
    (page_ pool = page :: previous /\ can_hold page (size (view_ key)) = true
     \/ page = new_page /\ previous = page_ pool) /\
    (forall pool' h, get_string_key pool key = Some (pool', h) ->
       size (view_ key) + 1 <= remaining_ page) /\
    (size (view_ key) + 1 <= remaining_ page ->
     exists page',
       let start := page_size - remaining_ page in
       let str := page_ptr (length previous) start in
       push_back (page :: previous) page key = Some (page', start) /\
       get_string_key pool key
       = Some ({| map_ := mk_key (mk_view str (size (view_ key))) (hash_ key) :: map_ pool;
                  page_ := page' :: previous |},
               {| data_ := str; size_ := size (view_ key) |}) /\
       page_ok page' /\
       preserved (page_ pool) (page' :: previous) /\
       view_bytes (page' :: previous) (mk_view str (size (view_ key))) = Some bytes /\
       load (page' :: previous) (page_ptr (length previous) (start + size (view_ key)))
       = Some x00).
Proof.
  intros [Hpages Hmap] Hs Hb Hh Hr.
  destruct (page_for_spec (page_ pool) (size (view_ key)) Hpages)
    as (page & previous & Hfor & Hpage & Hprev & Hpres & Hcase).
  exists page, previous.
  split; [exact Hfor|]. split; [exact Hpage|]. split; [exact Hprev|].
  split; [exact Hcase|].
  assert (Hb' : view_bytes (page :: previous) (view_ key) = Some bytes)
    by (eapply view_bytes_preserved; eauto).
  split.
  { intros pool' h. unfold StringPool.get_string_key.
    rewrite (find_resolve _ _ _ _ Hb Hh), Hr, Hfor.
    destruct (push_back (page :: previous) page key) as [[page' start]|] eqn:Hpush;
      [|discriminate].
    intros _. eapply push_back_fits; eauto. }
  intros Hfit.
  destruct (push_back_Some _ _ _ _ Hpage Hs Hb' Hfit)
    as (page' & Hpush & Hpage' & Hrem & Hcells & Hnul & Hsame).
  exists page'. cbn zeta.
  pose proof (view_bytes_length _ _ _ Hs Hb) as Hl.
  assert (Hstart : 0 <= page_size - remaining_ page) by (destruct Hpage; lia).
  assert (Hpres' : preserved (page_ pool) (page' :: previous)).
  { eapply preserved_trans; [exact Hpres|]. now apply preserved_head. }
  assert (Hnew : view_bytes (page' :: previous)
                   (mk_view (page_ptr (length previous) (page_size - remaining_ page))
                      (size (view_ key))) = Some bytes)
    by (apply pushed_bytes; assumption).
  split; [exact Hpush|]. split.
  { unfold StringPool.get_string_key.
    rewrite (find_resolve _ _ _ _ Hb Hh), Hr, Hfor, Hpush. cbn [mbind option_bind].
    rewrite (insert_fresh _ _ _ bytes); [reflexivity|exact Hnew|exact Hh|].
    rewrite (resolve_preserved (page_ pool)); assumption. }
  split; [exact Hpage'|]. split; [exact Hpres'|]. split; [exact Hnew|].
  simpl. rewrite page_at_new. simpl. rewrite decide_True by lia.
  rewrite Hnul. reflexivity.
Qed.

Lemma entry_size (pages : chain) (map : list string_key) (e : string_key)
    (bytes : list Byte.byte) :
  Forall (key_ok pages) map ->
  resolve pages map bytes = Some e ->
  size (view_ e) = Z.of_nat (length bytes) /\ view_bytes pages (view_ e) = Some bytes.
Proof.
  intros Hok Hr. apply resolve_Some in Hr as (Hin & _ & Hb).
  rewrite List.Forall_forall in Hok.
  destruct (Hok e) as (Hs & _); [now apply list_elem_of_In|].
  split; [|exact Hb]. symmetry. eapply view_bytes_length; eauto.
Qed.

(** What a call that returns leaves behind. *)
Lemma get_string_effect (pool : string_pool) (c : call) (bytes : list Byte.byte)
    (pool' : string_pool) (h : fixed_string) :
  pool_inv pool -> call_ok pool c -> call_bytes pool c = Some bytes ->
  get_string pool c = Some (pool', h) ->
  pool_inv pool' /\
  preserved (page_ pool) (page_ pool') /\
  size_ h = Z.of_nat (length bytes) /\
  view_bytes (page_ pool') (view h) = Some bytes /\
  (exists e, resolve (page_ pool') (map_ pool') bytes = Some e /\
             data (view_ e) = data_ h) /\
  (forall bytes2 e, resolve (page_ pool) (map_ pool) bytes2 = Some e ->
                    resolve (page_ pool') (map_ pool') bytes2 = Some e) /\
  (page_ pool' = page_ pool
   \/ (exists page page' previous,
         page_ pool = page :: previous /\ page_ pool' = page' :: previous)
   \/ (exists page', page_ pool' = page' :: page_ pool)).
Proof.
  intros Hinv Hok Hcb Hget.
  destruct (call_ok_key pool c Hok)
    as (key & bytes' & Hck & Hview & Hs & Hb & Hh & Hcb' & Hdef).
  assert (bytes' = bytes) as -> by congruence.
  pose proof (view_bytes_length _ _ _ Hs Hb) as Hl.
  destruct Hinv as [Hpages Hmap].
  destruct (resolve (page_ pool) (map_ pool) bytes) as [e|] eqn:Hr.
  - (* already in the index *)
    assert (Hhit : get_string pool c
                   = Some (pool, {| data_ := data (view_ e); size_ := size (view_ key) |})).
    { rewrite Hdef. destruct c; simpl in Hck; try (injection Hck as <-);
        eauto using get_string_key_hit, get_string_literal_hit. }
    rewrite Hhit in Hget. injection Hget as <- <-.
    destruct (entry_size _ _ _ _ Hmap Hr) as [Hes Heb].
    split; [now split|]. split; [apply preserved_refl|]. split; [simpl; lia|].
    split.
    { unfold StringPool.view. simpl. rewrite <- Hl, <- Hes.
      destruct e as [[d n] hs]. exact Heb. }
    split; [exists e; split; [exact Hr|reflexivity]|]. auto.
  - (* not in the index *)
    assert (Hother : forall bytes2 e entry pages,
               preserved (page_ pool) pages ->
               view_bytes pages (view_ entry) = Some bytes ->
               resolve (page_ pool) (map_ pool) bytes2 = Some e ->
               resolve pages (entry :: map_ pool) bytes2 = Some e).
    { intros bytes2 e entry pages Hpres He Hr2.
      rewrite (resolve_cons_other _ _ _ _ bytes He) by congruence.
      rewrite (resolve_preserved (page_ pool)); assumption. }
    assert (Hlit : (exists l, c = by_literal l) \/ ~ (exists l, c = by_literal l)).
    { destruct c; [right|right|right|left]; eauto; intros [? ?]; discriminate. }
    destruct Hlit as [[l ->]|Hcopy].
    + simpl in Hck. injection Hck as <-. simpl in Hget.
      rewrite (get_string_literal_miss _ _ bytes) in Hget by assumption.
      injection Hget as <- <-. simpl.
      split.
      { split; [exact Hpages|]. constructor; [|exact Hmap].
        split; [exact Hs|]. exists bytes. now split. }
      split; [apply preserved_refl|]. split; [lia|].
      split; [destruct (view_ (key_ l)); exact Hb|].
      split; [exists (key_ l); split; [now apply resolve_cons_same|reflexivity]|].
      split; [|left; reflexivity].
      intros bytes2 e Hr2. eapply Hother; eauto. apply preserved_refl.
    + assert (Hkey : get_string pool c = get_string_key pool key).
      { rewrite Hdef. destruct c; try reflexivity. exfalso. apply Hcopy. eauto. }
      rewrite Hkey in Hget.
      destruct (get_string_key_miss pool key bytes (conj Hpages Hmap) Hs Hb Hh Hr)
        as (page & previous & Hfor & Hpage & Hprev & Hcase & Hfit & Hdone).
      destruct (Hdone (Hfit _ _ Hget))
        as (page' & Hpush & Hres & Hpage' & Hpres & Hnew & Hnul).
      rewrite Hres in Hget. injection Hget as <- <-.
      cbn [map_ page_ data_ size_].
      split.
      { split; [constructor; assumption|]. constructor.
        - split; [exact Hs|]. exists bytes. now split.
        - eapply List.Forall_impl; [|exact Hmap].
          intros e. now apply key_ok_preserved. }
      split; [exact Hpres|]. split; [lia|]. split; [exact Hnew|].
      split; [eexists; split; [now apply resolve_cons_same|reflexivity]|].
      split; [intros bytes2 e Hr2; eapply Hother; eauto|].
      destruct Hcase as [[Heq _]|[-> ->]].
      * right. left. exists page, page', previous. now split.
      * right. right. exists page'. reflexivity.
Qed.

Lemma get_string_defined (pool : string_pool) (c : call) (bytes : list Byte.byte) :
  pool_inv pool -> call_ok pool c -> call_bytes pool c = Some bytes ->
  Z.of_nat (length bytes) + 1 <= page_size ->
  exists pool' h, get_string pool c = Some (pool', h).
Proof.
  intros Hinv Hok Hcb Hfits.
  destruct (call_ok_key pool c Hok)
    as (key & bytes' & Hck & Hview & Hs & Hb & Hh & Hcb' & Hdef).
  assert (bytes' = bytes) as -> by congruence.
  pose proof (view_bytes_length _ _ _ Hs Hb) as Hl.
  rewrite Hdef.
  destruct (resolve (page_ pool) (map_ pool) bytes) as [e|] eqn:Hr.
  - destruct c; simpl in Hck; try (injection Hck as <-);
      eauto using get_string_key_hit, get_string_literal_hit.
  - assert (Hkey : exists pool' h, get_string_key pool key = Some (pool', h)).
    { destruct (get_string_key_miss pool key bytes Hinv Hs Hb Hh Hr)
        as (page & previous & Hfor & Hpage & Hprev & Hcase & _ & Hdone).
      destruct Hdone as (page' & _ & Hres & _); [|eauto].
      destruct Hcase as [[_ Hc]|[-> _]].
      - apply can_hold_true in Hc; lia.
      - simpl. lia. }
    destruct c; simpl in Hck; try (injection Hck as <-); try exact Hkey.
    eauto using get_string_literal_miss.
Qed.

(** *** Sequences of calls *)

Lemma runs_effect (pool : string_pool) (trace : list (call * fixed_string))
    (pool' : string_pool) :
  pool_inv pool -> runs pool trace pool' ->
  pool_inv pool' /\
  preserved (page_ pool) (page_ pool') /\
  (forall bytes e, resolve (page_ pool) (map_ pool) bytes = Some e ->
                   resolve (page_ pool') (map_ pool') bytes = Some e).
Proof.
  intros Hinv Hruns.
  induction Hruns as [pool|pool c pool1 h trace pool2 Hok Hget _ IH].
  - split; [exact Hinv|]. split; [apply preserved_refl|]. auto.
  - destruct (call_ok_key pool c Hok) as (_ & bytes & _ & _ & _ & _ & _ & Hcb & _).
    destruct (get_string_effect _ _ _ _ _ Hinv Hok Hcb Hget)
      as (Hinv1 & Hpres1 & _ & _ & _ & Hres1 & _).
    destruct (IH Hinv1) as (Hinv2 & Hpres2 & Hres2).
    split; [exact Hinv2|]. split; [eapply preserved_trans; eauto|]. auto.
Qed.

(** *** The constructors establish the invariant *)

Lemma empty_pool_inv : pool_inv empty_pool.
Proof. split; constructor. Qed.

Lemma string_pool_of_inv (list : list string_literal) :
  Forall literal_ok list ->
  pool_inv (string_pool_of caller_memory list) /\
  page_ (string_pool_of caller_memory list) = [].
Proof.
  intros Hlist. split; [|reflexivity]. split; [constructor|].
  unfold string_pool_of. cbn [map_ page_].
  assert (Hgen : forall map, Forall (key_ok []) map ->
            Forall (key_ok [])
              (fold_left (fun map l => insert [] map (key_ l)) list map)).
  { induction Hlist as [|l list [_ Hl] _ IH]; intros map Hmap; simpl; [exact Hmap|].
    apply IH. unfold StringPool.insert.
    destruct (find [] map (key_ l)); [exact Hmap|]. now constructor. }
  apply Hgen. constructor.
Qed.

(** What the caller owns can always be read. *)
Lemma caller_view_readable (pages : chain) (a n : Z) :
  is_Some (view_bytes pages (mk_view (caller_ptr a) n)).
Proof.
  unfold StringPool.view_bytes. simpl. generalize (Z.to_nat n) as k. intros k. revert a.
  induction k as [|k IH]; intros a; simpl; [eauto|].
  destruct (IH (a + 1)) as [bs Hbs]. rewrite Hbs. simpl. eauto.
Qed.

(** Keys and literals as their constructors make them. *)
Lemma string_key_of_view_ok (pages : chain) (string : string_view) (key : string_key) :
  0 <= size string ->
  string_key_of_view caller_memory pages string = Some key ->
  view_ key = string /\ key_ok pages key.
Proof.
  intros Hs. unfold string_key_of_view.
  destruct (view_bytes pages string) as [bytes|] eqn:Hb; simpl; [|discriminate].
  intros [= <-]. split; [reflexivity|]. split; [exact Hs|].
  exists bytes. now split.
Qed.

Lemma literal_is_ok (str size : Z) (string : string_literal) :
  0 <= size -> literal caller_memory str size = Some string -> literal_ok string.
Proof.
  intros Hs. unfold literal.
  destruct (string_key_of_view caller_memory [] (mk_view (caller_ptr str) size))
    as [key|] eqn:Hk; simpl; [|discriminate].
  intros [= <-]. apply string_key_of_view_ok in Hk as [Hv Hok]; [|exact Hs].
  split; [|exact Hok]. exists str. simpl. now rewrite Hv.
Qed.

(** Every pool made by a constructor and used through [get_string] meets
    the invariant. *)
Lemma reachable_pool_inv (literals : list string_literal)
    (trace : list (call * fixed_string)) (pool : string_pool) :
  Forall literal_ok literals ->
  runs (string_pool_of caller_memory literals) trace pool -> pool_inv pool.
Proof.
  intros Hlist Hruns.
  destruct (string_pool_of_inv literals Hlist) as [Hinv _].
  now destruct (runs_effect _ _ _ Hinv Hruns).
Qed.

End Facts.

End PoolFacts.

Module PoolProperties.
Import StringPool PoolSpec PoolFacts.

Section Properties.
Variable caller_memory : Z -> Byte.byte.

Local Abbreviation load := (load caller_memory).
Local Abbreviation view_bytes := (view_bytes caller_memory).
Local Abbreviation find := (find caller_memory).
Local Abbreviation push_back := (push_back caller_memory).
Local Abbreviation get_string_key := (get_string_key caller_memory).
Local Abbreviation get_string_literal := (get_string_literal caller_memory).
Local Abbreviation get_string := (get_string caller_memory).
Local Abbreviation key_ok := (key_ok caller_memory).
Local Abbreviation literal_ok := (literal_ok caller_memory).
Local Abbreviation pool_inv := (pool_inv caller_memory).
Local Abbreviation call_ok := (call_ok caller_memory).
Local Abbreviation call_bytes := (call_bytes caller_memory).
Local Abbreviation call_key := (call_key caller_memory).
Local Abbreviation runs := (runs caller_memory).
Local Abbreviation preserved := (preserved caller_memory).
Local Abbreviation resolve := (resolve caller_memory).

(** C6. In one pool, a [get_string] call for content that fits in a page
    returns a handle, and every later call for the same bytes, through any
    of the four entry points and after any other calls, returns that very
    handle: the same data address and the same length. *)
Theorem same_content_same_handle (pool : string_pool) (c1 : call)
    (bytes : list Byte.byte) :
  pool_inv pool -> call_ok pool c1 -> call_bytes pool c1 = Some bytes ->
  Z.of_nat (length bytes) + 1 <= page_size ->
  exists pool1 h1,
    get_string pool c1 = Some (pool1, h1) /\
    size_ h1 = Z.of_nat (length bytes) /\
    forall trace pool2 c2,
      runs pool1 trace pool2 -> call_ok pool2 c2 -> call_bytes pool2 c2 = Some bytes ->
      get_string pool2 c2 = Some (pool2, h1).
Proof.
  intros Hinv Hok Hcb Hfits.
  destruct (get_string_defined caller_memory _ _ _ Hinv Hok Hcb Hfits)
    as (pool1 & h1 & Hget).
  exists pool1, h1. split; [exact Hget|].
  destruct (get_string_effect caller_memory _ _ _ _ _ Hinv Hok Hcb Hget)
    as (Hinv1 & _ & Hsize & _ & (e & Hr1 & Hdata) & _).
  split; [exact Hsize|].
  intros trace pool2 c2 Hruns Hok2 Hcb2.
  destruct (runs_effect caller_memory _ _ _ Hinv1 Hruns) as (Hinv2 & _ & Hres).
  specialize (Hres _ _ Hr1).
  destruct (call_ok_key caller_memory pool2 c2 Hok2)
    as (key & bytes' & Hck & _ & Hs & Hb & Hh & Hcb' & Hdef).
  assert (bytes' = bytes) as -> by congruence.
  pose proof (view_bytes_length caller_memory _ _ _ Hs Hb) as Hl.
  assert (Hh1 : h1 = {| data_ := data (view_ e); size_ := size (view_ key) |}).
  { destruct h1 as [d n]. simpl in *. f_equal; [congruence|lia]. }
  rewrite Hh1, Hdef.
  destruct c2; simpl in Hck; try (injection Hck as <-);
    eauto using get_string_key_hit, get_string_literal_hit.
Qed.

(** C7. The bytes behind a handle are never modified, moved or
    invalidated by later calls: once [get_string] has returned a handle
    for some content, after any further calls the handle still reads as
    that content; no byte that could be read, in a page or in the
    storage of the caller, changes its address or its value; and a call
    that allocates a page puts it in front of the chain and leaves the
    pages that were there as they were. *)
Theorem issued_handles_stable (pool : string_pool) (c : call) (bytes : list Byte.byte)
    (pool1 : string_pool) (h : fixed_string) (trace : list (call * fixed_string))
    (pool2 : string_pool) :
  pool_inv pool -> call_ok pool c -> call_bytes pool c = Some bytes ->
  get_string pool c = Some (pool1, h) ->
  runs pool1 trace pool2 ->
  view_bytes (page_ pool1) (view h) = Some bytes /\
  view_bytes (page_ pool2) (view h) = Some bytes /\
  preserved (page_ pool) (page_ pool1) /\
  preserved (page_ pool1) (page_ pool2) /\
  (length (page_ pool1) <> length (page_ pool) ->
   exists page', page_ pool1 = page' :: page_ pool).
Proof.
  intros Hinv Hok Hcb Hget Hruns.
  destruct (get_string_effect caller_memory _ _ _ _ _ Hinv Hok Hcb Hget)
    as (Hinv1 & Hpres & _ & Hview & _ & _ & Hshape).
  destruct (runs_effect caller_memory _ _ _ Hinv1 Hruns) as (_ & Hpres2 & _).
  split; [exact Hview|].
  split; [eapply view_bytes_preserved; eauto|].
  split; [exact Hpres|]. split; [exact Hpres2|].
  intros Hlen.
  destruct Hshape as [Heq|[(page & page' & previous & Heq & Heq')|Hnew]].
  - rewrite Heq in Hlen. contradiction.
  - rewrite Heq, Heq' in Hlen. simpl in Hlen. contradiction.
  - exact Hnew.
Qed.

(** C8. When the index does not hold the content of a literal yet,
    [get_string(string_literal)] returns a handle whose data address is
    the address of the literal itself, and leaves the chain of pages as it
    was: no byte is copied and no page is allocated. Every later call
    for that content returns the address of the literal. *)
Theorem literal_is_not_copied (pool : string_pool) (string : string_literal)
    (bytes : list Byte.byte) :
  pool_inv pool -> literal_ok string ->
  call_bytes pool (by_literal string) = Some bytes ->
  find (page_ pool) (map_ pool) (key_ string) = None ->
  exists pool1,
    get_string_literal pool string
    = Some (pool1, {| data_ := data (view_ (key_ string));
                      size_ := size (view_ (key_ string)) |}) /\
    page_ pool1 = page_ pool /\
    forall trace pool2 c2,
      runs pool1 trace pool2 -> call_ok pool2 c2 -> call_bytes pool2 c2 = Some bytes ->
      get_string pool2 c2
      = Some (pool2, {| data_ := data (view_ (key_ string));
                        size_ := size (view_ (key_ string)) |}).
Proof.
  intros Hinv Hok Hcb Hfind.
  destruct (call_ok_key caller_memory pool (by_literal string) Hok)
    as (key & bytes' & Hck & _ & Hs & Hb & Hh & Hcb' & _).
  simpl in Hck. injection Hck as <-.
  assert (bytes' = bytes) as -> by congruence.
  rewrite (find_resolve caller_memory _ _ _ _ Hb Hh) in Hfind.
  pose proof (get_string_literal_miss caller_memory _ _ _ Hb Hh Hfind) as Hget.
  eexists. split; [exact Hget|]. split; [reflexivity|].
  destruct (get_string_effect caller_memory pool (by_literal string) _ _ _
              Hinv Hok Hcb Hget) as (Hinv1 & _ & _ & _ & (e & Hr1 & Hdata) & _).
  intros trace pool2 c2 Hruns Hok2 Hcb2.
  destruct (runs_effect caller_memory _ _ _ Hinv1 Hruns) as (Hinv2 & _ & Hres).
  specialize (Hres _ _ Hr1).
  destruct (call_ok_key caller_memory pool2 c2 Hok2)
    as (key2 & bytes2 & Hck2 & _ & Hs2 & Hb2 & Hh2 & Hcb2' & Hdef).
  assert (bytes2 = bytes) as -> by congruence.
  pose proof (view_bytes_length caller_memory _ _ _ Hs Hb) as Hl.
  pose proof (view_bytes_length caller_memory _ _ _ Hs2 Hb2) as Hl2.
  simpl in Hdata. rewrite <- Hdata.
  replace (size (view_ (key_ string))) with (size (view_ key2)) by lia.
  rewrite Hdef.
  destruct c2; simpl in Hck2; try (injection Hck2 as <-);
    eauto using get_string_key_hit, get_string_literal_hit.
Qed.

(** C9. In a call of [get_string(string_key)] for content with
    [size + 1 < page_size], [push_back] is reached only on a miss, on a
    page with [size + 1 < remaining_], and the [size + 1] bytes it writes,
    from [start] on, lie inside the [page_size] bytes of the buffer of
    that page. *)
Theorem push_back_in_bounds (pool : string_pool) (key : string_key) :
  pool_inv pool -> key_ok (page_ pool) key ->
  size (view_ key) + 1 < page_size ->
  (forall it, find (page_ pool) (map_ pool) key = Some it ->
     get_string_key pool key
     = Some (pool, {| data_ := data (view_ it); size_ := size (view_ key) |}))
  /\ (find (page_ pool) (map_ pool) key = None ->
      exists page previousPage page' start pool' h,
        page_for (page_ pool) (size (view_ key)) = page :: previousPage /\
        size (view_ key) + 1 < remaining_ page /\
        push_back (page :: previousPage) page key = Some (page', start) /\
        Z.of_nat (length (buffer_ page)) = page_size /\
        start = page_size - remaining_ page /\
        0 <= start /\ start + (size (view_ key) + 1) <= Z.of_nat (length (buffer_ page)) /\
        get_string_key pool key = Some (pool', h)).
Proof.
  intros Hinv (Hs & bytes & Hb & Hh) Hfits. split.
  - intros it Hfind. unfold StringPool.get_string_key. now rewrite Hfind.
  - intros Hfind. rewrite (find_resolve caller_memory _ _ _ _ Hb Hh) in Hfind.
    destruct (get_string_key_miss caller_memory pool key bytes Hinv Hs Hb Hh Hfind)
      as (page & previous & Hfor & Hpage & Hprev & Hcase & _ & Hdone).
    assert (Hroom : size (view_ key) + 1 < remaining_ page).
    { destruct Hcase as [[_ Hc]|[-> _]].
      - apply can_hold_true in Hc; lia.
      - exact Hfits. }
    destruct Hdone as (page' & Hpush & Hres & _); [lia|].
    destruct Hpage as (Hlen & Hrem & _).
    eexists page, previous, page', _, _, _.
    split; [exact Hfor|]. split; [exact Hroom|]. split; [exact Hpush|].
    unfold page_size in *. split; [lia|]. split; [reflexivity|].
    split; [lia|]. split; [lia|exact Hres].
Qed.

(** C10, amended. A call through a copying entry point ([string_key],
    [std::string_view], [std::string]) for content that is not in the index
    and that fits in a page with its terminator ([size + 1 <= page_size])
    returns a handle into a page: read through the handle, the first
    [size] bytes are the bytes asked for, and the byte after them is 0. *)
Theorem copied_string_is_terminated (pool : string_pool) (c : call) :
  pool_inv pool -> call_ok pool c -> copying c ->
  size (call_view c) + 1 <= page_size ->
  copy_is_terminated caller_memory pool c.
Proof.
  intros Hinv Hok Hcopy Hfits bytes key Hcb Hck Hfind.
  destruct (call_ok_key caller_memory pool c Hok)
    as (key' & bytes' & Hck' & Hview & Hs & Hb & Hh & Hcb' & Hdef).
  assert (key' = key) as -> by congruence.
  assert (bytes' = bytes) as -> by congruence.
  pose proof (view_bytes_length caller_memory _ _ _ Hs Hb) as Hl.
  rewrite <- Hview in Hfits.
  rewrite (find_resolve caller_memory _ _ _ _ Hb Hh) in Hfind.
  assert (Hkey : get_string pool c = get_string_key pool key).
  { rewrite Hdef. destruct c; try reflexivity. destruct Hcopy. }
  destruct (get_string_key_miss caller_memory pool key bytes Hinv Hs Hb Hh Hfind)
    as (page & previous & Hfor & Hpage & Hprev & Hcase & _ & Hdone).
  destruct Hdone as (page' & _ & Hres & _ & _ & Hnew & Hnul).
  { destruct Hcase as [[_ Hc]|[-> _]].
    - apply can_hold_true in Hc; lia.
    - simpl. lia. }
  cbn zeta in *. rewrite <- Hl in *.
  eexists _, _, _. rewrite Hkey. split; [exact Hres|].
  cbn [page_]. split; [exact Hnew|exact Hnul].
Qed.

End Properties.

Lemma same_content_same_handle_witness :
  pool_inv abc_memory empty_pool /\
  call_ok abc_memory empty_pool (by_view (mk_view (caller_ptr 0) 3)) /\
  call_bytes abc_memory empty_pool (by_view (mk_view (caller_ptr 0) 3))
  = Some [byte_of 97; byte_of 98; byte_of 99] /\
  Z.of_nat (length [byte_of 97; byte_of 98; byte_of 99]) + 1 <= page_size /\
  exists pool1 h1,
    get_string abc_memory empty_pool (by_view (mk_view (caller_ptr 0) 3)) = Some (pool1, h1) /\
    size_ h1 = 3.
Proof.
  assert (H1 : pool_inv abc_memory empty_pool) by (split; constructor).
  assert (H2 : call_ok abc_memory empty_pool (by_view (mk_view (caller_ptr 0) 3))).
  { split; [simpl; lia|]. eexists. reflexivity. }
  assert (H3 : call_bytes abc_memory empty_pool (by_view (mk_view (caller_ptr 0) 3))
               = Some [byte_of 97; byte_of 98; byte_of 99]) by reflexivity.
  assert (H4 : Z.of_nat (length [byte_of 97; byte_of 98; byte_of 99]) + 1 <= page_size)
    by (vm_compute; discriminate).
  split; [exact H1|]. split; [exact H2|]. split; [exact H3|]. split; [exact H4|].
  destruct (same_content_same_handle abc_memory _ _ _ H1 H2 H3 H4)
    as (pool1 & h1 & Hget & Hsize & _).
  exists pool1, h1. split; [exact Hget|exact Hsize].
Defined.

Lemma issued_handles_stable_witness :
  exists pool1 h pool2 h2,
    pool_inv abc_memory empty_pool /\
    call_ok abc_memory empty_pool (by_view (mk_view (caller_ptr 0) 3)) /\
    call_bytes abc_memory empty_pool (by_view (mk_view (caller_ptr 0) 3))
    = Some [x61; x62; x63] /\
    get_string abc_memory empty_pool (by_view (mk_view (caller_ptr 0) 3)) = Some (pool1, h) /\
    runs abc_memory pool1 [(by_string (mk_view (caller_ptr 1) 4092), h2)] pool2 /\
    view_bytes abc_memory (page_ pool2) (view h) = Some [x61; x62; x63].
Proof.
  assert (H1 : pool_inv abc_memory empty_pool) by (split; constructor).
  assert (H2 : call_ok abc_memory empty_pool (by_view (mk_view (caller_ptr 0) 3))).
  { split; [simpl; lia|]. eexists. reflexivity. }
  assert (H3 : call_bytes abc_memory empty_pool (by_view (mk_view (caller_ptr 0) 3))
               = Some [x61; x62; x63]) by reflexivity.
  destruct (get_string_defined abc_memory _ _ _ H1 H2 H3) as (pool1 & h & Hget);
    [vm_compute; discriminate|].
  destruct (get_string_effect abc_memory _ _ _ _ _ H1 H2 H3 Hget) as (Hinv1 & _).
  assert (Hok2 : call_ok abc_memory pool1 (by_string (mk_view (caller_ptr 1) 4092))).
  { split; [simpl; lia|]. apply caller_view_readable. }
  destruct (caller_view_readable abc_memory (page_ pool1) 1 4092) as [bytes2 Hb2].
  assert (Hl2 : Z.of_nat (length bytes2) = 4092).
  { apply (view_bytes_length abc_memory _ _ _) in Hb2; [exact Hb2|simpl; lia]. }
  destruct (get_string_defined abc_memory pool1
              (by_string (mk_view (caller_ptr 1) 4092)) bytes2 Hinv1 Hok2 Hb2)
    as (pool2 & h2 & Hget2).
  { rewrite Hl2. vm_compute. discriminate. }
  assert (Hruns : runs abc_memory pool1
                    [(by_string (mk_view (caller_ptr 1) 4092), h2)] pool2)
    by (econstructor; [exact Hok2|exact Hget2|constructor]).
  exists pool1, h, pool2, h2.
  destruct (issued_handles_stable abc_memory _ _ _ _ _ _ _ H1 H2 H3 Hget Hruns)
    as (_ & Hview & _).
  split; [exact H1|]. split; [exact H2|]. split; [exact H3|]. split; [exact Hget|].
  split; [exact Hruns|exact Hview].
Defined.

Lemma literal_is_not_copied_witness :
  pool_inv abc_memory empty_pool /\
  literal_ok abc_memory
    (mk_literal (mk_key (mk_view (caller_ptr 0) 3) (hash [x61; x62; x63]))) /\
  exists pool1,
    get_string_literal abc_memory empty_pool
      (mk_literal (mk_key (mk_view (caller_ptr 0) 3) (hash [x61; x62; x63])))
    = Some (pool1, {| data_ := caller_ptr 0; size_ := 3 |}) /\
    page_ pool1 = [].
Proof.
  assert (H1 : pool_inv abc_memory empty_pool) by (split; constructor).
  assert (H2 : literal_ok abc_memory
                 (mk_literal (mk_key (mk_view (caller_ptr 0) 3) (hash [x61; x62; x63])))).
  { split; [eexists; reflexivity|]. split; [simpl; lia|].
    exists [x61; x62; x63]. split; reflexivity. }
  split; [exact H1|]. split; [exact H2|].
  destruct (literal_is_not_copied abc_memory empty_pool _ [x61; x62; x63] H1 H2
              eq_refl eq_refl) as (pool1 & Hget & Hpages & _).
  exists pool1. split; [exact Hget|exact Hpages].
Defined.

Lemma push_back_in_bounds_witness :
  pool_inv abc_memory empty_pool /\
  key_ok abc_memory [] (mk_key (mk_view (caller_ptr 0) 3) (hash [x61; x62; x63])) /\
  3 + 1 < page_size /\
  exists page' start,
    push_back abc_memory [new_page] new_page
      (mk_key (mk_view (caller_ptr 0) 3) (hash [x61; x62; x63])) = Some (page', start) /\
    0 <= start /\ start + 4 <= page_size.
Proof.
  assert (H1 : pool_inv abc_memory empty_pool) by (split; constructor).
  assert (H2 : key_ok abc_memory (page_ empty_pool)
                 (mk_key (mk_view (caller_ptr 0) 3) (hash [x61; x62; x63]))).
  { split; [simpl; lia|]. exists [x61; x62; x63]. split; reflexivity. }
  assert (H3 : size (view_ (mk_key (mk_view (caller_ptr 0) 3) (hash [x61; x62; x63]))) + 1
               < page_size) by (vm_compute; reflexivity).
  split; [exact H1|]. split; [exact H2|]. split; [exact H3|].
  destruct (push_back_in_bounds abc_memory empty_pool _ H1 H2 H3) as [_ Hmiss].
  destruct (Hmiss eq_refl)
    as (page & previous & page' & start & pool' & h & Hfor & _ & Hpush & Hlen & _ & H0 & Hend & _).
  injection Hfor as <- <-.
  exists page', start. split; [exact Hpush|]. split; [exact H0|].
  rewrite <- Hlen. exact Hend.
Defined.

(** C10, as stated, without a bound on the size: it fails for 4096 bytes on
    an empty pool. The new page takes the 4096 bytes; the terminator
    [start[4096]] is one byte past [buffer_], and the call has no defined
    result. *)
Lemma oversized_copy_is_not_terminated :
  pool_inv abc_memory empty_pool /\
  call_ok abc_memory empty_pool (by_view (mk_view (caller_ptr 0) 4096)) /\
  copying (by_view (mk_view (caller_ptr 0) 4096)) /\
  get_string abc_memory empty_pool (by_view (mk_view (caller_ptr 0) 4096)) = None /\
  ~ copy_is_terminated abc_memory empty_pool (by_view (mk_view (caller_ptr 0) 4096)).
Proof.
  assert (Hnone : get_string abc_memory empty_pool (by_view (mk_view (caller_ptr 0) 4096))
                  = None) by (vm_compute; reflexivity).
  split; [split; constructor|].
  split; [split; [simpl; lia|apply caller_view_readable]|].
  split; [exact I|]. split; [exact Hnone|].
  intros H.
  destruct (caller_view_readable abc_memory [] 0 4096) as [bytes Hcb].
  assert (Hck : call_key abc_memory empty_pool (by_view (mk_view (caller_ptr 0) 4096))
                = Some (mk_key (mk_view (caller_ptr 0) 4096) (hash bytes))).
  { unfold call_key, string_key_of_view.
    change (page_ empty_pool) with (@nil fixed_page). rewrite Hcb. reflexivity. }
  destruct (H bytes _ Hcb Hck eq_refl) as (pool' & n & start & Hget & _).
  rewrite Hnone in Hget. discriminate.
Qed.

Lemma copied_string_is_terminated_witness :
  pool_inv abc_memory empty_pool /\
  call_ok abc_memory empty_pool (by_string (mk_view (caller_ptr 0) 3)) /\
  copying (by_string (mk_view (caller_ptr 0) 3)) /\
  size (call_view (by_string (mk_view (caller_ptr 0) 3))) + 1 <= page_size /\
  copy_is_terminated abc_memory empty_pool (by_string (mk_view (caller_ptr 0) 3)).
Proof.
  assert (H1 : pool_inv abc_memory empty_pool) by (split; constructor).
  assert (H2 : call_ok abc_memory empty_pool (by_string (mk_view (caller_ptr 0) 3))).
  { split; [simpl; lia|]. eexists. reflexivity. }
  assert (H4 : size (call_view (by_string (mk_view (caller_ptr 0) 3))) + 1 <= page_size)
    by (vm_compute; discriminate).
  split; [exact H1|]. split; [exact H2|]. split; [exact I|]. split; [exact H4|].
  exact (copied_string_is_terminated abc_memory _ _ H1 H2 I H4).
Defined.

End PoolProperties.

(** * Further properties of the validators and the decoder *)

Module Utf8Behaviour.
Import Utf8 Utf8Spec Utf8Facts.

(** *** Ranges put together *)

Lemma size_app (a b : byte_range) : size (a ++ b) = size a + size b.
Proof. unfold size. rewrite length_app. lia. Qed.

Lemma size_nonneg (a : byte_range) : 0 <= size a.
Proof. unfold size. lia. Qed.

Lemma addressable_app_l (a b : byte_range) : addressable (a ++ b) -> addressable a.
Proof. unfold addressable. rewrite size_app. pose proof (size_nonneg b). lia. Qed.

Lemma addressable_app_r (a b : byte_range) : addressable (a ++ b) -> addressable b.
Proof. unfold addressable. rewrite size_app. pose proof (size_nonneg a). lia. Qed.

Lemma at_app_l (a b : byte_range) (i x : Z) :
  at_ a i = Some x -> at_ (a ++ b) i = Some x.
Proof.
  unfold at_. case_decide; [|discriminate].
  destruct (a !! Z.to_nat i) as [y|] eqn:E; [|discriminate].
  intros Hx. rewrite (lookup_app_l_Some _ _ _ _ E). exact Hx.
Qed.

Lemma sequence_at_app_l (a b : byte_range) (i len cp : Z) :
  sequence_at a i len cp -> sequence_at (a ++ b) i len cp.
Proof. destruct 1; econstructor; eauto using at_app_l. Qed.

Lemma at_shift (a b : byte_range) (i k : Z) :
  0 <= i -> 0 <= k -> at_ (a ++ b) (size a + i + k) = at_ b (i + k).
Proof. intros. rewrite <- (at_app a b (i + k)) by lia. f_equal. lia. Qed.

Lemma sequence_at_shift (a b : byte_range) (i len cp : Z) :
  sequence_at b i len cp -> sequence_at (a ++ b) (size a + i) len cp.
Proof.
  intros Hs. pose proof (sequence_at_bounds _ _ _ _ Hs) as Hb.
  destruct Hs;
    repeat match goal with
    | H : at_ b (i + ?k) = Some _ |- _ => rewrite <- (at_shift a b i k) in H by lia
    | H : at_ b i = Some _ |- _ => rewrite <- (at_app a b i) in H by lia
    end;
    econstructor; eauto.
Qed.

Lemma parses_app_l (P : Z -> Z -> Prop) (a b : byte_range) (i j : Z) (cps : list Z) :
  parses P a i j cps -> parses P (a ++ b) i j cps.
Proof. induction 1; econstructor; eauto using sequence_at_app_l. Qed.

Lemma parses_shift (P : Z -> Z -> Prop) (a b : byte_range) (i j : Z) (cps : list Z) :
  parses P b i j cps -> parses P (a ++ b) (size a + i) (size a + j) cps.
Proof.
  induction 1 as [|i len cp j cps Hs HP _ IH]; [constructor|].
  econstructor; [apply sequence_at_shift; exact Hs|exact HP|].
  rewrite <- Z.add_assoc. exact IH.
Qed.

Lemma failure_at_shift (a b : byte_range) (i : Z) (e : validation_error) :
  failure_at b i e -> failure_at (a ++ b) (size a + i) e.
Proof.
  intros (b1 & Hb1 & Hf).
  pose proof (at_Some_inv _ _ _ Hb1) as [Hi _].
  exists b1. split; [rewrite at_app by lia; exact Hb1|].
  destruct e; try exact Hf.
  - destruct Hf as (cp & Hs & Hc). exists cp.
    split; [now apply sequence_at_shift|exact Hc].
  - destruct Hf as (len & cp & Hs & Hc). exists len, cp.
    split; [now apply sequence_at_shift|exact Hc].
  - destruct Hf as (Hl & Hsz & k & b' & Hk & Hbk & Hc).
    split; [exact Hl|]. rewrite size_app. split; [lia|].
    exists k, b'. split; [exact Hk|]. split; [|exact Hc].
    rewrite at_shift by lia. exact Hbk.
  - destruct Hf as [Hl Hsz]. split; [exact Hl|]. rewrite size_app. lia.
Qed.

Lemma failure_at_app_l (a b : byte_range) (i : Z) (e : validation_error) :
  e <> unexpected_end -> failure_at a i e -> failure_at (a ++ b) i e.
Proof.
  intros He (b1 & Hb1 & Hf).
  exists b1. split; [now apply at_app_l|].
  destruct e; try exact Hf; try contradiction.
  - destruct Hf as (cp & Hs & Hc). exists cp.
    split; [now apply sequence_at_app_l|exact Hc].
  - destruct Hf as (len & cp & Hs & Hc). exists len, cp.
    split; [now apply sequence_at_app_l|exact Hc].
  - destruct Hf as (Hl & Hsz & k & b' & Hk & Hbk & Hc).
    split; [exact Hl|]. rewrite size_app. pose proof (size_nonneg b).
    split; [lia|].
    exists k, b'. split; [exact Hk|]. split; [|exact Hc].
    now apply at_app_l.
Qed.

(** *** Two passes over the same bytes *)

Lemma parses_split (P Q : Z -> Z -> Prop) (range : byte_range) (i j j' : Z)
    (cps cps' : list Z) :
  parses P range i j cps -> parses Q range i j' cps' -> j <= j' ->
  exists rest, parses Q range j j' rest /\ cps' = cps ++ rest.
Proof.
  intros Hp. revert cps'.
  induction Hp as [i|i len cp j cps Hs HP Hp IH]; intros cps' Hq Hle.
  - exists cps'. split; [exact Hq|reflexivity].
  - inversion Hq as [|? len' cp' ? cps'' Hs' _ Hq']; subst.
    + apply parses_length in Hp. apply sequence_at_bounds in Hs. lia.
    + destruct (sequence_at_det _ _ _ _ _ _ Hs Hs') as [<- <-].
      destruct (IH _ Hq' Hle) as (rest & Hrest & ->).
      exists rest. split; [exact Hrest|reflexivity].
Qed.

(** *** Any validator that the description of the loop fits *)

Section Validator.
Variable validator : byte_range -> option validation_result.
Variable P : Z -> Z -> Prop.
Variable Q : validation_error -> Prop.

Hypothesis returns : forall range, addressable range ->
  exists r j cps,
    validator range = Some r /\
    parses P range 0 j cps /\
    Utf8.range r = to_utf8 range j /\
    codepoint_count r = Z.of_nat (length cps) /\
    (error r = success /\ j = size range
     \/ error r <> success /\ j < size range /\ Q (error r) /\ failure_at range j (error r)).

Hypothesis accepts : forall range cps, addressable range ->
  parses P range 0 (size range) cps ->
  validator range
  = Some (mk_result success (mk_utf8_range 0 (size range)) (Z.of_nat (length cps))).

Hypothesis stops : forall range j cps e, addressable range ->
  parses P range 0 j cps -> Q e -> failure_at range j e ->
  validator range = Some (mk_result e (mk_utf8_range 0 j) (Z.of_nat (length cps))).

Lemma accepted_prefix (good tail : byte_range) (r : validation_result) :
  addressable (good ++ tail) ->
  validator good = Some r -> error r = success ->
  exists cps,
    parses P (good ++ tail) 0 (size good) cps /\
    codepoint_count r = Z.of_nat (length cps).
Proof.
  intros Ha Hv Hok.
  destruct (returns good (addressable_app_l _ _ Ha))
    as (r' & j & cps & Hr & Hp & _ & Hn & Hcase).
  assert (r' = r) as -> by congruence.
  destruct Hcase as [[_ ->]|[Hne _]]; [|contradiction].
  exists cps. split; [now apply parses_app_l|exact Hn].
Qed.

Lemma after_prefix (good tail : byte_range) (r : validation_result)
    (e : validation_error) :
  addressable (good ++ tail) ->
  validator good = Some r -> error r = success ->
  Q e -> failure_at tail 0 e ->
  validator (good ++ tail)
  = Some (mk_result e (mk_utf8_range 0 (size good)) (codepoint_count r)).
Proof.
  intros Ha Hv Hok HQ Hf.
  destruct (accepted_prefix good tail r Ha Hv Hok) as (cps & Hp & ->).
  apply (failure_at_shift good) in Hf. rewrite Z.add_0_r in Hf.
  now apply stops.
Qed.

Lemma concatenation (a b : byte_range) (ra : validation_result) :
  addressable (a ++ b) ->
  validator a = Some ra -> error ra = success ->
  exists rb,
    validator b = Some rb /\
    validator (a ++ b)
    = Some (mk_result (error rb)
              (mk_utf8_range 0 (size a + byte_count_ (Utf8.range rb)))
              (codepoint_count ra + codepoint_count rb)).
Proof.
  intros Ha Hv Hok.
  destruct (accepted_prefix a b ra Ha Hv Hok) as (cpsa & Hpa & ->).
  destruct (returns b (addressable_app_r _ _ Ha))
    as (rb & j & cpsb & Hrb & Hpb & Hrange & Hn & Hcase).
  exists rb. split; [exact Hrb|].
  apply (parses_shift P a) in Hpb. rewrite Z.add_0_r in Hpb.
  pose proof (parses_app _ _ _ _ _ _ _ Hpa Hpb) as Hp.
  rewrite Hrange, Hn. simpl.
  replace (Z.of_nat (length cpsa) + Z.of_nat (length cpsb))
    with (Z.of_nat (length (cpsa ++ cpsb))) by (rewrite length_app; lia).
  destruct Hcase as [[-> ->]|(_ & _ & HQ & Hf)].
  - rewrite <- size_app in *. now apply accepts.
  - apply (failure_at_shift a) in Hf. now apply stops.
Qed.

Lemma final_failure (a b : byte_range) (r : validation_result) :
  addressable (a ++ b) ->
  validator a = Some r -> error r <> success -> error r <> unexpected_end ->
  validator (a ++ b) = Some r.
Proof.
  intros Ha Hv Hne Hend.
  destruct (returns a (addressable_app_l _ _ Ha))
    as (r' & j & cps & Hr & Hp & Hrange & Hn & Hcase).
  assert (r' = r) as -> by congruence.
  destruct Hcase as [[? _]|(_ & _ & HQ & Hf)]; [contradiction|].
  apply (parses_app_l P a b) in Hp.
  apply (failure_at_app_l a b) in Hf; [|exact Hend].
  rewrite (stops _ _ _ _ Ha Hp HQ Hf).
  destruct r as [e rg n]. simpl in *. subst. reflexivity.
Qed.

Lemma measures (range : byte_range) :
  addressable range ->
  exists r,
    validator range = Some r /\
    start_ (Utf8.range r) = 0 /\
    0 <= codepoint_count r <= byte_count_ (Utf8.range r) /\
    byte_count_ (Utf8.range r) <= 4 * codepoint_count r /\
    byte_count_ (Utf8.range r) <= size range.
Proof.
  intros Ha.
  destruct (returns range Ha) as (r & j & cps & Hr & Hp & Hrange & Hn & Hcase).
  exists r. split; [exact Hr|]. rewrite Hrange, Hn. simpl.
  apply parses_length in Hp.
  split; [reflexivity|]. split; [lia|]. split; [lia|].
  destruct Hcase as [[_ ->]|(_ & ? & _)]; lia.
Qed.
End Validator.

Lemma validate_fits (range : byte_range) :
  addressable range ->
  exists r j cps,
    validate range = Some r /\
    parses accepted range 0 j cps /\
    Utf8.range r = to_utf8 range j /\
    codepoint_count r = Z.of_nat (length cps) /\
    (error r = success /\ j = size range
     \/ error r <> success /\ j < size range /\ any_error (error r)
        /\ failure_at range j (error r)).
Proof.
  intros Ha.
  destruct (validate_returns range Ha) as (r & j & cps & Hr & Hp & H1 & H2 & H3).
  exists r, j, cps. repeat (split; [assumption|]).
  destruct H3 as [?|(? & ? & ?)]; [now left|right]. now repeat split.
Qed.

Lemma validate_halts (range : byte_range) (j : Z) (cps : list Z) (e : validation_error) :
  addressable range -> parses accepted range 0 j cps -> any_error e ->
  failure_at range j e ->
  validate range = Some (mk_result e (mk_utf8_range 0 j) (Z.of_nat (length cps))).
Proof. intros. now apply validate_stops. Qed.

(** *** Bytes of sequences *)

Lemma sequence_at_lead (range : byte_range) (i len cp : Z) :
  sequence_at range i len cp -> exists b1, at_ range i = Some b1.
Proof. destruct 1; eauto. Qed.

Lemma byte_of_u8 (b : Byte.byte) : byte_of (u8 b) = b.
Proof. unfold byte_of, u8. rewrite N2Z.id, Byte.of_to_N. reflexivity. Qed.

Lemma at_lookup (range : byte_range) (i x : Z) :
  at_ range i = Some x ->
  exists b, range !! Z.to_nat i = Some b /\ x = u8 b /\ 0 <= i.
Proof.
  unfold at_. case_decide; [|discriminate].
  destruct (range !! Z.to_nat i) as [b|]; [|discriminate].
  simpl. intros [= <-]. eauto.
Qed.

Lemma lookup_at (range : byte_range) (k : nat) (b : Byte.byte) :
  range !! k = Some b -> at_ range (Z.of_nat k) = Some (u8 b).
Proof.
  intros Hk. unfold at_. rewrite decide_True by lia.
  rewrite Nat2Z.id, Hk. reflexivity.
Qed.

Lemma ascii_parses (pre l : byte_range) :
  Forall (fun b => u8 b < 0x80) l ->
  parses accepted (pre ++ l) (size pre) (size (pre ++ l)) (u8 <$> l).
Proof.
  intros Hl. revert pre.
  induction Hl as [|b l Hb _ IH]; intros pre.
  - rewrite app_nil_r. constructor.
  - rewrite fmap_cons. eapply (parses_cons _ _ _ 1).
    + apply sequence1; [rewrite at_app_0; reflexivity|exact Hb].
    + unfold accepted. lia.
    + specialize (IH (pre ++ [b])). rewrite <- !app_assoc in IH. simpl in IH.
      replace (size pre + 1) with (size (pre ++ [b])); [exact IH|].
      rewrite size_app. reflexivity.
Qed.

(** The sequences of the shortest form: [accepted] without the two-byte
    form of 0x7F. *)
Local Abbreviation shortest :=
  (fun len cp : Z => accepted len cp /\ (len = 2 -> 0x80 <= cp)).

Ltac same_byte :=
  match goal with
  | |- ?x = byte_of _ => rewrite <- (byte_of_u8 x) at 1; f_equal; divlia
  end.

Lemma sequence_bytes (range : byte_range) (i len cp : Z) :
  sequence_at range i len cp -> shortest len cp ->
  drop (Z.to_nat i) range = Unicode.encode cp ++ drop (Z.to_nat (i + len)) range.
Proof.
  intros Hs [Hacc H2]. unfold accepted in Hacc.
  destruct Hs as [b1 H1 Hr1|b1 b2 H1 Hb2 Hr1 Hc2|b1 b2 b3 H1 Hb2 Hb3 Hr1 Hc2 Hc3
                 |b1 b2 b3 b4 H1 Hb2 Hb3 Hb4 Hr1 Hc2 Hc3 Hc4];
    repeat match goal with
    | H : continuation _ = true |- _ => apply continuation_range in H
    | H : at_ _ _ = Some _ |- _ =>
        let x := fresh "x" in let Hx := fresh "Hx" in let Hi := fresh "Hi" in
        apply at_lookup in H as (x & Hx & -> & Hi)
    end;
    unfold Unicode.encode.
  - rewrite (proj2 (Z.ltb_lt _ _)) by lia.
    erewrite (drop_S _ _ (Z.to_nat i)) by eassumption.
    simpl. f_equal; [same_byte|]. f_equal. lia.
  - rewrite (proj2 (Z.ltb_ge _ _)) by lia. rewrite (proj2 (Z.ltb_lt _ _)) by lia.
    replace (Z.to_nat (i + 1)) with (S (Z.to_nat i)) in * by lia.
    erewrite (drop_S _ _ (Z.to_nat i)) by eassumption.
    erewrite (drop_S _ _ (S (Z.to_nat i))) by eassumption.
    simpl. repeat (f_equal; [same_byte|]). f_equal. lia.
  - rewrite (proj2 (Z.ltb_ge _ 0x80)) by lia. rewrite (proj2 (Z.ltb_ge _ 0x800)) by lia.
    rewrite (proj2 (Z.ltb_lt _ _)) by lia.
    replace (Z.to_nat (i + 1)) with (S (Z.to_nat i)) in * by lia.
    replace (Z.to_nat (i + 2)) with (S (S (Z.to_nat i))) in * by lia.
    erewrite (drop_S _ _ (Z.to_nat i)) by eassumption.
    erewrite (drop_S _ _ (S (Z.to_nat i))) by eassumption.
    erewrite (drop_S _ _ (S (S (Z.to_nat i)))) by eassumption.
    simpl. repeat (f_equal; [same_byte|]). f_equal. lia.
  - rewrite (proj2 (Z.ltb_ge _ 0x80)) by lia. rewrite (proj2 (Z.ltb_ge _ 0x800)) by lia.
    rewrite (proj2 (Z.ltb_ge _ 0x10000)) by lia.
    replace (Z.to_nat (i + 1)) with (S (Z.to_nat i)) in * by lia.
    replace (Z.to_nat (i + 2)) with (S (S (Z.to_nat i))) in * by lia.
    replace (Z.to_nat (i + 3)) with (S (S (S (Z.to_nat i)))) in * by lia.
    erewrite (drop_S _ _ (Z.to_nat i)) by eassumption.
    erewrite (drop_S _ _ (S (Z.to_nat i))) by eassumption.
    erewrite (drop_S _ _ (S (S (Z.to_nat i)))) by eassumption.
    erewrite (drop_S _ _ (S (S (S (Z.to_nat i))))) by eassumption.
    simpl. repeat (f_equal; [same_byte|]). f_equal. lia.
Qed.

Lemma parses_bytes (range : byte_range) (i j : Z) (cps : list Z) :
  parses shortest range i j cps ->
  drop (Z.to_nat i) range = Unicode.encode_all cps ++ drop (Z.to_nat j) range.
Proof.
  induction 1 as [|i len cp j cps Hs HP _ IH]; [reflexivity|].
  change (Unicode.encode_all (cp :: cps))
    with (Unicode.encode cp ++ Unicode.encode_all cps).
  rewrite (sequence_bytes _ _ _ _ Hs HP), IH, app_assoc. reflexivity.
Qed.

Lemma accepted_shortest (range : byte_range) (i j : Z) (cps : list Z) :
  xc1 ∉ range -> parses accepted range i j cps -> parses shortest range i j cps.
Proof.
  intros Hno. induction 1 as [|i len cp j cps Hs HP Hp IH]; [constructor|].
  econstructor; [exact Hs| |exact IH].
  split; [exact HP|]. intros Hlen. unfold accepted in HP.
  destruct Hs as [| b1 b2 H1 H2 Hr1 Hc2 | |]; try lia.
  apply continuation_range in Hc2.
  apply at_lookup in H1 as (x & Hx & -> & _).
  assert (u8 x <> 0xC1); [|lia].
  intros Hc1. apply Hno.
  rewrite <- (byte_of_u8 x), Hc1 in Hx.
  eapply list_elem_of_lookup_2. exact Hx.
Qed.

Lemma parses_covers (range : byte_range) (i j : Z) (cps : list Z) :
  parses accepted range i j cps ->
  forall k, i <= k < j -> exists x, at_ range k = Some x /\ x <> 0xC0 /\ x < 0xF5.
Proof.
  induction 1 as [|i len cp j cps Hs HP _ IH]; intros k Hk; [lia|].
  destruct (Z.lt_ge_cases k (i + len)) as [Hin|Hout]; [|apply IH; lia].
  unfold accepted in HP.
  destruct Hs;
    repeat match goal with
    | H : continuation _ = true |- _ => apply continuation_range in H
    end.
  - assert (k = i) as -> by lia. eexists. split; [eassumption|lia].
  - assert (k = i \/ k = i + 1) as [-> | ->] by lia;
      (eexists; split; [eassumption|lia]).
  - assert (k = i \/ k = i + 1 \/ k = i + 2) as [-> | [-> | ->]] by lia;
      (eexists; split; [eassumption|lia]).
  - assert (k = i \/ k = i + 1 \/ k = i + 2 \/ k = i + 3) as [-> | [-> | [-> | ->]]] by lia;
      (eexists; split; [eassumption|lia]).
Qed.

Lemma parses_values (P : Z -> Z -> Prop) (range : byte_range) (i j : Z) (cps : list Z) :
  parses P range i j cps -> Forall (fun cp => 0 <= cp < 0x200000) cps.
Proof.
  induction 1 as [|i len cp j cps Hs _ _ IH]; constructor; [|exact IH].
  destruct Hs;
    repeat match goal with
    | H : at_ _ _ = Some _ |- _ => apply at_Some_inv in H
    | H : continuation _ = true |- _ => apply continuation_range in H
    end; lia.
Qed.

(** *** Lead bytes *)

(** The bytes that are no continuation bytes. *)
Local Abbreviation starts_sequence :=
  (fun b : Byte.byte => negb (continuation (u8 b))).

Lemma sequence_segment (range : byte_range) (i len cp : Z) :
  sequence_at range i len cp ->
  exists seg,
    drop (Z.to_nat i) range = seg ++ drop (Z.to_nat (i + len)) range /\
    length seg = Z.to_nat len /\
    length (List.filter starts_sequence seg) = 1%nat.
Proof.
  intros Hs.
  assert (Hlead : forall x, u8 x < 0x80 \/ 0xC0 <= u8 x -> starts_sequence x = true).
  { intros x Hx. unfold continuation.
    destruct (Z.leb_spec 0x80 (u8 x)); destruct (Z.ltb_spec (u8 x) 0xC0);
      try reflexivity; lia. }
  destruct Hs as [b1 H1 Hr1|b1 b2 H1 Hb2 Hr1 Hc2|b1 b2 b3 H1 Hb2 Hb3 Hr1 Hc2 Hc3
                 |b1 b2 b3 b4 H1 Hb2 Hb3 Hb4 Hr1 Hc2 Hc3 Hc4];
    repeat match goal with
    | H : at_ _ _ = Some _ |- _ =>
        let x := fresh "x" in let Hx := fresh "Hx" in let Hi := fresh "Hi" in
        apply at_lookup in H as (x & Hx & -> & Hi)
    end;
    replace (Z.to_nat (i + 1)) with (S (Z.to_nat i)) in * by lia;
    replace (Z.to_nat (i + 2)) with (S (S (Z.to_nat i))) in * by lia;
    replace (Z.to_nat (i + 3)) with (S (S (S (Z.to_nat i)))) in * by lia;
    replace (Z.to_nat (i + 4)) with (S (S (S (S (Z.to_nat i))))) in * by lia.
  - eexists [_]. split; [erewrite (drop_S _ _ (Z.to_nat i)) by eassumption; reflexivity|].
    split; [reflexivity|]. simpl. rewrite Hlead by lia. reflexivity.
  - eexists [_; _]. split.
    { erewrite (drop_S _ _ (Z.to_nat i)) by eassumption.
      erewrite (drop_S _ _ (S (Z.to_nat i))) by eassumption. reflexivity. }
    split; [reflexivity|]. simpl. rewrite Hlead, Hc2 by lia. reflexivity.
  - eexists [_; _; _]. split.
    { erewrite (drop_S _ _ (Z.to_nat i)) by eassumption.
      erewrite (drop_S _ _ (S (Z.to_nat i))) by eassumption.
      erewrite (drop_S _ _ (S (S (Z.to_nat i)))) by eassumption. reflexivity. }
    split; [reflexivity|]. simpl. rewrite Hlead, Hc2, Hc3 by lia. reflexivity.
  - eexists [_; _; _; _]. split.
    { erewrite (drop_S _ _ (Z.to_nat i)) by eassumption.
      erewrite (drop_S _ _ (S (Z.to_nat i))) by eassumption.
      erewrite (drop_S _ _ (S (S (Z.to_nat i)))) by eassumption.
      erewrite (drop_S _ _ (S (S (S (Z.to_nat i))))) by eassumption. reflexivity. }
    split; [reflexivity|]. simpl. rewrite Hlead, Hc2, Hc3, Hc4 by lia. reflexivity.
Qed.

Lemma parses_leads (P : Z -> Z -> Prop) (range : byte_range) (i j : Z) (cps : list Z) :
  parses P range i j cps ->
  length (List.filter starts_sequence (take (Z.to_nat (j - i)) (drop (Z.to_nat i) range)))
  = length cps.
Proof.
  induction 1 as [i|i len cp j cps Hs _ Hp IH].
  - rewrite Z.sub_diag. reflexivity.
  - pose proof (parses_length _ _ _ _ _ Hp) as Hl.
    pose proof (sequence_at_bounds _ _ _ _ Hs) as Hb.
    destruct (sequence_segment _ _ _ _ Hs) as (seg & Hdrop & Hlen & Hone).
    rewrite Hdrop, take_app_ge by lia.
    rewrite List.filter_app, length_app, Hone.
    replace (Z.to_nat (j - i) - length seg)%nat with (Z.to_nat (j - (i + len))) by lia.
    rewrite IH. reflexivity.
Qed.

(** *** The decoder on bytes that are no sequences *)

Section Overshoot.
Variable NDEBUG : bool.
Variable mem : byte_range.

Lemma incr_forward (it it' : iterator) :
  incr NDEBUG mem it = Some it' -> str_ it < str_ it'.
Proof.
  unfold incr, assert_false_then.
  destruct (byte mem it 0); simpl; [|discriminate].
  repeat case_match; intros; simplify_eq; simpl; lia.
Qed.

Lemma past_the_end (fuel : nat) (i last : Z) :
  last < i -> codepoints_from NDEBUG mem fuel (mk_iterator i) (mk_iterator last) = None.
Proof.
  revert i. induction fuel as [|fuel IH]; intros i Hi; simpl.
  - rewrite decide_False by (intros [=]; lia). reflexivity.
  - rewrite decide_False by (intros [=]; lia).
    destruct (deref mem (mk_iterator i)); simpl; [|reflexivity].
    destruct (incr NDEBUG mem (mk_iterator i)) as [[m]|] eqn:E; simpl; [|reflexivity].
    apply incr_forward in E. simpl in E. rewrite IH by lia. reflexivity.
Qed.

Lemma lead_incr (i b1 : Z) :
  at_ mem i = Some b1 -> 0xC0 <= b1 < 0xF8 ->
  incr NDEBUG mem (mk_iterator i) = Some (mk_iterator (i + lead_length b1)).
Proof.
  intros Hb Hr. unfold incr, byte. simpl. rewrite Z.add_0_r, Hb. simpl.
  unfold lead_length.
  repeat match goal with
  | |- context [?a <=? ?b] => destruct (Z.leb_spec a b); try lia
  | |- context [?a <? ?b] => destruct (Z.ltb_spec a b); try lia
  end; reflexivity.
Qed.

Lemma cut_sequence (P : Z -> Z -> Prop) (i j last b1 : Z) (cps : list Z) (fuel : nat) :
  parses P mem i j cps ->
  at_ mem j = Some b1 -> 0xC0 <= b1 < 0xF8 ->
  j < last < j + lead_length b1 ->
  codepoints_from NDEBUG mem fuel (mk_iterator i) (mk_iterator last) = None.
Proof.
  intros Hp Hb Hr Hcut. revert fuel.
  induction Hp as [i|i len cp j cps Hs HP Hp IH]; intros fuel.
  - destruct fuel as [|fuel]; simpl;
      rewrite decide_False by (intros [=]; lia); [reflexivity|].
    destruct (deref mem (mk_iterator i)); simpl; [|reflexivity].
    rewrite (lead_incr _ _ Hb Hr). simpl.
    rewrite past_the_end by lia. reflexivity.
  - pose proof (parses_length _ _ _ _ _ Hp) as Hl.
    pose proof (sequence_at_bounds _ _ _ _ Hs) as Hbd.
    destruct fuel as [|fuel]; simpl;
      rewrite decide_False by (intros [=]; lia); [reflexivity|].
    rewrite (sequence_deref _ _ _ _ Hs). simpl.
    rewrite (sequence_incr NDEBUG _ _ _ _ Hs). simpl.
    rewrite IH by assumption. reflexivity.
Qed.
End Overshoot.


(** ** What [validate] and [validate_quick] report, sequence by sequence *)

(** X1. After any bytes [validate] accepts, a sequence of two bytes for a
    value below 0x7F, of three bytes for a value up to 0x7FF or of four
    bytes for a value up to 0xFFFF makes [validate] return
    [overlong_enocoding]; the prefix range ends where the sequence starts
    and the count is the count of the bytes before it. *)
Theorem overlong_sequence_is_reported (good tail : byte_range) (r : validation_result)
    (len cp : Z) :
  addressable (good ++ tail) ->
  validate good = Some r -> error r = success ->
  sequence_at tail 0 len cp ->
  (len = 2 /\ cp < 0x7F \/ len = 3 /\ cp <= 0x7FF \/ len = 4 /\ cp <= 0xFFFF) ->
  validate (good ++ tail)
  = Some (mk_result overlong_enocoding (mk_utf8_range 0 (size good)) (codepoint_count r)).
Proof.
  intros Ha Hv Hok Hs Hover.
  apply (after_prefix validate accepted any_error validate_fits validate_halts
           good tail r overlong_enocoding Ha Hv Hok I).
  destruct (sequence_at_lead _ _ _ _ Hs) as [b1 Hb1].
  exists b1. split; [exact Hb1|]. exists len, cp. split; [exact Hs|exact Hover].
Qed.

Lemma overlong_sequence_is_reported_witness :
  validate ([x41; xc3; xa9] ++ [xe0; x9f; xbf; x42])
  = Some (mk_result overlong_enocoding (mk_utf8_range 0 3) 2).
Proof.
  assert (Ha : addressable ([x41; xc3; xa9] ++ [xe0; x9f; xbf; x42])).
  { unfold addressable. vm_compute. discriminate. }
  assert (Hs : sequence_at [xe0; x9f; xbf; x42] 0 3 0x7FF).
  { eapply sequence_at_eq; [eapply (sequence3 _ _ 0xE0 0x9F 0xBF)|];
      try reflexivity; lia. }
  exact (overlong_sequence_is_reported [x41; xc3; xa9] [xe0; x9f; xbf; x42]
           (mk_result success (mk_utf8_range 0 3) 2) 3 0x7FF Ha eq_refl eq_refl Hs
           ltac:(lia)).
Defined.

(** X2. After any bytes [validate] accepts, a four-byte sequence whose
    payload is above 0x10FFFF makes [validate] return [invalid_codepoint]
    at the offset where the sequence starts. *)
Theorem large_code_point_is_reported (good tail : byte_range) (r : validation_result)
    (cp : Z) :
  addressable (good ++ tail) ->
  validate good = Some r -> error r = success ->
  sequence_at tail 0 4 cp -> 0x10FFFF < cp ->
  validate (good ++ tail)
  = Some (mk_result invalid_codepoint (mk_utf8_range 0 (size good)) (codepoint_count r)).
Proof.
  intros Ha Hv Hok Hs Hbig.
  apply (after_prefix validate accepted any_error validate_fits validate_halts
           good tail r invalid_codepoint Ha Hv Hok I).
  destruct (sequence_at_lead _ _ _ _ Hs) as [b1 Hb1].
  exists b1. split; [exact Hb1|]. exists cp. split; [exact Hs|exact Hbig].
Qed.

Lemma large_code_point_is_reported_witness :
  validate ([xe2; x82; xac] ++ [xf4; x90; x80; x80])
  = Some (mk_result invalid_codepoint (mk_utf8_range 0 3) 1).
Proof.
  assert (Ha : addressable ([xe2; x82; xac] ++ [xf4; x90; x80; x80])).
  { unfold addressable. vm_compute. discriminate. }
  assert (Hs : sequence_at [xf4; x90; x80; x80] 0 4 0x110000).
  { eapply sequence_at_eq; [eapply (sequence4 _ _ 0xF4 0x90 0x80 0x80)|];
      try reflexivity; lia. }
  exact (large_code_point_is_reported [xe2; x82; xac] [xf4; x90; x80; x80]
           (mk_result success (mk_utf8_range 0 3) 1) 0x110000 Ha eq_refl eq_refl Hs
           ltac:(lia)).
Defined.

(** X3. When the bytes left from a lead byte on are fewer than the length
    the lead byte announces, both validators return [unexpected_end] at the
    offset of the lead byte, whatever the bytes after the lead byte are: the
    test of the size comes before the test of the continuation bytes. *)
Theorem truncated_sequence_is_reported (good : byte_range) (b1 : Byte.byte)
    (rest : byte_range) :
  addressable (good ++ b1 :: rest) ->
  0xC0 <= u8 b1 < 0xF8 ->
  size (b1 :: rest) < lead_length (u8 b1) ->
  (forall r, validate good = Some r -> error r = success ->
     validate (good ++ b1 :: rest)
     = Some (mk_result unexpected_end (mk_utf8_range 0 (size good)) (codepoint_count r)))
  /\ (forall r, validate_quick good = Some r -> error r = success ->
        validate_quick (good ++ b1 :: rest)
        = Some (mk_result unexpected_end (mk_utf8_range 0 (size good))
                  (codepoint_count r))).
Proof.
  intros Ha Hlead Hshort.
  assert (Hf : failure_at (b1 :: rest) 0 unexpected_end).
  { exists (u8 b1). split; [reflexivity|]. split; [exact Hlead|lia]. }
  split; intros r Hv Hok.
  - exact (after_prefix validate accepted any_error validate_fits validate_halts
             _ _ r _ Ha Hv Hok I Hf).
  - apply (after_prefix validate_quick any_sequence structural validate_quick_returns
             validate_quick_stops _ _ r _ Ha Hv Hok); [split; discriminate|exact Hf].
Qed.

Lemma truncated_sequence_is_reported_witness :
  validate ([x41] ++ [xe2; x41])
  = Some (mk_result unexpected_end (mk_utf8_range 0 1) 1)
  /\ validate_quick ([x41] ++ [xe2; x41])
     = Some (mk_result unexpected_end (mk_utf8_range 0 1) 1).
Proof.
  assert (Ha : addressable ([x41] ++ [xe2; x41])).
  { unfold addressable. vm_compute. discriminate. }
  destruct (truncated_sequence_is_reported [x41] xe2 [x41] Ha
              ltac:(vm_compute; split; [discriminate|reflexivity])
              ltac:(vm_compute; reflexivity))
    as [Hv Hq].
  split.
  - exact (Hv (mk_result success (mk_utf8_range 0 1) 1) eq_refl eq_refl).
  - exact (Hq (mk_result success (mk_utf8_range 0 1) 1) eq_refl eq_refl).
Defined.

(** X4. When all the bytes a lead byte announces are there but one of them
    is no continuation byte, both validators return
    [unexpected_non_continuation_byte], and the prefix range ends at the
    lead byte, not at the byte that is no continuation. *)
Theorem broken_sequence_is_reported (good tail : byte_range) (b1 k b : Z) :
  addressable (good ++ tail) ->
  at_ tail 0 = Some b1 -> 0xC0 <= b1 < 0xF8 -> lead_length b1 <= size tail ->
  1 <= k < lead_length b1 -> at_ tail k = Some b -> continuation b = false ->
  (forall r, validate good = Some r -> error r = success ->
     validate (good ++ tail)
     = Some (mk_result unexpected_non_continuation_byte (mk_utf8_range 0 (size good))
               (codepoint_count r)))
  /\ (forall r, validate_quick good = Some r -> error r = success ->
        validate_quick (good ++ tail)
        = Some (mk_result unexpected_non_continuation_byte (mk_utf8_range 0 (size good))
                  (codepoint_count r))).
Proof.
  intros Ha Hb1 Hlead Hall Hk Hb Hc.
  assert (Hf : failure_at tail 0 unexpected_non_continuation_byte).
  { exists b1. split; [exact Hb1|]. split; [exact Hlead|]. split; [lia|].
    exists k, b. split; [exact Hk|]. split; [exact Hb|exact Hc]. }
  split; intros r Hv Hok.
  - exact (after_prefix validate accepted any_error validate_fits validate_halts
             _ _ r _ Ha Hv Hok I Hf).
  - apply (after_prefix validate_quick any_sequence structural validate_quick_returns
             validate_quick_stops _ _ r _ Ha Hv Hok); [split; discriminate|exact Hf].
Qed.

Lemma broken_sequence_is_reported_witness :
  validate ([x41; x42] ++ [xe2; x82; x41; x43])
  = Some (mk_result unexpected_non_continuation_byte (mk_utf8_range 0 2) 2)
  /\ validate_quick ([x41; x42] ++ [xe2; x82; x41; x43])
     = Some (mk_result unexpected_non_continuation_byte (mk_utf8_range 0 2) 2).
Proof.
  assert (Ha : addressable ([x41; x42] ++ [xe2; x82; x41; x43])).
  { unfold addressable. vm_compute. discriminate. }
  destruct (broken_sequence_is_reported [x41; x42] [xe2; x82; x41; x43] 0xE2 2 0x41 Ha
              eq_refl ltac:(lia) ltac:(vm_compute; discriminate)
              ltac:(vm_compute; split; [discriminate|reflexivity])
              eq_refl eq_refl)
    as [Hv Hq].
  split.
  - exact (Hv (mk_result success (mk_utf8_range 0 2) 2) eq_refl eq_refl).
  - exact (Hq (mk_result success (mk_utf8_range 0 2) 2) eq_refl eq_refl).
Defined.

(** X5. Where a sequence should start, a continuation byte (0x80 to 0xBF)
    makes both validators return [unexpected_continuation_byte] and a byte
    from 0xF8 on makes them return [invalid_byte], with the prefix range
    ending at that byte. *)
Theorem stray_byte_is_reported (good tail : byte_range) (b1 : Z) :
  addressable (good ++ tail) ->
  at_ tail 0 = Some b1 -> 0x80 <= b1 < 0xC0 \/ 0xF8 <= b1 ->
  (forall r, validate good = Some r -> error r = success ->
     validate (good ++ tail)
     = Some (mk_result
               (if b1 <? 0xC0 then unexpected_continuation_byte else invalid_byte)
               (mk_utf8_range 0 (size good)) (codepoint_count r)))
  /\ (forall r, validate_quick good = Some r -> error r = success ->
        validate_quick (good ++ tail)
        = Some (mk_result
                  (if b1 <? 0xC0 then unexpected_continuation_byte else invalid_byte)
                  (mk_utf8_range 0 (size good)) (codepoint_count r))).
Proof.
  intros Ha Hb1 Hkind.
  assert (Hf : failure_at tail 0
                 (if b1 <? 0xC0 then unexpected_continuation_byte else invalid_byte)).
  { exists b1. split; [exact Hb1|]. destruct (Z.ltb_spec b1 0xC0); lia. }
  assert (Hst : structural
                  (if b1 <? 0xC0 then unexpected_continuation_byte else invalid_byte)).
  { destruct (b1 <? 0xC0); split; discriminate. }
  split; intros r Hv Hok.
  - exact (after_prefix validate accepted any_error validate_fits validate_halts
             _ _ r _ Ha Hv Hok I Hf).
  - exact (after_prefix validate_quick any_sequence structural validate_quick_returns
             validate_quick_stops _ _ r _ Ha Hv Hok Hst Hf).
Qed.

Lemma stray_byte_is_reported_witness :
  validate ([xc3; xa9] ++ [xbf; x41])
  = Some (mk_result unexpected_continuation_byte (mk_utf8_range 0 2) 1)
  /\ validate_quick ([xc3; xa9] ++ [xff])
     = Some (mk_result invalid_byte (mk_utf8_range 0 2) 1).
Proof.
  assert (Ha : addressable ([xc3; xa9] ++ [xbf; x41])).
  { unfold addressable. vm_compute. discriminate. }
  assert (Ha' : addressable ([xc3; xa9] ++ [xff])).
  { unfold addressable. vm_compute. discriminate. }
  split.
  - exact (proj1 (stray_byte_is_reported [xc3; xa9] [xbf; x41] 0xBF Ha eq_refl
                    ltac:(lia))
             (mk_result success (mk_utf8_range 0 2) 1) eq_refl eq_refl).
  - exact (proj2 (stray_byte_is_reported [xc3; xa9] [xff] 0xFF Ha' eq_refl
                    ltac:(lia))
             (mk_result success (mk_utf8_range 0 2) 1) eq_refl eq_refl).
Defined.

(** ** Ranges in pieces *)

(** X6. Validation composes over concatenation: when a validator accepts
    [a], its result on [a ++ b] is its result on [b] with the prefix range
    extended by the size of [a] and the count increased by the count of
    [a]. *)
Theorem validation_of_concatenation (a b : byte_range) :
  addressable (a ++ b) ->
  (forall ra, validate a = Some ra -> error ra = success ->
     exists rb,
       validate b = Some rb /\
       validate (a ++ b)
       = Some (mk_result (error rb)
                 (mk_utf8_range 0 (size a + byte_count_ (Utf8.range rb)))
                 (codepoint_count ra + codepoint_count rb)))
  /\ (forall ra, validate_quick a = Some ra -> error ra = success ->
        exists rb,
          validate_quick b = Some rb /\
          validate_quick (a ++ b)
          = Some (mk_result (error rb)
                    (mk_utf8_range 0 (size a + byte_count_ (Utf8.range rb)))
                    (codepoint_count ra + codepoint_count rb))).
Proof.
  intros Ha. split; intros ra Hv Hok.
  - exact (concatenation validate accepted any_error validate_fits validate_parses
             validate_halts a b ra Ha Hv Hok).
  - exact (concatenation validate_quick any_sequence structural validate_quick_returns
             validate_quick_parses validate_quick_stops a b ra Ha Hv Hok).
Qed.

Lemma validation_of_concatenation_witness :
  exists rb,
    validate [x42; xf0; x9f] = Some rb /\
    validate ([xe2; x82; xac; x41] ++ [x42; xf0; x9f])
    = Some (mk_result (error rb) (mk_utf8_range 0 (4 + byte_count_ (Utf8.range rb)))
              (2 + codepoint_count rb)).
Proof.
  assert (Ha : addressable ([xe2; x82; xac; x41] ++ [x42; xf0; x9f])).
  { unfold addressable. vm_compute. discriminate. }
  exact (proj1 (validation_of_concatenation [xe2; x82; xac; x41] [x42; xf0; x9f] Ha)
           (mk_result success (mk_utf8_range 0 4) 2) eq_refl eq_refl).
Defined.

(** X7. A failure other than [unexpected_end] is final: when a validator
    fails on [a] with any other kind, it returns the very same result, with
    the same prefix range and count, on [a] followed by any further
    bytes. *)
Theorem failure_is_final (a b : byte_range) :
  addressable (a ++ b) ->
  (forall r, validate a = Some r ->
     error r <> success -> error r <> unexpected_end -> validate (a ++ b) = Some r)
  /\ (forall r, validate_quick a = Some r ->
        error r <> success -> error r <> unexpected_end ->
        validate_quick (a ++ b) = Some r).
Proof.
  intros Ha. split; intros r Hv Hne Hend.
  - exact (final_failure validate accepted any_error validate_fits validate_halts
             a b r Ha Hv Hne Hend).
  - exact (final_failure validate_quick any_sequence structural validate_quick_returns
             validate_quick_stops a b r Ha Hv Hne Hend).
Qed.

Lemma failure_is_final_witness :
  validate ([x41; xe2; x41; x42] ++ [x82; xac])
  = Some (mk_result unexpected_non_continuation_byte (mk_utf8_range 0 1) 1).
Proof.
  assert (Ha : addressable ([x41; xe2; x41; x42] ++ [x82; xac])).
  { unfold addressable. vm_compute. discriminate. }
  exact (proj1 (failure_is_final [x41; xe2; x41; x42] [x82; xac] Ha)
           (mk_result unexpected_non_continuation_byte (mk_utf8_range 0 1) 1)
           eq_refl ltac:(discriminate) ltac:(discriminate)).
Defined.

(** ** The two validators side by side *)

(** X8. [validate] never gets further than [validate_quick]: on the same
    bytes its prefix range is no longer and its count no larger, and when
    the two prefix ranges have the same length the counts are equal. *)
Theorem validate_stops_no_later (range : byte_range) :
  addressable range ->
  exists r rq,
    validate range = Some r /\ validate_quick range = Some rq /\
    byte_count_ (Utf8.range r) <= byte_count_ (Utf8.range rq) /\
    codepoint_count r <= codepoint_count rq /\
    (byte_count_ (Utf8.range r) = byte_count_ (Utf8.range rq) ->
     codepoint_count r = codepoint_count rq).
Proof.
  intros Ha.
  destruct (validate_returns range Ha) as (r & j & cps & Hr & Hp & H1 & H2 & H3).
  destruct (validate_quick_returns range Ha)
    as (rq & j' & cps' & Hq & Hp' & H1' & H2' & H3').
  exists r, rq. split; [exact Hr|]. split; [exact Hq|].
  rewrite H1, H2, H1', H2'. simpl.
  assert (Hle : j <= j').
  { destruct (Z.le_gt_cases j j') as [|Hgt]; [assumption|exfalso].
    destruct H3' as [[_ ->]|(_ & _ & Hst & Hf)].
    - destruct H3 as [[_ ->]|(_ & ? & _)]; lia.
    - destruct (parses_split _ _ _ _ _ _ _ _ Hp' Hp) as (rest & Hrest & _); [lia|].
      inversion Hrest as [|? len cp ? ? Hs _ _]; subst; [lia|].
      exact (failure_excludes_sequence _ _ _ _ _ Hst Hf Hs). }
  destruct (parses_split _ _ _ _ _ _ _ _ Hp Hp' Hle) as (rest & Hrest & ->).
  rewrite length_app. apply parses_length in Hrest.
  split; [exact Hle|]. split; lia.
Qed.

Lemma validate_stops_no_later_witness :
  exists r rq,
    validate [x41; xc0; x80; x42; xff] = Some r /\
    validate_quick [x41; xc0; x80; x42; xff] = Some rq /\
    byte_count_ (Utf8.range r) <= byte_count_ (Utf8.range rq) /\
    codepoint_count r <= codepoint_count rq.
Proof.
  assert (Ha : addressable [x41; xc0; x80; x42; xff]).
  { unfold addressable. vm_compute. discriminate. }
  destruct (validate_stops_no_later [x41; xc0; x80; x42; xff] Ha)
    as (r & rq & Hr & Hq & Hb & Hc & _).
  exists r, rq. repeat split; assumption.
Defined.

(** X9. Every result of either validator, failing or not, has a prefix
    range that starts at the start of the input and is no longer than the
    input, and a count between a quarter of the length of the prefix and
    that length: a code point takes one to four bytes. *)
Theorem counts_and_bytes (range : byte_range) :
  addressable range ->
  (exists r,
     validate range = Some r /\
     start_ (Utf8.range r) = 0 /\
     0 <= codepoint_count r <= byte_count_ (Utf8.range r) /\
     byte_count_ (Utf8.range r) <= 4 * codepoint_count r /\
     byte_count_ (Utf8.range r) <= size range)
  /\ (exists r,
        validate_quick range = Some r /\
        start_ (Utf8.range r) = 0 /\
        0 <= codepoint_count r <= byte_count_ (Utf8.range r) /\
        byte_count_ (Utf8.range r) <= 4 * codepoint_count r /\
        byte_count_ (Utf8.range r) <= size range).
Proof.
  intros Ha. split.
  - exact (measures validate accepted any_error validate_fits range Ha).
  - exact (measures validate_quick any_sequence structural validate_quick_returns
             range Ha).
Qed.

Lemma counts_and_bytes_witness :
  exists r,
    validate [xf0; x9f; x98; x80; xe2; x82] = Some r /\
    0 <= codepoint_count r <= byte_count_ (Utf8.range r) /\
    byte_count_ (Utf8.range r) <= 4 * codepoint_count r.
Proof.
  assert (Ha : addressable [xf0; x9f; x98; x80; xe2; x82]).
  { unfold addressable. vm_compute. discriminate. }
  destruct (proj1 (counts_and_bytes [xf0; x9f; x98; x80; xe2; x82] Ha))
    as (r & Hr & _ & Hc & Hb & _).
  exists r. repeat split; solve [assumption | apply Hc].
Defined.

(** X10. [codepoint_count] counts lead bytes: in every result of either
    validator it is the number of bytes of the prefix range that are no
    continuation bytes (that are not in 0x80 to 0xBF). *)
Theorem count_is_lead_bytes (range : byte_range) :
  addressable range ->
  (exists r,
     validate range = Some r /\
     codepoint_count r
     = Z.of_nat (length (List.filter (fun b => negb (continuation (u8 b)))
                           (take (Z.to_nat (byte_count_ (Utf8.range r))) range))))
  /\ (exists r,
        validate_quick range = Some r /\
        codepoint_count r
        = Z.of_nat (length (List.filter (fun b => negb (continuation (u8 b)))
                              (take (Z.to_nat (byte_count_ (Utf8.range r))) range)))).
Proof.
  intros Ha. split.
  - destruct (validate_returns range Ha) as (r & j & cps & Hr & Hp & H1 & H2 & _).
    exists r. split; [exact Hr|]. rewrite H1, H2. simpl.
    apply parses_leads in Hp. rewrite Z.sub_0_r in Hp.
    change (Z.to_nat 0) with O in Hp. rewrite drop_0 in Hp.
    rewrite Hp. reflexivity.
  - destruct (validate_quick_returns range Ha) as (r & j & cps & Hr & Hp & H1 & H2 & _).
    exists r. split; [exact Hr|]. rewrite H1, H2. simpl.
    apply parses_leads in Hp. rewrite Z.sub_0_r in Hp.
    change (Z.to_nat 0) with O in Hp. rewrite drop_0 in Hp.
    rewrite Hp. reflexivity.
Qed.

Lemma count_is_lead_bytes_witness :
  exists r,
    validate [xe2; x82; xac; x41; xc3; xa9; x80] = Some r /\
    codepoint_count r
    = Z.of_nat (length (List.filter (fun b => negb (continuation (u8 b)))
                          (take (Z.to_nat (byte_count_ (Utf8.range r)))
                             [xe2; x82; xac; x41; xc3; xa9; x80]))).
Proof.
  assert (Ha : addressable [xe2; x82; xac; x41; xc3; xa9; x80]).
  { unfold addressable. vm_compute. discriminate. }
  exact (proj1 (count_is_lead_bytes [xe2; x82; xac; x41; xc3; xa9; x80] Ha)).
Defined.

(** X11. On bytes that are all below 0x80 both validators return
    [success] with the whole input as prefix range and one code point for
    each byte, and the decoder produces the values of the bytes. The empty
    input is the case of no bytes. *)
Theorem ascii_is_accepted (NDEBUG : bool) (range : byte_range) :
  addressable range ->
  Forall (fun b => u8 b < 0x80) range ->
  validate range = Some (mk_result success (mk_utf8_range 0 (size range)) (size range))
  /\ validate_quick range
     = Some (mk_result success (mk_utf8_range 0 (size range)) (size range))
  /\ codepoints NDEBUG range (mk_utf8_range 0 (size range)) = Some (u8 <$> range).
Proof.
  intros Ha Hascii.
  pose proof (ascii_parses [] range Hascii) as Hp. simpl in Hp.
  assert (Hn : Z.of_nat (length (u8 <$> range)) = size range).
  { rewrite length_fmap. reflexivity. }
  split; [|split].
  - rewrite (validate_parses _ _ Ha Hp), Hn. reflexivity.
  - rewrite (validate_quick_parses range (u8 <$> range) Ha), Hn; [reflexivity|].
    eapply parses_weaken; [|exact Hp]. intros; exact I.
  - unfold codepoints, begin, end_. simpl.
    eapply parses_codepoints; [exact Hp|]. rewrite length_fmap. unfold size. lia.
Qed.

Lemma ascii_is_accepted_witness :
  validate [x6c; x6f; x73] = Some (mk_result success (mk_utf8_range 0 3) 3)
  /\ validate_quick [x6c; x6f; x73] = Some (mk_result success (mk_utf8_range 0 3) 3)
  /\ codepoints false [x6c; x6f; x73] (mk_utf8_range 0 3) = Some [0x6C; 0x6F; 0x73].
Proof.
  assert (Ha : addressable [x6c; x6f; x73]).
  { unfold addressable. vm_compute. discriminate. }
  assert (Hascii : Forall (fun b => u8 b < 0x80) [x6c; x6f; x73]).
  { repeat constructor. }
  exact (ascii_is_accepted false [x6c; x6f; x73] Ha Hascii).
Defined.

(** ** What [validate] accepts *)

(** X12. [validate] makes no test for surrogates: it accepts the
    concatenation of the shortest-form encodings of any code points from 0
    to 0x10FFFF, those from 0xD800 to 0xDFFF included, with the number of
    code points as count and the whole input as prefix range. *)
Theorem every_code_point_is_accepted (cps : list Z) :
  Forall Unicode.code_point cps ->
  addressable (Unicode.encode_all cps) ->
  validate (Unicode.encode_all cps)
  = Some (mk_result success (mk_utf8_range 0 (size (Unicode.encode_all cps)))
            (Z.of_nat (length cps)))
  /\ validate_quick (Unicode.encode_all cps)
     = Some (mk_result success (mk_utf8_range 0 (size (Unicode.encode_all cps)))
               (Z.of_nat (length cps))).
Proof.
  intros Hcps Ha.
  pose proof (encode_all_parses [] cps Hcps) as Hp. simpl in Hp.
  split; [now apply validate_parses|].
  apply validate_quick_parses; [exact Ha|].
  eapply parses_weaken; [|exact Hp]. intros; exact I.
Qed.

Lemma every_code_point_is_accepted_witness :
  validate (Unicode.encode_all [0xDFFF; 0x7F; 0x80; 0x10FFFF])
  = Some (mk_result success (mk_utf8_range 0 10) 4).
Proof.
  assert (Hcps : Forall Unicode.code_point [0xDFFF; 0x7F; 0x80; 0x10FFFF]).
  { repeat constructor; unfold Unicode.code_point; lia. }
  assert (Ha : addressable (Unicode.encode_all [0xDFFF; 0x7F; 0x80; 0x10FFFF])).
  { unfold addressable. vm_compute. discriminate. }
  exact (proj1 (every_code_point_is_accepted [0xDFFF; 0x7F; 0x80; 0x10FFFF] Hcps Ha)).
Defined.

(** X13. Every input [validate] accepts that holds no byte 0xC1 is the
    concatenation of the shortest-form encodings of the code points the
    decoder produces from it: encoding what was decoded gives the input
    back. (The byte 0xC1 only occurs in the two-byte form of 0x7F.) *)
Theorem accepted_input_is_encoding (NDEBUG : bool) (range : byte_range)
    (r : validation_result) :
  addressable range ->
  validate range = Some r -> error r = success ->
  xc1 ∉ range ->
  exists cps,
    codepoints NDEBUG range (Utf8.range r) = Some cps /\
    Forall Unicode.code_point cps /\
    Unicode.encode_all cps = range.
Proof.
  intros Ha Hv Hok Hno.
  destruct (validate_returns range Ha) as (r' & j & cps & Hr & Hp & H1 & _ & H3).
  assert (r' = r) as -> by congruence.
  destruct H3 as [[_ ->]|[Hne _]]; [|contradiction].
  pose proof (parses_length _ _ _ _ _ Hp) as Hl.
  exists cps. rewrite H1. unfold codepoints, begin, end_. simpl.
  split; [eapply parses_codepoints; [exact Hp|lia]|].
  split; [eapply parses_code_points; exact Hp|].
  pose proof (parses_bytes _ _ _ _ (accepted_shortest _ _ _ _ Hno Hp)) as Hb.
  simpl in Hb. unfold size in Hb. rewrite Nat2Z.id, drop_all, app_nil_r in Hb.
  symmetry. exact Hb.
Qed.

Lemma accepted_input_is_encoding_witness :
  exists cps,
    codepoints false [xed; xa0; x80; xc2; x80; x7f] (mk_utf8_range 0 6) = Some cps /\
    Unicode.encode_all cps = [xed; xa0; x80; xc2; x80; x7f].
Proof.
  assert (Ha : addressable [xed; xa0; x80; xc2; x80; x7f]).
  { unfold addressable. vm_compute. discriminate. }
  assert (Hno : xc1 ∉ [xed; xa0; x80; xc2; x80; x7f]).
  { rewrite !not_elem_of_cons. repeat split; try discriminate. apply not_elem_of_nil. }
  destruct (accepted_input_is_encoding false [xed; xa0; x80; xc2; x80; x7f]
              (mk_result success (mk_utf8_range 0 6) 3) Ha eq_refl eq_refl Hno)
    as (cps & Hc & _ & He).
  exists cps. split; [exact Hc|exact He].
Defined.

(** X14. No byte of the prefix range [validate] returns, on success the
    whole input, is 0xC0 or above 0xF4: [validate] never lets a lead byte
    through that only overlong forms or values above 0x10FFFF start
    with. *)
Theorem accepted_prefix_bytes (range : byte_range) (r : validation_result)
    (b : Byte.byte) :
  addressable range ->
  validate range = Some r ->
  b ∈ take (Z.to_nat (byte_count_ (Utf8.range r))) range ->
  u8 b <> 0xC0 /\ u8 b < 0xF5.
Proof.
  intros Ha Hv Hin.
  destruct (validate_returns range Ha) as (r' & j & cps & Hr & Hp & H1 & _ & _).
  assert (r' = r) as -> by congruence.
  rewrite H1 in Hin. simpl in Hin.
  apply elem_of_take in Hin as (k & Hk & Hlt).
  destruct (parses_covers _ _ _ _ Hp (Z.of_nat k)) as (x & Hx & Hgood).
  { apply parses_length in Hp. lia. }
  rewrite (lookup_at _ _ _ Hk) in Hx. injection Hx as <-. exact Hgood.
Qed.

Lemma accepted_prefix_bytes_witness : u8 xf4 <> 0xC0 /\ u8 xf4 < 0xF5.
Proof.
  assert (Ha : addressable [x41; xf4; x8f; xbf; xbf; xf5]).
  { unfold addressable. vm_compute. discriminate. }
  assert (Hin : xf4 ∈ take (Z.to_nat 5) [x41; xf4; x8f; xbf; xbf; xf5]).
  { simpl. rewrite !elem_of_cons. right. left. reflexivity. }
  exact (accepted_prefix_bytes [x41; xf4; x8f; xbf; xbf; xf5]
           (mk_result unexpected_end (mk_utf8_range 0 5) 2) xf4 Ha eq_refl Hin).
Defined.

(** ** The decoder *)

(** X15. [validate_quick] is enough for the decoder: on every range it
    accepts with count [n], the range-[for] over the returned range reads
    inside the input only, reaches no [assert(false)], also when
    assertions are compiled in, and after exactly [n] steps, none fewer,
    the iterator equals the end of the range. The code points it produces
    are below 2^21; they need not be code points of Unicode. *)
Theorem quick_validated_decodes (NDEBUG : bool) (range : byte_range)
    (r : validation_result) :
  addressable range ->
  validate_quick range = Some r -> error r = success ->
  exists cps,
    codepoints NDEBUG range (Utf8.range r) = Some cps /\
    Z.of_nat (length cps) = codepoint_count r /\
    end_ (Utf8.range r) = mk_iterator (size range) /\
    advance NDEBUG range (length cps) (begin (Utf8.range r)) = Some (end_ (Utf8.range r)) /\
    (forall k, (k < length cps)%nat ->
       exists m, advance NDEBUG range k (begin (Utf8.range r)) = Some (mk_iterator m) /\
                 m < size range) /\
    Forall (fun cp => 0 <= cp < 0x200000) cps.
Proof.
  intros Ha Hv Hok.
  destruct (validate_quick_returns range Ha) as (r' & j & cps & Hr & Hp & H1 & H2 & H3).
  assert (r' = r) as -> by congruence.
  destruct H3 as [[_ ->]|[Hne _]]; [|contradiction].
  pose proof (parses_length _ _ _ _ _ Hp) as Hl.
  exists cps. rewrite H1, H2. unfold codepoints, begin, end_. simpl.
  split; [eapply parses_codepoints; [exact Hp|lia]|].
  split; [reflexivity|]. split; [reflexivity|]. split; [|split].
  - destruct (parses_advance NDEBUG range any_sequence 0 _ cps (length cps) Hp)
      as (m & Hm & Hrest); [lia|].
    rewrite drop_all in Hrest. inversion Hrest; subst. exact Hm.
  - intros k Hk.
    destruct (parses_advance NDEBUG range any_sequence 0 _ cps k Hp)
      as (m & Hm & Hrest); [lia|].
    exists m. split; [exact Hm|].
    apply parses_length in Hrest. rewrite length_drop in Hrest. lia.
  - exact (parses_values _ _ _ _ _ Hp).
Qed.

Lemma quick_validated_decodes_witness :
  exists cps,
    codepoints false [xc0; x80; xf7; xbf; xbf; xbf] (mk_utf8_range 0 6) = Some cps /\
    Z.of_nat (length cps) = 2.
Proof.
  assert (Ha : addressable [xc0; x80; xf7; xbf; xbf; xbf]).
  { unfold addressable. vm_compute. discriminate. }
  destruct (quick_validated_decodes false [xc0; x80; xf7; xbf; xbf; xbf]
              (mk_result success (mk_utf8_range 0 6) 2) Ha eq_refl eq_refl)
    as (cps & Hc & Hn & _).
  exists cps. split; [exact Hc|exact Hn].
Defined.

(** X16. Decoding inverts encoding, wherever the bytes lie: from the
    shortest-form encodings of any code points up to 0x10FFFF, surrogates
    included, with any bytes before and after them in memory, the
    range-[for] over exactly the encoded bytes produces those code points
    in order. *)
Theorem decode_of_encoding (NDEBUG : bool) (pre post : byte_range) (cps : list Z) :
  Forall Unicode.code_point cps ->
  codepoints NDEBUG (pre ++ Unicode.encode_all cps ++ post)
    (mk_utf8_range (size pre) (size (Unicode.encode_all cps)))
  = Some cps.
Proof.
  intros Hcps.
  pose proof (encode_all_parses pre cps Hcps) as Hp.
  apply (parses_app_l _ _ post) in Hp. rewrite <- app_assoc in Hp.
  pose proof (parses_length _ _ _ _ _ Hp) as Hl. rewrite size_app in Hl, Hp.
  unfold codepoints, begin, end_. simpl.
  eapply parses_codepoints; [exact Hp|lia].
Qed.

Lemma decode_of_encoding_witness :
  codepoints false ([xff] ++ Unicode.encode_all [0x24; 0xD800; 0x10FFFF] ++ [x80])
    (mk_utf8_range 1 8)
  = Some [0x24; 0xD800; 0x10FFFF].
Proof.
  assert (Hcps : Forall Unicode.code_point [0x24; 0xD800; 0x10FFFF]).
  { repeat constructor; unfold Unicode.code_point; lia. }
  exact (decode_of_encoding false [xff] [x80] [0x24; 0xD800; 0x10FFFF] Hcps).
Defined.

(** X17. The range-[for] over a range that ends inside a sequence never
    ends: [operator++] steps by the length the lead byte announces, so the
    iterator passes the end of the range without being equal to it, and
    from then on it only moves further away, until it reads outside the
    memory. *)
Theorem decoder_passes_the_end (NDEBUG : bool) (mem : byte_range) (r : utf8_range)
    (j b1 : Z) (cps : list Z) (fuel : nat) :
  parses any_sequence mem (start_ r) j cps ->
  at_ mem j = Some b1 -> 0xC0 <= b1 < 0xF8 ->
  j < start_ r + byte_count_ r < j + lead_length b1 ->
  codepoints_from NDEBUG mem fuel (begin r) (end_ r) = None.
Proof.
  intros Hp Hb Hlead Hcut. unfold begin, end_.
  eapply cut_sequence; eauto.
Qed.

Lemma decoder_passes_the_end_witness :
  codepoints_from true [x41; xe2; x82; xac; x42; x43] 100
    (begin (mk_utf8_range 0 3)) (end_ (mk_utf8_range 0 3))
  = None.
Proof.
  assert (Hp : parses any_sequence [x41; xe2; x82; xac; x42; x43] 0 1 [0x41]).
  { eapply (parses_cons _ _ 0 1 0x41); [|exact I|apply parses_nil].
    apply sequence1; [reflexivity|lia]. }
  exact (decoder_passes_the_end true [x41; xe2; x82; xac; x42; x43]
           (mk_utf8_range 0 3) 1 0xE2 [0x41] 100 Hp eq_refl ltac:(lia)
           ltac:(vm_compute; split; reflexivity)).
Defined.

End Utf8Behaviour.

(** * Further properties of the string pool *)

Module PoolBehaviour.
Import StringPool PoolSpec PoolLayout PoolFacts.

Section Behaviour.
Variable caller_memory : Z -> Byte.byte.

Local Abbreviation load := (load caller_memory).
Local Abbreviation view_bytes := (view_bytes caller_memory).
Local Abbreviation find := (find caller_memory).
Local Abbreviation insert := (insert caller_memory).
Local Abbreviation push_back := (push_back caller_memory).
Local Abbreviation get_string_key := (get_string_key caller_memory).
Local Abbreviation get_string_view := (get_string_view caller_memory).
Local Abbreviation get_string_literal := (get_string_literal caller_memory).
Local Abbreviation get_string := (get_string caller_memory).
Local Abbreviation key_ok := (key_ok caller_memory).
Local Abbreviation literal_ok := (literal_ok caller_memory).
Local Abbreviation pool_inv := (pool_inv caller_memory).
Local Abbreviation call_ok := (call_ok caller_memory).
Local Abbreviation call_bytes := (call_bytes caller_memory).
Local Abbreviation call_key := (call_key caller_memory).
Local Abbreviation runs := (runs caller_memory).
Local Abbreviation preserved := (preserved caller_memory).
Local Abbreviation resolve := (resolve caller_memory).
Local Abbreviation distinct := (distinct caller_memory).
Local Abbreviation distinct_contents := (distinct_contents caller_memory).
Local Abbreviation string_pool_of := (string_pool_of caller_memory).
Local Abbreviation terminated := (terminated caller_memory).

(** *** The three ways a call ends *)

Lemma page_for_cases (pages : chain) (size : Z) (page : fixed_page) (previous : chain) :
  0 <= size -> size + 1 <= page_size ->
  page_for pages size = page :: previous ->
  (pages = page :: previous /\ size + 1 < remaining_ page)
  \/ (page = new_page /\ previous = pages /\
      forall p prev, pages = p :: prev -> remaining_ p <= size + 1).
Proof.
  intros Hs Hfit. unfold page_for.
  destruct pages as [|p prev].
  - intros [= <- <-]. right. repeat split. intros; discriminate.
  - destruct (can_hold p size) eqn:Hc; intros [= <- <-].
    + left. split; [reflexivity|]. apply can_hold_true; [lia|exact Hc].
    + right. repeat split. intros p' prev' [= <- <-].
      unfold can_hold in Hc. rewrite wrap_below in Hc by (unfold page_size in *; lia).
      now apply Z.ltb_ge in Hc.
Qed.

Lemma call_cases (pool : string_pool) (c : call) (bytes : list Byte.byte)
    (pool' : string_pool) (h : fixed_string) :
  pool_inv pool -> call_ok pool c -> call_bytes pool c = Some bytes ->
  get_string pool c = Some (pool', h) ->
  (exists e, resolve (page_ pool) (map_ pool) bytes = Some e /\
             pool' = pool /\ data_ h = data (view_ e))
  \/ (resolve (page_ pool) (map_ pool) bytes = None /\
      exists l, c = by_literal l /\
        pool' = {| map_ := key_ l :: map_ pool; page_ := page_ pool |} /\
        data_ h = data (view_ (key_ l)))
  \/ (resolve (page_ pool) (map_ pool) bytes = None /\ copying c /\
      exists page previous page',
        page_ok page /\
        (page_ pool = page :: previous /\ Z.of_nat (length bytes) + 1 < remaining_ page
         \/ page = new_page /\ previous = page_ pool /\
            forall p prev, page_ pool = p :: prev ->
                           remaining_ p <= Z.of_nat (length bytes) + 1) /\
        Z.of_nat (length bytes) + 1 <= remaining_ page /\
        remaining_ page' = remaining_ page - (Z.of_nat (length bytes) + 1) /\
        h = {| data_ := page_ptr (length previous) (page_size - remaining_ page);
               size_ := Z.of_nat (length bytes) |} /\
        pool' = {| map_ := mk_key (view h) (hash bytes) :: map_ pool;
                   page_ := page' :: previous |}).
Proof.
  intros Hinv Hok Hcb Hget.
  destruct (call_ok_key caller_memory pool c Hok)
    as (key & bytes' & Hck & Hview & Hs & Hb & Hh & Hcb' & Hdef).
  assert (bytes' = bytes) as -> by congruence.
  pose proof (view_bytes_length caller_memory _ _ _ Hs Hb) as Hl.
  destruct (resolve (page_ pool) (map_ pool) bytes) as [e|] eqn:Hr.
  - left. exists e. split; [reflexivity|].
    assert (Hhit : get_string pool c
                   = Some (pool, {| data_ := data (view_ e); size_ := size (view_ key) |})).
    { rewrite Hdef. destruct c; simpl in Hck; try (injection Hck as <-);
        eauto using get_string_key_hit, get_string_literal_hit. }
    rewrite Hhit in Hget. injection Hget as <- <-. split; reflexivity.
  - right.
    assert (Hlit : (exists l, c = by_literal l) \/ copying c).
    { destruct c; [right|right|right|left]; simpl; eauto. }
    destruct Hlit as [[l ->]|Hcopy].
    + left. split; [reflexivity|]. exists l. split; [reflexivity|].
      simpl in Hck. injection Hck as <-. simpl in Hget.
      rewrite (get_string_literal_miss caller_memory _ _ bytes) in Hget by assumption.
      injection Hget as <- <-. split; reflexivity.
    + right. split; [reflexivity|]. split; [exact Hcopy|].
      assert (Hkey : get_string pool c = get_string_key pool key).
      { rewrite Hdef. destruct c; try reflexivity. destruct Hcopy. }
      rewrite Hkey in Hget.
      destruct (get_string_key_miss caller_memory pool key bytes Hinv Hs Hb Hh Hr)
        as (page & previous & Hfor & Hpage & Hprev & Hcase & Hfit & Hdone).
      specialize (Hfit _ _ Hget).
      destruct (Hdone Hfit) as (page' & Hpush & Hres & Hpage' & Hpres & Hnew & Hnul).
      cbn zeta in *.
      rewrite Hres in Hget. injection Hget as <- <-.
      assert (Hb' : view_bytes (page :: previous) (view_ key) = Some bytes).
      { destruct Hcase as [[<- _]|[-> ->]]; [exact Hb|].
        eapply view_bytes_preserved; [apply preserved_new_page|exact Hb]. }
      destruct (push_back_Some caller_memory _ _ _ _ Hpage Hs Hb' Hfit)
        as (page'' & Hpush' & _ & Hrem & _).
      assert (page'' = page') as -> by congruence.
      exists page, previous, page'.
      split; [exact Hpage|]. rewrite Hl, <- Hh.
      split.
      { apply page_for_cases; [exact Hs| |exact Hfor].
        destruct Hpage as (_ & ? & _). lia. }
      split; [exact Hfit|]. split; [exact Hrem|]. split; reflexivity.
Qed.

(** *** The layout of the pages *)

Lemma lookup_cons_cases {A : Type} (x : A) (l : list A) (i : nat) (y : A) :
  (x :: l) !! i = Some y ->
  i = O /\ y = x \/ exists i', i = S i' /\ l !! i' = Some y.
Proof.
  destruct i as [|i']; simpl; [intros [= <-]; now left|].
  intros Hy. right. exists i'. now split.
Qed.

Lemma apart_sym (e1 e2 : string_key) : apart e1 e2 -> apart e2 e1.
Proof.
  intros H n off1 off2 H1 H2. destruct (H n off2 off1 H2 H1); [now right|now left].
Qed.

Lemma layout_cons (pages : chain) (map : list string_key) (e : string_key) :
  pool_layout {| map_ := map; page_ := pages |} ->
  in_page pages e -> (forall e', e' ∈ map -> apart e e') ->
  pool_layout {| map_ := e :: map; page_ := pages |}.
Proof.
  intros [Hin Hap] He Hnew. split; [constructor; assumption|]. simpl in *.
  intros i j e1 e2 H1 H2 Hij.
  apply lookup_cons_cases in H1 as [[-> ->]|(i' & -> & H1)];
    apply lookup_cons_cases in H2 as [[-> ->]|(j' & -> & H2)].
  - contradiction.
  - apply Hnew. eapply list_elem_of_lookup_2; eauto.
  - apply apart_sym, Hnew. eapply list_elem_of_lookup_2; eauto.
  - eapply Hap; eauto.
Qed.

Lemma in_page_keeps (pages pages' : chain) (e : string_key) :
  (forall n page, page_at pages n = Some page ->
     exists page', page_at pages' n = Some page' /\ remaining_ page' <= remaining_ page) ->
  in_page pages e -> in_page pages' e.
Proof.
  intros Hkeep He n off Hd.
  destruct (He n off Hd) as (page & Hp & H0 & Hend).
  destruct (Hkeep n page Hp) as (page' & Hp' & Hrem).
  exists page'. split; [exact Hp'|]. lia.
Qed.

Lemma head_keeps (page page' : fixed_page) (previous : chain) :
  remaining_ page' <= remaining_ page ->
  forall n pg, page_at (page :: previous) n = Some pg ->
    exists pg', page_at (page' :: previous) n = Some pg' /\ remaining_ pg' <= remaining_ pg.
Proof.
  intros Hrem n pg Hn.
  destruct (decide (n = length previous)) as [->|Hne].
  - rewrite page_at_new in Hn. injection Hn as <-.
    exists page'. split; [apply page_at_new|exact Hrem].
  - assert (n < length previous)%nat.
    { apply page_at_lt in Hn. simpl in Hn. lia. }
    rewrite page_at_old in Hn by assumption.
    exists pg. split; [rewrite page_at_old by assumption; exact Hn|lia].
Qed.

Lemma new_keeps (page' : fixed_page) (pages : chain) :
  forall n pg, page_at pages n = Some pg ->
    exists pg', page_at (page' :: pages) n = Some pg' /\ remaining_ pg' <= remaining_ pg.
Proof.
  intros n pg Hn. exists pg.
  split; [rewrite page_at_old by (eapply page_at_lt; eauto); exact Hn|lia].
Qed.

Lemma layout_step (pool : string_pool) (c : call) (bytes : list Byte.byte)
    (pool' : string_pool) (h : fixed_string) :
  pool_inv pool -> pool_layout pool ->
  call_ok pool c -> call_bytes pool c = Some bytes ->
  get_string pool c = Some (pool', h) ->
  pool_layout pool'.
Proof.
  intros Hinv Hlay Hok Hcb Hget.
  destruct (call_cases _ _ _ _ _ Hinv Hok Hcb Hget)
    as [(e & _ & -> & _)|[(_ & l & -> & -> & _)
       |(_ & _ & page & previous & page' & Hpage & Hcase & Hfit & Hrem & -> & ->)]].
  - exact Hlay.
  - destruct Hok as [[a Ha] _].
    apply layout_cons.
    + destruct pool. exact Hlay.
    + intros n off Hd. congruence.
    + intros e' _ n off1 off2 Hd. congruence.
  - destruct Hlay as [Hin Hap]. destruct Hpage as (_ & Hbound & _).
    assert (Hkeep : forall n pg, page_at (page_ pool) n = Some pg ->
              exists pg', page_at (page' :: previous) n = Some pg'
                          /\ remaining_ pg' <= remaining_ pg).
    { destruct Hcase as [[-> _]|(_ & -> & _)]; [apply head_keeps; lia|apply new_keeps]. }
    apply layout_cons.
    + split; [|exact Hap]. simpl.
      eapply List.Forall_impl; [|exact Hin]. intros e. now apply in_page_keeps.
    + intros n off [= <- <-]. exists page'.
      split; [apply page_at_new|]. cbn [view size_ size view_]. lia.
    + intros e' He' n off1 off2 [= <- <-] Hd2.
      rewrite List.Forall_forall in Hin.
      destruct (Hin e' (proj1 (list_elem_of_In _ _) He') _ _ Hd2) as (pg & Hpg & H0 & Hend).
      right.
      destruct Hcase as [[Heq _]|(_ & -> & _)].
      * rewrite Heq, page_at_new in Hpg. injection Hpg as <-. lia.
      * apply page_at_lt in Hpg. lia.
Qed.

(** *** One entry for each content *)

Lemma resolve_None (pages : chain) (map : list string_key) (bytes : list Byte.byte)
    (e : string_key) :
  resolve pages map bytes = None -> e ∈ map ->
  hash_ e = hash bytes -> view_bytes pages (view_ e) = Some bytes -> False.
Proof.
  unfold PoolSpec.resolve. intros Hn Hin Hh Hb.
  apply list_elem_of_In in Hin.
  pose proof (List.find_none _ _ Hn e Hin) as Hf. simpl in Hf.
  apply bool_decide_eq_false in Hf. apply Hf. now split.
Qed.

Lemma distinct_cons (pages : chain) (map : list string_key) (e : string_key)
    (bytes : list Byte.byte) :
  Forall (key_ok pages) map -> distinct pages map ->
  view_bytes pages (view_ e) = Some bytes ->
  resolve pages map bytes = None ->
  distinct pages (e :: map).
Proof.
  intros Hok Hd He Hr.
  assert (Hfresh : forall k e', map !! k = Some e' ->
            view_bytes pages (view_ e') = Some bytes -> False).
  { intros k e' Hk Hb'.
    destruct (Forall_lookup_1 _ _ _ _ Hok Hk) as (_ & b' & Hb'' & Hh).
    assert (b' = bytes) as -> by congruence.
    eapply resolve_None; eauto. eapply list_elem_of_lookup_2; eauto. }
  intros i j e1 e2 bs H1 H2 Hb1 Hb2.
  apply lookup_cons_cases in H1 as [[-> ->]|(i' & -> & H1)];
    apply lookup_cons_cases in H2 as [[-> ->]|(j' & -> & H2)].
  - reflexivity.
  - exfalso. assert (bs = bytes) as -> by congruence. eauto.
  - exfalso. assert (bs = bytes) as -> by congruence. eauto.
  - f_equal. eapply Hd; eauto.
Qed.

Lemma distinct_preserved (pages pages' : chain) (map : list string_key) :
  Forall (key_ok pages) map -> preserved pages pages' ->
  distinct pages map -> distinct pages' map.
Proof.
  intros Hok Hpres Hd i j e1 e2 bs H1 H2 Hb1 Hb2.
  destruct (Forall_lookup_1 _ _ _ _ Hok H1) as (_ & b1 & Hb1' & _).
  destruct (Forall_lookup_1 _ _ _ _ Hok H2) as (_ & b2 & Hb2' & _).
  pose proof (view_bytes_preserved caller_memory _ _ _ _ Hpres Hb1') as Hb1''.
  pose proof (view_bytes_preserved caller_memory _ _ _ _ Hpres Hb2') as Hb2''.
  assert (b1 = bs) as -> by congruence.
  assert (b2 = bs) as -> by congruence.
  eapply Hd; eauto.
Qed.

Lemma distinct_step (pool : string_pool) (c : call) (bytes : list Byte.byte)
    (pool' : string_pool) (h : fixed_string) :
  pool_inv pool -> distinct_contents pool ->
  call_ok pool c -> call_bytes pool c = Some bytes ->
  get_string pool c = Some (pool', h) ->
  distinct_contents pool'.
Proof.
  intros Hinv Hd Hok Hcb Hget.
  destruct (get_string_effect caller_memory _ _ _ _ _ Hinv Hok Hcb Hget)
    as (_ & Hpres & _ & Hview & _).
  destruct Hinv as [Hpages Hmap].
  destruct (call_cases _ _ _ _ _ (conj Hpages Hmap) Hok Hcb Hget)
    as [(e & _ & -> & _)|[(Hr & l & -> & -> & _)
       |(Hr & _ & page & previous & page' & _ & _ & _ & _ & -> & ->)]].
  - exact Hd.
  - unfold PoolLayout.distinct_contents. cbn [map_ page_].
    eapply distinct_cons; eauto.
  - unfold PoolLayout.distinct_contents. cbn [map_ page_] in *.
    eapply (distinct_cons _ _ _ bytes).
    + eapply List.Forall_impl; [|exact Hmap].
      intros e. now apply key_ok_preserved.
    + eapply distinct_preserved; eauto.
    + exact Hview.
    + rewrite (resolve_preserved caller_memory (page_ pool)); assumption.
Qed.

(** *** Pools that can be reached *)

Lemma runs_layout (pool : string_pool) (trace : list (call * fixed_string))
    (pool' : string_pool) :
  pool_inv pool -> pool_layout pool -> runs pool trace pool' -> pool_layout pool'.
Proof.
  intros Hinv Hlay Hruns.
  induction Hruns as [pool|pool c pool1 h trace pool2 Hok Hget _ IH]; [assumption|].
  destruct (call_ok_key caller_memory pool c Hok)
    as (_ & bytes & _ & _ & _ & _ & _ & Hcb & _).
  destruct (get_string_effect caller_memory _ _ _ _ _ Hinv Hok Hcb Hget) as (Hinv1 & _).
  apply IH; [exact Hinv1|].
  exact (layout_step _ _ _ _ _ Hinv Hlay Hok Hcb Hget).
Qed.

Lemma runs_distinct (pool : string_pool) (trace : list (call * fixed_string))
    (pool' : string_pool) :
  pool_inv pool -> distinct_contents pool -> runs pool trace pool' ->
  distinct_contents pool'.
Proof.
  intros Hinv Hd Hruns.
  induction Hruns as [pool|pool c pool1 h trace pool2 Hok Hget _ IH]; [assumption|].
  destruct (call_ok_key caller_memory pool c Hok)
    as (_ & bytes & _ & _ & _ & _ & _ & Hcb & _).
  destruct (get_string_effect caller_memory _ _ _ _ _ Hinv Hok Hcb Hget) as (Hinv1 & _).
  apply IH; [exact Hinv1|].
  exact (distinct_step _ _ _ _ _ Hinv Hd Hok Hcb Hget).
Qed.

Lemma string_pool_of_entries (literals : list string_literal) :
  Forall literal_ok literals ->
  Forall (fun e => exists a, data (view_ e) = caller_ptr a)
    (map_ (string_pool_of literals))
  /\ distinct [] (map_ (string_pool_of literals)).
Proof.
  intros Hlist. unfold StringPool.string_pool_of. cbn [map_].
  assert (Hgen : forall map,
            Forall (fun e => exists a, data (view_ e) = caller_ptr a) map ->
            Forall (key_ok []) map -> distinct [] map ->
            Forall (fun e => exists a, data (view_ e) = caller_ptr a)
              (fold_left (fun map l => insert [] map (key_ l)) literals map)
            /\ distinct []
                 (fold_left (fun map l => insert [] map (key_ l)) literals map)).
  { induction Hlist as [|l literals [Ha Hl] _ IH]; intros map Hcaller Hok Hd; simpl;
      [now split|].
    unfold StringPool.insert.
    destruct (find [] map (key_ l)) eqn:Hfind; [now apply IH|].
    destruct Hl as (Hs & bytes & Hb & Hh).
    rewrite (find_resolve caller_memory _ _ _ _ Hb Hh) in Hfind.
    apply IH.
    - now constructor.
    - constructor; [|exact Hok]. split; [exact Hs|]. exists bytes. now split.
    - eapply distinct_cons; eauto. }
  apply Hgen; [constructor|constructor|].
  intros i j e1 e2 bs H1. rewrite lookup_nil in H1. discriminate.
Qed.

Lemma string_pool_of_layout (literals : list string_literal) :
  Forall literal_ok literals ->
  pool_layout (string_pool_of literals) /\ distinct_contents (string_pool_of literals).
Proof.
  intros Hlist.
  destruct (string_pool_of_entries literals Hlist) as [Hcaller Hd].
  split; [|exact Hd]. split.
  - eapply List.Forall_impl; [|exact Hcaller].
    intros e [a Ha] n off Hd'. congruence.
  - intros i j e1 e2 H1 _ _ n off1 off2 Hd1.
    destruct (Forall_lookup_1 _ _ _ _ Hcaller H1) as [a Ha]. congruence.
Qed.

(** *** The index the constructor builds *)

Lemma insert_keeps (map : list string_key) (k : string_key) (bytes : list Byte.byte)
    (e : string_key) :
  key_ok [] k ->
  resolve [] map bytes = Some e -> resolve [] (insert [] map k) bytes = Some e.
Proof.
  intros (_ & bk & Hbk & Hhk) Hr. unfold StringPool.insert.
  destruct (find [] map k) eqn:Hfind; [exact Hr|].
  rewrite (find_resolve caller_memory _ _ _ _ Hbk Hhk) in Hfind.
  rewrite (resolve_cons_other caller_memory _ _ _ _ bk Hbk); [exact Hr|].
  congruence.
Qed.

Lemma insert_holds (map : list string_key) (k : string_key) (bytes : list Byte.byte) :
  view_bytes [] (view_ k) = Some bytes -> hash_ k = hash bytes ->
  exists e, resolve [] (insert [] map k) bytes = Some e.
Proof.
  intros Hb Hh. unfold StringPool.insert.
  destruct (find [] map k) as [e|] eqn:Hfind.
  - rewrite (find_resolve caller_memory _ _ _ _ Hb Hh) in Hfind. eauto.
  - exists k. now apply resolve_cons_same.
Qed.

Lemma insert_elem (map : list string_key) (k e : string_key) :
  e ∈ insert [] map k -> e ∈ map \/ e = k.
Proof.
  unfold StringPool.insert. destruct (find [] map k); [now left|].
  rewrite elem_of_cons. intros [->|He]; [now right|now left].
Qed.

Lemma constructed_index (literals : list string_literal) :
  Forall literal_ok literals ->
  forall map,
    (forall l bytes, l ∈ literals ->
       view_bytes [] (view_ (key_ l)) = Some bytes ->
       exists e, resolve []
                   (fold_left (fun map l => insert [] map (key_ l)) literals map) bytes
                 = Some e)
    /\ (forall bytes e, resolve [] map bytes = Some e ->
          resolve [] (fold_left (fun map l => insert [] map (key_ l)) literals map) bytes
          = Some e)
    /\ (forall e, e ∈ fold_left (fun map l => insert [] map (key_ l)) literals map ->
          e ∈ map \/ exists l, l ∈ literals /\ e = key_ l).
Proof.
  induction 1 as [|l0 literals [_ Hl0] _ IH]; intros map; simpl.
  - split; [|split].
    + intros l bytes Hin. apply elem_of_nil in Hin. destruct Hin.
    + auto.
    + auto.
  - destruct (IH (insert [] map (key_ l0))) as (Hlits & Hmono & Hfrom).
    split; [|split].
    + intros l bytes Hin Hb. apply elem_of_cons in Hin as [->|Hin]; [|eauto].
      destruct Hl0 as (_ & b0 & Hb0 & Hh0).
      assert (b0 = bytes) as -> by congruence.
      destruct (insert_holds map (key_ l0) bytes Hb0 Hh0) as [e He]. eauto.
    + intros bytes e Hr. apply Hmono. now apply insert_keeps.
    + intros e He. destruct (Hfrom e He) as [Hin|(l & Hl & ->)].
      * apply insert_elem in Hin as [Hin| ->]; [now left|].
        right. exists l0. split; [apply elem_of_cons; now left|reflexivity].
      * right. exists l. split; [apply elem_of_cons; now right|reflexivity].
Qed.

Lemma copied_handle (pool : string_pool) (c : call) (bytes : list Byte.byte)
    (pool' : string_pool) (h : fixed_string) :
  pool_inv pool -> call_ok pool c -> call_bytes pool c = Some bytes ->
  get_string pool c = Some (pool', h) ->
  resolve (page_ pool) (map_ pool) bytes = None -> copying c ->
  exists n off, data_ h = page_ptr n off.
Proof.
  intros Hinv Hok Hcb Hget Hr Hcopy.
  destruct (call_cases _ _ _ _ _ Hinv Hok Hcb Hget)
    as [(e & Hr' & _)|[(_ & l & -> & _)|(_ & _ & page & previous & page' & H)]].
  - congruence.
  - destruct Hcopy.
  - destruct H as (_ & _ & _ & _ & -> & _). eauto.
Qed.

(** *** The 0 byte after a copy *)

Lemma copied_nul (pool : string_pool) (c : call) (bytes : list Byte.byte)
    (pool' : string_pool) (h : fixed_string) :
  pool_inv pool -> call_ok pool c -> call_bytes pool c = Some bytes ->
  get_string pool c = Some (pool', h) ->
  resolve (page_ pool) (map_ pool) bytes = None -> copying c ->
  exists n off,
    data_ h = page_ptr n off /\
    load (page_ pool') (page_ptr n (off + size_ h)) = Some x00.
Proof.
  intros Hinv Hok Hcb Hget Hr Hcopy.
  destruct (call_ok_key caller_memory pool c Hok)
    as (key & bytes' & Hck & Hview & Hs & Hb & Hh & Hcb' & Hdef).
  assert (bytes' = bytes) as -> by congruence.
  assert (Hkey : get_string pool c = get_string_key pool key).
  { rewrite Hdef. destruct c; try reflexivity. destruct Hcopy. }
  rewrite Hkey in Hget.
  destruct (get_string_key_miss caller_memory pool key bytes Hinv Hs Hb Hh Hr)
    as (page & previous & _ & _ & _ & _ & Hfit & Hdone).
  destruct (Hdone (Hfit _ _ Hget)) as (page' & _ & Hres & _ & _ & _ & Hnul).
  cbn zeta in *. rewrite Hres in Hget. injection Hget as <- <-.
  eexists _, _. split; [reflexivity|exact Hnul].
Qed.

Lemma terminated_step (pool : string_pool) (c : call) (bytes : list Byte.byte)
    (pool' : string_pool) (h : fixed_string) :
  pool_inv pool -> Forall (terminated (page_ pool)) (map_ pool) ->
  call_ok pool c -> call_bytes pool c = Some bytes ->
  get_string pool c = Some (pool', h) ->
  Forall (terminated (page_ pool')) (map_ pool').
Proof.
  intros Hinv Hterm Hok Hcb Hget.
  destruct (get_string_effect caller_memory _ _ _ _ _ Hinv Hok Hcb Hget)
    as (_ & Hpres & _).
  assert (Hold : Forall (terminated (page_ pool')) (map_ pool)).
  { eapply List.Forall_impl; [|exact Hterm].
    intros e He n off Hd. apply Hpres. now apply He. }
  destruct (call_cases _ _ _ _ _ Hinv Hok Hcb Hget)
    as [(e & _ & -> & _)|[(_ & l & -> & -> & _)|(Hr & Hcopy & page & previous & page' & H)]].
  - exact Hterm.
  - destruct Hok as [[a Ha] _]. constructor; [|exact Hold].
    intros n off Hd. cbn [page_] in *. congruence.
  - destruct (copied_nul _ _ _ _ _ Hinv Hok Hcb Hget Hr Hcopy) as (n & off & Hd & Hnul).
    destruct H as (_ & _ & _ & _ & Hh & Hp). rewrite Hp in *. cbn [map_ page_] in *.
    constructor; [|exact Hold].
    intros n' off' Hd'. cbn [view_ view data size] in *.
    assert (n' = n /\ off' = off) as [-> ->] by (split; congruence).
    exact Hnul.
Qed.

Lemma runs_terminated (pool : string_pool) (trace : list (call * fixed_string))
    (pool' : string_pool) :
  pool_inv pool -> Forall (terminated (page_ pool)) (map_ pool) ->
  runs pool trace pool' ->
  Forall (terminated (page_ pool')) (map_ pool').
Proof.
  intros Hinv Hterm Hruns.
  induction Hruns as [pool|pool c pool1 h trace pool2 Hok Hget _ IH]; [assumption|].
  destruct (call_ok_key caller_memory pool c Hok)
    as (_ & bytes & _ & _ & _ & _ & _ & Hcb & _).
  destruct (get_string_effect caller_memory _ _ _ _ _ Hinv Hok Hcb Hget) as (Hinv1 & _).
  apply IH; [exact Hinv1|].
  exact (terminated_step _ _ _ _ _ Hinv Hterm Hok Hcb Hget).
Qed.

(** ** Construction *)

(** X18. A pool constructed from a list of literals serves their contents
    without copying: on it, a [get_string] call through any of the four
    entry points for the content of a literal of the list returns a handle
    whose data address is that of a literal of the list with this content
    (which one, when several literals have the same content, is left
    open), with the length of the content; the pool has no page, and the
    call leaves the pool as it is. *)
Theorem constructed_pool_serves_its_literals (literals : list string_literal)
    (l : string_literal) (c : call) (bytes : list Byte.byte) :
  Forall literal_ok literals ->
  l ∈ literals ->
  call_bytes (string_pool_of literals) (by_literal l) = Some bytes ->
  call_ok (string_pool_of literals) c ->
  call_bytes (string_pool_of literals) c = Some bytes ->
  page_ (string_pool_of literals) = [] /\
  exists l',
    l' ∈ literals /\
    call_bytes (string_pool_of literals) (by_literal l') = Some bytes /\
    get_string (string_pool_of literals) c
    = Some (string_pool_of literals,
            {| data_ := data (view_ (key_ l')); size_ := Z.of_nat (length bytes) |}).
Proof.
  intros Hlist Hin Hl Hok Hcb. split; [reflexivity|].
  destruct (constructed_index literals Hlist []) as (Hlits & _ & Hfrom).
  destruct (Hlits l bytes Hin Hl) as [e Hr].
  destruct (Hfrom e) as [Hnil|(l' & Hin' & ->)].
  { apply resolve_Some in Hr as [He _]. exact He. }
  { apply elem_of_nil in Hnil. destruct Hnil. }
  exists l'. split; [exact Hin'|].
  split; [apply resolve_Some in Hr as (_ & _ & Hb'); exact Hb'|].
  destruct (call_ok_key caller_memory _ c Hok)
    as (key & bytes' & Hck & _ & Hs & Hb & Hh & Hcb' & Hdef).
  assert (bytes' = bytes) as -> by congruence.
  rewrite (view_bytes_length caller_memory _ _ _ Hs Hb), Hdef.
  destruct c; simpl in Hck; try (injection Hck as <-);
    eauto using get_string_key_hit, get_string_literal_hit.
Qed.

(** ** Handles *)

(** X19. A handle can be given back to the pool it came from: after any
    further calls, [get_string(h.view())] is a call of defined behaviour,
    although the view points into memory of the pool, and it returns [h]
    itself and leaves the pool as it is. *)
Theorem handle_view_round_trip (pool : string_pool) (c : call) (bytes : list Byte.byte)
    (pool1 : string_pool) (h : fixed_string) (trace : list (call * fixed_string))
    (pool2 : string_pool) :
  pool_inv pool -> call_ok pool c -> call_bytes pool c = Some bytes ->
  get_string pool c = Some (pool1, h) ->
  runs pool1 trace pool2 ->
  call_ok pool2 (by_view (view h)) /\
  call_bytes pool2 (by_view (view h)) = Some bytes /\
  get_string pool2 (by_view (view h)) = Some (pool2, h).
Proof.
  intros Hinv Hok Hcb Hget Hruns.
  destruct (get_string_effect caller_memory _ _ _ _ _ Hinv Hok Hcb Hget)
    as (Hinv1 & _ & Hsize & Hview & (e & Hr & Hdata) & _).
  destruct (runs_effect caller_memory _ _ _ Hinv1 Hruns) as (_ & Hpres & Hres).
  pose proof (view_bytes_preserved caller_memory _ _ _ _ Hpres Hview) as Hview2.
  split; [split; [unfold view; simpl; lia|eauto]|]. split; [exact Hview2|].
  simpl. unfold StringPool.get_string_view, string_key_of_view.
  fold view_bytes. rewrite Hview2. cbn [mbind option_bind].
  rewrite (get_string_key_hit caller_memory pool2 _ bytes e);
    [|exact Hview2|reflexivity|apply Hres; exact Hr].
  destruct h as [d n]. simpl in *. rewrite Hdata. reflexivity.
Qed.

(** X20. What the pool copied does not overlap: in every pool made by a
    constructor and used through [get_string], each entry that points
    into a page lies, together with the 0 byte after it, in the part of
    the buffer of that page that has been handed out, and two different
    entries share no byte. *)
Theorem copies_do_not_overlap (literals : list string_literal)
    (trace : list (call * fixed_string)) (pool : string_pool) :
  Forall literal_ok literals ->
  runs (string_pool_of literals) trace pool ->
  pool_layout pool.
Proof.
  intros Hlist Hruns.
  destruct (string_pool_of_inv caller_memory literals Hlist) as [Hinv _].
  destruct (string_pool_of_layout literals Hlist) as [Hlay _].
  exact (runs_layout _ _ _ Hinv Hlay Hruns).
Qed.

(** X21. The index holds each content once: in every pool made by a
    constructor and used through [get_string], no two entries refer to
    the same characters. *)
Theorem index_holds_each_content_once (literals : list string_literal)
    (trace : list (call * fixed_string)) (pool : string_pool) :
  Forall literal_ok literals ->
  runs (string_pool_of literals) trace pool ->
  distinct_contents pool.
Proof.
  intros Hlist Hruns.
  destruct (string_pool_of_inv caller_memory literals Hlist) as [Hinv _].
  destruct (string_pool_of_layout literals Hlist) as [_ Hd].
  exact (runs_distinct _ _ _ Hinv Hd Hruns).
Qed.

(** X22. Comparing the data pointers decides equality of content: for two
    handles of one pool of which the first points into a page,
    [operator==] is true exactly when the two calls asked for the same
    bytes, and [operator!=] exactly when they did not. *)
Theorem pointer_equality_is_content_equality (pool : string_pool) (c1 : call)
    (bytes1 : list Byte.byte) (pool1 : string_pool) (h1 : fixed_string)
    (trace : list (call * fixed_string)) (pool2 : string_pool) (c2 : call)
    (bytes2 : list Byte.byte) (pool3 : string_pool) (h2 : fixed_string) :
  pool_inv pool -> pool_layout pool ->
  call_ok pool c1 -> call_bytes pool c1 = Some bytes1 ->
  get_string pool c1 = Some (pool1, h1) ->
  runs pool1 trace pool2 ->
  call_ok pool2 c2 -> call_bytes pool2 c2 = Some bytes2 ->
  get_string pool2 c2 = Some (pool3, h2) ->
  (exists n off, data_ h1 = page_ptr n off) ->
  (fixed_string_eqb h1 h2 = true <-> bytes1 = bytes2)
  /\ (fixed_string_neqb h1 h2 = true <-> bytes1 <> bytes2).
Proof.
  intros Hinv Hlay Hok1 Hcb1 Hget1 Hruns Hok2 Hcb2 Hget2 (n & off & Hpage).
  destruct (get_string_effect caller_memory _ _ _ _ _ Hinv Hok1 Hcb1 Hget1)
    as (Hinv1 & _ & _ & _ & (e1 & Hr1 & Hd1) & _).
  pose proof (layout_step _ _ _ _ _ Hinv Hlay Hok1 Hcb1 Hget1) as Hlay1.
  destruct (runs_effect caller_memory _ _ _ Hinv1 Hruns) as (Hinv2 & _ & Hres12).
  pose proof (runs_layout _ _ _ Hinv1 Hlay1 Hruns) as Hlay2.
  destruct (get_string_effect caller_memory _ _ _ _ _ Hinv2 Hok2 Hcb2 Hget2)
    as (Hinv3 & _ & _ & _ & (e2 & Hr2 & Hd2) & Hres23 & _).
  pose proof (layout_step _ _ _ _ _ Hinv2 Hlay2 Hok2 Hcb2 Hget2) as [_ Hap].
  pose proof (Hres23 _ _ (Hres12 _ _ Hr1)) as Hr1'.
  assert (Heq : data_ h1 = data_ h2 <-> bytes1 = bytes2).
  { split.
    - intros Hsame.
      destruct (entry_size caller_memory _ _ _ _ (proj2 Hinv3) Hr1') as [Hs1 Hb1].
      destruct (entry_size caller_memory _ _ _ _ (proj2 Hinv3) Hr2) as [Hs2 Hb2].
      apply resolve_Some in Hr1' as (Hin1 & _).
      apply resolve_Some in Hr2 as (Hin2 & _).
      apply list_elem_of_lookup_1 in Hin1 as [i Hi].
      apply list_elem_of_lookup_1 in Hin2 as [j Hj].
      destruct (decide (i = j)) as [->|Hij].
      + assert (e1 = e2) as -> by congruence. congruence.
      + exfalso.
        destruct (Hap i j e1 e2 Hi Hj Hij n off off); [congruence|congruence|lia|lia].
    - intros <-. congruence. }
  unfold fixed_string_eqb, fixed_string_neqb.
  rewrite bool_decide_eq_true, bool_decide_eq_true. split; [exact Heq|].
  now rewrite Heq.
Qed.

(** X23. Every handle that points into a page, whether the call that
    returned it copied the content or found it in the index, stays a C
    string: after any further calls the [size] bytes at its data address
    are the bytes asked for and the byte after them is 0. *)
Theorem page_handles_stay_terminated (literals : list string_literal)
    (trace : list (call * fixed_string)) (pool : string_pool) (c : call)
    (bytes : list Byte.byte) (pool1 : string_pool) (h : fixed_string)
    (trace' : list (call * fixed_string)) (pool2 : string_pool) (n : nat) (off : Z) :
  Forall literal_ok literals ->
  runs (string_pool_of literals) trace pool ->
  call_ok pool c -> call_bytes pool c = Some bytes ->
  get_string pool c = Some (pool1, h) ->
  runs pool1 trace' pool2 ->
  data_ h = page_ptr n off ->
  view_bytes (page_ pool2) (view h) = Some bytes /\
  load (page_ pool2) (page_ptr n (off + size_ h)) = Some x00.
Proof.
  intros Hlist Hruns Hok Hcb Hget Hruns' Hd.
  destruct (string_pool_of_inv caller_memory literals Hlist) as [Hinv0 _].
  destruct (string_pool_of_entries literals Hlist) as [Hcaller _].
  assert (Hterm0 : Forall (terminated (page_ (string_pool_of literals)))
                     (map_ (string_pool_of literals))).
  { eapply List.Forall_impl; [|exact Hcaller].
    intros e [a Ha] n' off' Hd'. congruence. }
  destruct (runs_effect caller_memory _ _ _ Hinv0 Hruns) as (Hinv & _).
  pose proof (runs_terminated _ _ _ Hinv0 Hterm0 Hruns) as Hterm.
  destruct (get_string_effect caller_memory _ _ _ _ _ Hinv Hok Hcb Hget)
    as (Hinv1 & _ & Hsize & Hview & (e & Hr & Hdata) & _).
  pose proof (terminated_step _ _ _ _ _ Hinv Hterm Hok Hcb Hget) as Hterm1.
  destruct (runs_effect caller_memory _ _ _ Hinv1 Hruns') as (_ & Hpres & _).
  split; [eapply view_bytes_preserved; eauto|].
  apply Hpres.
  destruct (entry_size caller_memory _ _ _ _ (proj2 Hinv1) Hr) as [Hes _].
  apply resolve_Some in Hr as (Hin & _).
  rewrite List.Forall_forall in Hterm1.
  rewrite Hsize, <- Hes.
  apply (Hterm1 e (proj1 (list_elem_of_In _ _) Hin)). congruence.
Qed.

(** ** Pages *)

(** X24. A copying call for content that is not in the index and that does
    not fit in a page together with its terminator
    ([size + 1 > page_size]) has no defined result, in whatever state the
    pool is: the copy or the 0 byte after it is written outside
    [buffer_]. *)
Theorem oversized_copy_is_undefined (pool : string_pool) (c : call)
    (bytes : list Byte.byte) (key : string_key) :
  pool_inv pool -> call_ok pool c -> copying c ->
  call_bytes pool c = Some bytes -> call_key pool c = Some key ->
  find (page_ pool) (map_ pool) key = None ->
  page_size < Z.of_nat (length bytes) + 1 ->
  get_string pool c = None.
Proof.
  intros Hinv Hok Hcopy Hcb Hck Hfind Hbig.
  destruct (call_ok_key caller_memory pool c Hok)
    as (key' & bytes' & Hck' & _ & Hs & Hb & Hh & Hcb' & _).
  assert (key' = key) as -> by congruence.
  assert (bytes' = bytes) as -> by congruence.
  rewrite (find_resolve caller_memory _ _ _ _ Hb Hh) in Hfind.
  destruct (get_string pool c) as [[pool' h]|] eqn:Hget; [exfalso|reflexivity].
  destruct (call_cases _ _ _ _ _ Hinv Hok Hcb Hget)
    as [(e & Hr' & _)|[(_ & l & -> & _)|(_ & _ & page & previous & page' & H)]].
  - congruence.
  - destruct Hcopy.
  - destruct H as ((_ & Hrem & _) & _ & Hfit & _). lia.
Qed.

(** X25. A copying call for new content that fits in a page takes
    [size + 1] bytes from the front of the free part of a page. When
    [size + 1] is below [remaining_] of the newest page, the copy starts
    where the free part of that page starts; otherwise, also when
    [size + 1] is exactly [remaining_], a new page is put in front of the
    chain and the copy starts at its offset 0. The index grows by the one
    entry that refers to the copy. *)
Theorem copy_is_bump_allocated (pool : string_pool) (c : call)
    (bytes : list Byte.byte) (key : string_key) :
  pool_inv pool -> call_ok pool c -> copying c ->
  call_bytes pool c = Some bytes -> call_key pool c = Some key ->
  find (page_ pool) (map_ pool) key = None ->
  Z.of_nat (length bytes) + 1 <= page_size ->
  exists pool' h page',
    get_string pool c = Some (pool', h) /\
    size_ h = Z.of_nat (length bytes) /\
    map_ pool' = mk_key (view h) (hash bytes) :: map_ pool /\
    ((exists page previous,
        page_ pool = page :: previous /\
        Z.of_nat (length bytes) + 1 < remaining_ page /\
        page_ pool' = page' :: previous /\
        data_ h = page_ptr (length previous) (page_size - remaining_ page) /\
        remaining_ page' = remaining_ page - (Z.of_nat (length bytes) + 1))
     \/ ((forall page previous, page_ pool = page :: previous ->
            remaining_ page <= Z.of_nat (length bytes) + 1) /\
         page_ pool' = page' :: page_ pool /\
         data_ h = page_ptr (length (page_ pool)) 0 /\
         remaining_ page' = page_size - (Z.of_nat (length bytes) + 1))).
Proof.
  intros Hinv Hok Hcopy Hcb Hck Hfind Hfits.
  destruct (call_ok_key caller_memory pool c Hok)
    as (key' & bytes' & Hck' & _ & Hs & Hb & Hh & Hcb' & _).
  assert (key' = key) as -> by congruence.
  assert (bytes' = bytes) as -> by congruence.
  rewrite (find_resolve caller_memory _ _ _ _ Hb Hh) in Hfind.
  destruct (get_string_defined caller_memory _ _ _ Hinv Hok Hcb Hfits)
    as (pool' & h & Hget).
  destruct (call_cases _ _ _ _ _ Hinv Hok Hcb Hget)
    as [(e & Hr' & _)|[(_ & l & -> & _)
       |(_ & _ & page & previous & page' & _ & Hcase & _ & Hrem & -> & ->)]].
  - congruence.
  - destruct Hcopy.
  - eexists _, _, page'. split; [exact Hget|]. split; [reflexivity|].
    split; [reflexivity|]. cbn [page_ data_].
    destruct Hcase as [[Heq Hroom]|(-> & -> & Hfull)].
    + left. exists page, previous. repeat split; assumption.
    + right. change (remaining_ new_page) with page_size in *.
      split; [exact Hfull|]. split; [reflexivity|].
      split; [do 2 f_equal; lia|exact Hrem].
Qed.

End Behaviour.

(** *** The theorems at work on a pool over "abcabc..." *)

Lemma abc_literal_ok (a : Z) :
  literal_ok abc_memory
    (mk_literal (mk_key (mk_view (caller_ptr a) 3)
                   (hash [abc_memory a; abc_memory (a + 1); abc_memory (a + 1 + 1)]))).
Proof.
  split; [eexists; reflexivity|]. split; [simpl; lia|].
  eexists. split; reflexivity.
Qed.

Lemma abc_view_ok (pool : string_pool) (a n : Z) :
  0 <= n -> call_ok abc_memory pool (by_view (mk_view (caller_ptr a) n)).
Proof. intros Hn. split; [exact Hn|apply caller_view_readable]. Qed.

Lemma empty_pool_layout : pool_layout empty_pool.
Proof.
  split; [constructor|]. intros i j e1 e2 H1.
  cbn [map_ empty_pool] in H1. rewrite lookup_nil in H1. discriminate.
Qed.

Lemma constructed_pool_serves_its_literals_witness :
  exists l',
    l' ∈ [mk_literal (mk_key (mk_view (caller_ptr 0) 3) (hash [x61; x62; x63]));
          mk_literal (mk_key (mk_view (caller_ptr 1) 3) (hash [x62; x63; x61]));
          mk_literal (mk_key (mk_view (caller_ptr 3) 3) (hash [x61; x62; x63]))]
    /\ get_string abc_memory
         (string_pool_of abc_memory
            [mk_literal (mk_key (mk_view (caller_ptr 0) 3) (hash [x61; x62; x63]));
             mk_literal (mk_key (mk_view (caller_ptr 1) 3) (hash [x62; x63; x61]));
             mk_literal (mk_key (mk_view (caller_ptr 3) 3) (hash [x61; x62; x63]))])
         (by_view (mk_view (caller_ptr 6) 3))
       = Some (string_pool_of abc_memory
                 [mk_literal (mk_key (mk_view (caller_ptr 0) 3) (hash [x61; x62; x63]));
                  mk_literal (mk_key (mk_view (caller_ptr 1) 3) (hash [x62; x63; x61]));
                  mk_literal (mk_key (mk_view (caller_ptr 3) 3) (hash [x61; x62; x63]))],
               {| data_ := data (view_ (key_ l')); size_ := 3 |}).
Proof.
  assert (Hlist : Forall (literal_ok abc_memory)
            [mk_literal (mk_key (mk_view (caller_ptr 0) 3) (hash [x61; x62; x63]));
             mk_literal (mk_key (mk_view (caller_ptr 1) 3) (hash [x62; x63; x61]));
             mk_literal (mk_key (mk_view (caller_ptr 3) 3) (hash [x61; x62; x63]))]).
  { constructor; [exact (abc_literal_ok 0)|].
    constructor; [exact (abc_literal_ok 1)|].
    constructor; [exact (abc_literal_ok 3)|]. constructor. }
  destruct (constructed_pool_serves_its_literals abc_memory _
              (mk_literal (mk_key (mk_view (caller_ptr 3) 3) (hash [x61; x62; x63])))
              (by_view (mk_view (caller_ptr 6) 3)) [x61; x62; x63] Hlist)
    as (_ & l' & Hin & _ & Hget).
  - rewrite !elem_of_cons. right. right. left. reflexivity.
  - reflexivity.
  - apply abc_view_ok. lia.
  - reflexivity.
  - exists l'. split; [exact Hin|exact Hget].
Defined.

Lemma handle_view_round_trip_witness :
  exists pool1 h,
    get_string abc_memory empty_pool (by_view (mk_view (caller_ptr 0) 3)) = Some (pool1, h)
    /\ call_bytes abc_memory pool1 (by_view (view h)) = Some [x61; x62; x63]
    /\ get_string abc_memory pool1 (by_view (view h)) = Some (pool1, h).
Proof.
  assert (H1 : pool_inv abc_memory empty_pool) by apply empty_pool_inv.
  assert (H2 : call_ok abc_memory empty_pool (by_view (mk_view (caller_ptr 0) 3)))
    by (apply abc_view_ok; lia).
  assert (H3 : call_bytes abc_memory empty_pool (by_view (mk_view (caller_ptr 0) 3))
               = Some [x61; x62; x63]) by reflexivity.
  destruct (get_string_defined abc_memory _ _ _ H1 H2 H3) as (pool1 & h & Hget);
    [vm_compute; discriminate|].
  exists pool1, h. split; [exact Hget|].
  exact (proj2 (handle_view_round_trip abc_memory _ _ _ _ _ [] _ H1 H2 H3 Hget
                  (runs_nil abc_memory pool1))).
Defined.

Lemma copies_do_not_overlap_witness :
  exists pool h,
    runs abc_memory (string_pool_of abc_memory [])
      [(by_view (mk_view (caller_ptr 0) 3), h)] pool
    /\ pool_layout pool.
Proof.
  assert (H1 : pool_inv abc_memory empty_pool) by apply empty_pool_inv.
  assert (H2 : call_ok abc_memory empty_pool (by_view (mk_view (caller_ptr 0) 3)))
    by (apply abc_view_ok; lia).
  assert (H3 : call_bytes abc_memory empty_pool (by_view (mk_view (caller_ptr 0) 3))
               = Some [x61; x62; x63]) by reflexivity.
  destruct (get_string_defined abc_memory _ _ _ H1 H2 H3) as (pool & h & Hget);
    [vm_compute; discriminate|].
  assert (Hruns : runs abc_memory (string_pool_of abc_memory [])
                    [(by_view (mk_view (caller_ptr 0) 3), h)] pool)
    by (econstructor; [exact H2|exact Hget|constructor]).
  exists pool, h. split; [exact Hruns|].
  exact (copies_do_not_overlap abc_memory [] _ pool (Forall_nil _) Hruns).
Defined.

Lemma index_holds_each_content_once_witness :
  exists pool h,
    runs abc_memory (string_pool_of abc_memory [])
      [(by_string (mk_view (caller_ptr 2) 5), h)] pool
    /\ distinct_contents abc_memory pool.
Proof.
  assert (H1 : pool_inv abc_memory empty_pool) by apply empty_pool_inv.
  assert (H2 : call_ok abc_memory empty_pool (by_string (mk_view (caller_ptr 2) 5)))
    by (split; [simpl; lia|apply caller_view_readable]).
  assert (H3 : call_bytes abc_memory empty_pool (by_string (mk_view (caller_ptr 2) 5))
               = Some [x63; x61; x62; x63; x61]) by reflexivity.
  destruct (get_string_defined abc_memory _ _ _ H1 H2 H3) as (pool & h & Hget);
    [vm_compute; discriminate|].
  assert (Hruns : runs abc_memory (string_pool_of abc_memory [])
                    [(by_string (mk_view (caller_ptr 2) 5), h)] pool)
    by (econstructor; [exact H2|exact Hget|constructor]).
  exists pool, h. split; [exact Hruns|].
  exact (index_holds_each_content_once abc_memory [] _ pool (Forall_nil _) Hruns).
Defined.

Lemma pointer_equality_is_content_equality_witness :
  exists pool1 h1 pool3 h2,
    get_string abc_memory empty_pool (by_view (mk_view (caller_ptr 0) 3)) = Some (pool1, h1)
    /\ get_string abc_memory pool1 (by_string (mk_view (caller_ptr 3) 3)) = Some (pool3, h2)
    /\ fixed_string_eqb h1 h2 = true.
Proof.
  assert (H1 : pool_inv abc_memory empty_pool) by apply empty_pool_inv.
  assert (H2 : call_ok abc_memory empty_pool (by_view (mk_view (caller_ptr 0) 3)))
    by (apply abc_view_ok; lia).
  assert (H3 : call_bytes abc_memory empty_pool (by_view (mk_view (caller_ptr 0) 3))
               = Some [x61; x62; x63]) by reflexivity.
  destruct (get_string_defined abc_memory _ _ _ H1 H2 H3) as (pool1 & h1 & Hget1);
    [vm_compute; discriminate|].
  destruct (get_string_effect abc_memory _ _ _ _ _ H1 H2 H3 Hget1) as (Hinv1 & _).
  assert (Hpage : exists n off, data_ h1 = page_ptr n off).
  { exact (copied_handle abc_memory _ _ _ _ _ H1 H2 H3 Hget1 eq_refl I). }
  assert (H4 : call_ok abc_memory pool1 (by_string (mk_view (caller_ptr 3) 3)))
    by (split; [simpl; lia|apply caller_view_readable]).
  assert (H5 : call_bytes abc_memory pool1 (by_string (mk_view (caller_ptr 3) 3))
               = Some [x61; x62; x63]) by reflexivity.
  destruct (get_string_defined abc_memory _ _ _ Hinv1 H4 H5) as (pool3 & h2 & Hget2);
    [vm_compute; discriminate|].
  exists pool1, h1, pool3, h2. split; [exact Hget1|]. split; [exact Hget2|].
  exact (proj2 (proj1 (pointer_equality_is_content_equality abc_memory _ _ _ _ _ [] _ _ _
                         _ _ H1 empty_pool_layout H2 H3 Hget1 (runs_nil abc_memory pool1)
                         H4 H5 Hget2 Hpage))
           eq_refl).
Defined.

Lemma page_handles_stay_terminated_witness :
  exists pool1 h1 pool2 h2 n off,
    get_string abc_memory empty_pool (by_view (mk_view (caller_ptr 0) 3)) = Some (pool1, h1)
    /\ get_string abc_memory pool1 (by_string (mk_view (caller_ptr 3) 3)) = Some (pool2, h2)
    /\ data_ h2 = page_ptr n off
    /\ load abc_memory (page_ pool2) (page_ptr n (off + size_ h2)) = Some x00.
Proof.
  assert (H1 : pool_inv abc_memory empty_pool) by apply empty_pool_inv.
  assert (H2 : call_ok abc_memory empty_pool (by_view (mk_view (caller_ptr 0) 3)))
    by (apply abc_view_ok; lia).
  assert (H3 : call_bytes abc_memory empty_pool (by_view (mk_view (caller_ptr 0) 3))
               = Some [x61; x62; x63]) by reflexivity.
  destruct (get_string_defined abc_memory _ _ _ H1 H2 H3) as (pool1 & h1 & Hget1);
    [vm_compute; discriminate|].
  destruct (get_string_effect abc_memory _ _ _ _ _ H1 H2 H3 Hget1) as (Hinv1 & _).
  destruct (copied_handle abc_memory _ _ _ _ _ H1 H2 H3 Hget1 eq_refl I)
    as (n & off & Hpage).
  assert (H4 : call_ok abc_memory pool1 (by_string (mk_view (caller_ptr 3) 3)))
    by (split; [simpl; lia|apply caller_view_readable]).
  assert (H5 : call_bytes abc_memory pool1 (by_string (mk_view (caller_ptr 3) 3))
               = Some [x61; x62; x63]) by reflexivity.
  destruct (get_string_defined abc_memory _ _ _ Hinv1 H4 H5) as (pool2 & h2 & Hget2);
    [vm_compute; discriminate|].
  assert (Hsame : data_ h2 = page_ptr n off).
  { destruct (get_string_effect abc_memory _ _ _ _ _ H1 H2 H3 Hget1)
      as (_ & _ & _ & _ & (e & Hr & Hdata) & _).
    destruct (call_cases abc_memory _ _ _ _ _ Hinv1 H4 H5 Hget2)
      as [(e' & Hr' & _ & Hdata')|[(Hnone & _)|(Hnone & _)]]; congruence. }
  assert (Hruns : runs abc_memory (string_pool_of abc_memory [])
                    [(by_view (mk_view (caller_ptr 0) 3), h1)] pool1)
    by (econstructor; [exact H2|exact Hget1|constructor]).
  exists pool1, h1, pool2, h2, n, off.
  split; [exact Hget1|]. split; [exact Hget2|]. split; [exact Hsame|].
  exact (proj2 (page_handles_stay_terminated abc_memory [] _ pool1 _ _ _ _ [] _ n off
                  (Forall_nil _) Hruns H4 H5 Hget2 (runs_nil abc_memory pool2) Hsame)).
Defined.

Lemma oversized_copy_is_undefined_witness :
  get_string abc_memory empty_pool (by_view (mk_view (caller_ptr 0) 5000)) = None.
Proof.
  assert (H1 : pool_inv abc_memory empty_pool) by apply empty_pool_inv.
  assert (H2 : call_ok abc_memory empty_pool (by_view (mk_view (caller_ptr 0) 5000)))
    by (apply abc_view_ok; lia).
  destruct (caller_view_readable abc_memory [] 0 5000) as [bytes Hcb].
  assert (Hl : Z.of_nat (length bytes) = 5000).
  { apply (view_bytes_length abc_memory _ _ _) in Hcb; [exact Hcb|simpl; lia]. }
  assert (Hck : call_key abc_memory empty_pool (by_view (mk_view (caller_ptr 0) 5000))
                = Some (mk_key (mk_view (caller_ptr 0) 5000) (hash bytes))).
  { unfold call_key, string_key_of_view.
    change (page_ empty_pool) with (@nil fixed_page). rewrite Hcb. reflexivity. }
  apply (oversized_copy_is_undefined abc_memory _ _ bytes _ H1 H2 I Hcb Hck eq_refl).
  rewrite Hl. vm_compute. reflexivity.
Defined.

Lemma copy_is_bump_allocated_witness :
  exists pool' h,
    get_string abc_memory empty_pool (by_view (mk_view (caller_ptr 0) 3)) = Some (pool', h)
    /\ data_ h = page_ptr 0 0 /\ size_ h = 3.
Proof.
  assert (H1 : pool_inv abc_memory empty_pool) by apply empty_pool_inv.
  assert (H2 : call_ok abc_memory empty_pool (by_view (mk_view (caller_ptr 0) 3)))
    by (apply abc_view_ok; lia).
  assert (H3 : call_bytes abc_memory empty_pool (by_view (mk_view (caller_ptr 0) 3))
               = Some [x61; x62; x63]) by reflexivity.
  destruct (copy_is_bump_allocated abc_memory empty_pool _ [x61; x62; x63]
              (mk_key (mk_view (caller_ptr 0) 3) (hash [x61; x62; x63]))
              H1 H2 I H3 eq_refl eq_refl ltac:(vm_compute; discriminate))
    as (pool' & h & page' & Hget & Hsize & _ & Hcase).
  exists pool', h. split; [exact Hget|]. split; [|exact Hsize].
  destruct Hcase as [(page & previous & Heq & _)|(_ & _ & Hdata & _)];
    [discriminate Heq|exact Hdata].
Defined.

End PoolBehaviour.
